(** * Domain adaptation with optimal transport: the solvers of [ot/da.py]

    A shallow embedding of [sinkhorn_lpl1_mm], [sinkhorn_l1l2_gl],
    [joint_OT_mapping_linear] and [joint_OT_mapping_kernel], and of the
    classes built on them: [OTDA], [OTDA_mapping_linear],
    [OTDA_mapping_kernel], [BaseTransport], [EMDTransport] and
    [SinkhornLpl1Transport].

    - numpy scalars are values of [fl]: a real number, an infinity or NaN,
      with the special-value rules of IEEE arithmetic and exact arithmetic on
      the finite part (no rounding, no overflow, a single zero);
    - arrays are lists ([vec]) and lists of rows ([mat]);
    - the collaborators imported by the module ([sinkhorn], [emd], [dist],
      [kernel], [cg], [gcg]) and [np.linalg.solve] are calls of a small
      program monad [prog]; a run against an [oracle] gives the list of the
      calls made and the value returned or the exception raised;
    - array arithmetic ([+], [-], [*], [dot]) is on operands of conforming
      shapes, as the collaborators' documented shapes make them; integer and
      boolean-mask indexing raise [IndexError] out of range as numpy does;
    - the scalar parameters ([reg], [eta], [mu], [sigma], the thresholds) are
      Python floats given by the caller and are real numbers here, the
      iteration budgets are integers;
    - [verbose] only prints, and printing is not part of the model. *)

From Stdlib Require Import Reals Lra ZArith List Lia Bool Arith.
From Stdlib Require Import Sorted.
From Stdlib Require String.
Import ListNotations.

Set Implicit Arguments.

(** ** Scalars *)

Module Float.

Inductive fl : Type :=
| Fin (r : R)
| Inf (neg : bool)
| NaN.

Definition zero : fl := Fin 0.
Definition one : fl := Fin 1.
Definition of_nat (n : nat) : fl := Fin (INR n).

Definition fneg (x : fl) : fl :=
  match x with
  | Fin a => Fin (- a)
  | Inf s => Inf (negb s)
  | NaN => NaN
  end.

Definition fadd (x y : fl) : fl :=
  match x, y with
  | Fin a, Fin b => Fin (a + b)
  | Fin _, Inf s => Inf s
  | Inf s, Fin _ => Inf s
  | Inf s, Inf t => if Bool.eqb s t then Inf s else NaN
  | _, _ => NaN
  end.

Definition fsub (x y : fl) : fl := fadd x (fneg y).

(** Sign of a real as the sign bit of the infinity it scales; [None] at 0. *)
Definition sign_of (a : R) : option bool :=
  if Req_dec_T a 0 then None
  else if Rlt_dec a 0 then Some true else Some false.

Definition fmul (x y : fl) : fl :=
  match x, y with
  | Fin a, Fin b => Fin (a * b)
  | Fin a, Inf s | Inf s, Fin a =>
      match sign_of a with
      | None => NaN
      | Some t => Inf (xorb s t)
      end
  | Inf s, Inf t => Inf (xorb s t)
  | _, _ => NaN
  end.

Definition fdiv (x y : fl) : fl :=
  match x, y with
  | Fin a, Fin b =>
      if Req_dec_T b 0 then
        match sign_of a with
        | None => NaN
        | Some s => Inf s
        end
      else Fin (a / b)
  | Fin _, Inf _ => Fin 0
  | Inf s, Fin b =>
      match sign_of b with
      | None => Inf s
      | Some t => Inf (xorb s t)
      end
  | _, _ => NaN
  end.

Definition fabs (x : fl) : fl :=
  match x with
  | Fin a => Fin (Rabs a)
  | Inf _ => Inf false
  | NaN => NaN
  end.

Definition fsqrt (x : fl) : fl :=
  match x with
  | Fin a => if Rlt_dec a 0 then NaN else Fin (sqrt a)
  | Inf false => Inf false
  | Inf true => NaN
  | NaN => NaN
  end.

(** [x ** y] for a finite exponent [y] that is not an integer, which is the
    case of the only exponent of the module, [p - 1 = -0.5]. *)
Definition fpow (x : fl) (y : R) : fl :=
  match x with
  | Fin a =>
      if Rlt_dec 0 a then Fin (Rpower a y)
      else if Req_dec_T a 0 then (if Rlt_dec y 0 then Inf false else Fin 0)
      else NaN
  | Inf _ => if Rlt_dec y 0 then Fin 0 else Inf false
  | NaN => NaN
  end.

(** [x < y]; every comparison with NaN is false. *)
Definition flt (x y : fl) : bool :=
  match x, y with
  | Fin a, Fin b => if Rlt_dec a b then true else false
  | Fin _, Inf s => negb s
  | Inf s, Fin _ => s
  | Inf s, Inf t => s && negb t
  | _, _ => false
  end.

Definition is_zero (x : fl) : bool :=
  match x with
  | Fin a => if Req_dec_T a 0 then true else false
  | _ => false
  end.

(** Truth value of a scalar in [if n:]: everything but zero. *)
Definition truthy (x : fl) : bool :=
  match x with
  | Fin a => if Req_dec_T a 0 then false else true
  | _ => true
  end.

Definition finite (x : fl) : Prop :=
  match x with
  | Fin _ => True
  | _ => False
  end.

(** [0 <= x] as numpy decides it: false for NaN, true for [+inf]. *)
Definition nonneg (x : fl) : Prop :=
  match x with
  | Fin a => (0 <= a)%R
  | Inf s => s = false
  | NaN => False
  end.

Definition finite_nonneg (x : fl) : Prop := finite x /\ nonneg x.

End Float.
Import Float.

(** ** Arrays *)

Definition vec := list fl.
Definition mat := list vec.

Module Arr.

Definition nrows (M : mat) : nat := length M.
Definition ncols (M : mat) : nat :=
  match M with
  | [] => O
  | r :: _ => length r
  end.

(** All rows have [c] entries. *)
Definition wf (c : nat) (M : mat) : Prop := Forall (fun r => length r = c) M.

Definition full (x : fl) (r c : nat) : mat := repeat (repeat x c) r.
Definition zeros (r c : nat) : mat := full zero r c.
Definition ones (r c : nat) : mat := full one r c.

Fixpoint zip_with (f : fl -> fl -> fl) (u v : vec) : vec :=
  match u, v with
  | x :: u', y :: v' => f x y :: zip_with f u' v'
  | _, _ => []
  end.

Fixpoint mzip_with (f : fl -> fl -> fl) (A B : mat) : mat :=
  match A, B with
  | r :: A', s :: B' => zip_with f r s :: mzip_with f A' B'
  | _, _ => []
  end.

Definition vadd : vec -> vec -> vec := zip_with fadd.
Definition madd : mat -> mat -> mat := mzip_with fadd.
Definition msub : mat -> mat -> mat := mzip_with fsub.
Definition mmul : mat -> mat -> mat := mzip_with fmul.
Definition smul (s : fl) (A : mat) : mat := map (map (fmul s)) A.
Definition msquare (A : mat) : mat := map (map (fun x => fmul x x)) A.

(** [np.sum] of a vector and of a whole matrix. *)
Definition fsum (v : vec) : fl := fold_left fadd v zero.
Definition msum (A : mat) : fl := fsum (map fsum A).

(** [np.sum(A, axis=0)] for an array with [c] columns. *)
Definition sum_axis0 (c : nat) (A : mat) : vec :=
  fold_left vadd A (repeat zero c).

(** [np.linalg.norm] of a vector. *)
Definition norm (v : vec) : fl := fsqrt (fsum (map (fun x => fmul x x) v)).

Definition entry (A : mat) (r j : nat) : fl := nth j (nth r A []) NaN.

Definition col (A : mat) (j : nat) : vec := map (fun r => nth j r NaN) A.

(** [A.T]; an array without rows has no columns here. *)
Definition transpose (A : mat) : mat := map (col A) (seq 0 (ncols A)).

Definition dot (u v : vec) : fl := fsum (zip_with fmul u v).

(** [A.dot(B)]. *)
Definition mdot (A B : mat) : mat :=
  map (fun r => map (fun j => dot r (col B j)) (seq 0 (ncols B))) A.

(** [np.hstack((A, np.ones((A.shape[0], 1))))]. *)
Definition hstack_ones (A : mat) : mat := map (fun r => r ++ [one]) A.

Definition eye (n : nat) : mat :=
  map (fun i => map (fun j => if i =? j then one else zero) (seq 0 n)) (seq 0 n).

(** [A[-1] = 0] on an array that has a row. *)
Definition zero_last_row (A : mat) : mat :=
  removelast A ++ [repeat zero (ncols A)].

(** [A[:, :-1]] and [A[:-1, :]]. *)
Definition drop_last_col (A : mat) : mat := map (@removelast fl) A.
Definition drop_last_row (A : mat) : mat := removelast A.

(** [Kp[:n, :n] = K] for [K] of shape [(n, n)]. *)
Definition set_topleft (n : nat) (K Kp : mat) : mat :=
  map (fun i =>
         let row := nth i Kp [] in
         if i <? n then firstn n (nth i K []) ++ skipn n row else row)
      (seq 0 (nrows Kp)).

(** [np.trace]. *)
Definition mtrace (A : mat) : fl :=
  fsum (map (fun i => entry A i i) (seq 0 (Nat.min (nrows A) (ncols A)))).

(** [l[-k]] of a Python list, [k >= 1]. *)
Definition neg_index (l : list fl) (k : nat) : option fl :=
  if (1 <=? k) && (k <=? length l) then nth_error l (length l - k) else None.

End Arr.
Import Arr.

(** ** Exceptions, collaborators and programs *)

Inductive exn : Type :=
| UnboundLocalError
| ZeroDivisionError
| IndexError
| ValueError
| LinAlgError
| CollaboratorError (code : nat).

Inductive result (A : Type) : Type :=
| Ok (a : A)
| Err (e : exn).
Arguments Ok {A} a.
Arguments Err {A} e.

Definition rbind {A B : Type} (r : result A) (f : A -> result B) : result B :=
  match r with
  | Ok a => f a
  | Err e => Err e
  end.

(** The collaborators that return one array. Keyword arguments keep the order
    of the call in the source; [f] and [df] of [Cg] are the closures that
    [solve_G] builds. *)
Inductive mcall : Type :=
| Sinkhorn (a b : vec) (M : mat) (reg : R) (numItermax : Z) (stopThr : R)
| Emd (a b : vec) (M : mat)
| Dist (x1 x2 : mat)
| Kernel (x1 x2 : mat) (method : String.string) (sigma : R)
| Cg (a b : vec) (M : mat) (reg : R)
     (f : mat -> fl) (df : mat -> mat) (G0 : option mat)
     (numItermax : Z) (stopThr : R)
| Solve (A B : mat).

(** [ot.optim.gcg(a, b, M, reg1, reg2, f, df, G0, numItermax,
    numInnerItermax, stopThr, verbose, log)]. The penalty and its gradient
    may raise on an array whose row count differs from the labels'. *)
Record gcg_args : Type := GcgArgs {
  gcg_a : vec;
  gcg_b : vec;
  gcg_M : mat;
  gcg_reg1 : R;
  gcg_reg2 : R;
  gcg_f : mat -> result fl;
  gcg_df : mat -> result mat;
  gcg_G0 : option mat;
  gcg_numItermax : Z;
  gcg_numInnerItermax : Z;
  gcg_stopThr : R;
  gcg_verbose : bool;
  gcg_log : bool
}.

(** What a coupling solver hands back: the coupling, or the coupling and a
    log; the log of [gcg] is its loss trace. *)
Inductive coupling_ret : Type :=
| JustG (G : mat)
| GWithLog (G : mat) (log : list fl).

Inductive prog (A : Type) : Type :=
| Ret (a : A)
| Raise (e : exn)
| CallM (c : mcall) (k : mat -> prog A)
| CallGcg (g : gcg_args) (k : coupling_ret -> prog A).
Arguments Ret {A} a.
Arguments Raise {A} e.
Arguments CallM {A} c k.
Arguments CallGcg {A} g k.

Fixpoint bind {A B : Type} (p : prog A) (f : A -> prog B) : prog B :=
  match p with
  | Ret a => f a
  | Raise e => Raise e
  | CallM c k => CallM c (fun G => bind (k G) f)
  | CallGcg g k => CallGcg g (fun r => bind (k r) f)
  end.

Definition lift {A : Type} (r : result A) : prog A :=
  match r with
  | Ok a => Ret a
  | Err e => Raise e
  end.

Definition call (c : mcall) : prog mat := CallM c Ret.

Declare Scope prog_scope.
Delimit Scope prog_scope with prog.
Notation "x <- p ;; q" := (bind p (fun x => q))
  (at level 61, p at next level, right associativity) : prog_scope.
Notation "x <-? r ;; q" := (rbind r (fun x => q))
  (at level 61, r at next level, right associativity) : prog_scope.
Local Open Scope prog_scope.

(** The environment of a run. *)
Record oracle : Type := Oracle {
  on_call : mcall -> result mat;
  on_gcg : gcg_args -> result coupling_ret
}.

Inductive event : Type :=
| EvCall (c : mcall)
| EvGcg (g : gcg_args).

(** A run gives the calls made, in order, and the outcome. A collaborator
    that raises ends the run with its exception. *)
Fixpoint run {A : Type} (h : oracle) (p : prog A) : list event * result A :=
  match p with
  | Ret a => ([], Ok a)
  | Raise e => ([], Err e)
  | CallM c k =>
      match on_call h c with
      | Ok G => let (t, r) := run h (k G) in (EvCall c :: t, r)
      | Err e => ([EvCall c], Err e)
      end
  | CallGcg g k =>
      match on_gcg h g with
      | Ok v => let (t, r) := run h (k v) in (EvGcg g :: t, r)
      | Err e => ([EvGcg g], Err e)
      end
  end.

Definition trace {A : Type} (h : oracle) (p : prog A) : list event := fst (run h p).
Definition outcome {A : Type} (h : oracle) (p : prog A) : result A := snd (run h p).

(** Contracts of the entropic solver that some properties assume: it answers
    every call with an array of the shape of the cost matrix; it answers only
    with non-negative entries. *)
Definition answers_sinkhorn (h : oracle) (r c : nat) : Prop :=
  forall a b C reg n thr,
    exists g, on_call h (Sinkhorn a b C reg n thr) = Ok g /\
              nrows g = r /\ wf c g.

Definition sinkhorn_nonneg (h : oracle) : Prop :=
  forall a b C reg n thr g,
    on_call h (Sinkhorn a b C reg n thr) = Ok g -> Forall (Forall nonneg) g.

(** A call of the entropic solver on the cost [M + eta W] for weights [W]
    whose entries are finite and non-negative. *)
Definition weighted_solve (a b : vec) (M : mat) (reg eta : R) (nin : Z) (thr : R)
    (ev : event) : Prop :=
  exists W, Forall (Forall finite_nonneg) W /\
            ev = EvCall (Sinkhorn a b (madd M (smul (Fin eta) W)) reg nin thr).

(** ** Labels *)

Module Labels.

(** [np.unique]: the sorted distinct values. *)
Fixpoint insert_unique (x : Z) (l : list Z) : list Z :=
  match l with
  | [] => [x]
  | y :: t =>
      if (x <? y)%Z then x :: l
      else if (x =? y)%Z then l
      else y :: insert_unique x t
  end.

Definition unique (l : list Z) : list Z := fold_right insert_unique [] l.

(** [np.where(labels == c)]: the positions holding [c], increasing. *)
Fixpoint where_from (i : nat) (labels : list Z) (c : Z) : list nat :=
  match labels with
  | [] => []
  | x :: t =>
      if (x =? c)%Z then i :: where_from (S i) t c else where_from (S i) t c
  end.

Definition where_eq (labels : list Z) (c : Z) : list nat := where_from 0 labels c.

End Labels.
Import Labels.

(** ** Indexing *)

Module Index.

(** [A[idx]] for an integer index array: the listed rows, [IndexError] when
    an index is out of range. *)
Fixpoint take_rows (A : mat) (idx : list nat) : result mat :=
  match idx with
  | [] => Ok []
  | i :: idx' =>
      match nth_error A i with
      | None => Err IndexError
      | Some r => rows <-? take_rows A idx' ;; Ok (r :: rows)
      end
  end.

Fixpoint set_nth {A : Type} (i : nat) (x : A) (l : list A) : list A :=
  match l, i with
  | [], _ => []
  | _ :: t, O => x :: t
  | y :: t, S i' => y :: set_nth i' x t
  end.

(** A vector assigned to rows of [c] entries: itself when it has [c]
    entries, its single entry repeated when it has one, [ValueError]
    otherwise. *)
Definition broadcast_row (c : nat) (v : vec) : result vec :=
  if length v =? c then Ok v
  else match v with
       | [x] => Ok (repeat x c)
       | _ => Err ValueError
       end.

(** [W[idx] = v]: the indices are checked, [v] is broadcast to a row of [W],
    and the listed rows are replaced. *)
Definition assign_rows (W : mat) (idx : list nat) (v : vec) : result mat :=
  if forallb (fun i => i <? length W) idx then
    row <-? broadcast_row (ncols W) v ;;
    Ok (fold_left (fun W' i => set_nth i row W') idx W)
  else Err IndexError.

End Index.
Import Index.

(** ** [sinkhorn_lpl1_mm] *)

Module Lpl1.

Definition p : R := 1 / 2.
Definition epsilon : R := 1 / 1000.

(** [indices_labels]: one index array per class of [np.unique(labels_a)]. *)
Definition indices_labels (labels_a : list Z) : list (list nat) :=
  map (where_eq labels_a) (unique labels_a).

(** [p * ((majs + epsilon)**(p - 1))], entry by entry. *)
Definition majorize (majs : vec) : vec :=
  map (fun m => fmul (Fin p) (fpow (fadd m (Fin epsilon)) (p - 1))) majs.

(** The body of [for (i, c) in enumerate(classes)]. *)
Definition class_step (transp : mat) (idx : list (list nat))
    (W : mat) (i : nat) : result mat :=
  match nth_error idx i with
  | None => Err IndexError
  | Some idxc =>
      rows <-? take_rows transp idxc ;;
      let majs := sum_axis0 (ncols transp) rows in
      let majs := majorize majs in
      assign_rows W idxc majs
  end.

Fixpoint class_loop (transp : mat) (idx : list (list nat))
    (W : mat) (ks : list nat) : result mat :=
  match ks with
  | [] => Ok W
  | i :: ks' => W' <-? class_step transp idx W i ;; class_loop transp idx W' ks'
  end.

(** The weights recomputed after a solve: [W = np.ones(M.shape)] and then the
    loop over the classes. *)
Definition update_W (labels_a : list Z) (M transp : mat) : result mat :=
  let classes := unique labels_a in
  class_loop transp (indices_labels labels_a)
    (ones (nrows M) (ncols M)) (seq 0 (length classes)).

Section Solver.

Variables (a : vec) (labels_a : list Z) (b : vec) (M : mat) (reg eta : R).
Variables (numInnerItermax : Z) (stopInnerThr : R).

(** [for cpt in range(numItermax)] with [n] rounds left; [transp] is [None]
    while the local variable is unbound. *)
Fixpoint outer_loop (n : nat) (W : mat) (transp : option mat)
    : prog (option mat) :=
  match n with
  | O => Ret transp
  | S n' =>
      let Mreg := madd M (smul (Fin eta) W) in
      transp <- call (Sinkhorn a b Mreg reg numInnerItermax stopInnerThr) ;;
      W <- lift (update_W labels_a M transp) ;;
      outer_loop n' W (Some transp)
  end.

Definition sinkhorn_lpl1_mm (numItermax : Z) (verbose log : bool)
    : prog coupling_ret :=
  let W := zeros (nrows M) (ncols M) in
  transp <- outer_loop (Z.to_nat numItermax) W None ;;
  match transp with
  | None => Raise UnboundLocalError
  | Some transp => Ret (JustG transp)
  end.

End Solver.

End Lpl1.

(** ** [sinkhorn_l1l2_gl] *)

Module L1l2.

(** [G[labels_a == lab, i]]: the entries of column [i] on the rows labelled
    [lab]; numpy refuses a mask whose length is not the number of rows. *)
Definition mask_col (labels_a : list Z) (lab : Z) (G : mat) (i : nat)
    : result vec :=
  if length labels_a =? nrows G
  then Ok (map (fun r => entry G r i) (where_eq labels_a lab))
  else Err IndexError.

Definition set_entry (W : mat) (r i : nat) (x : fl) : mat :=
  set_nth r (set_nth i x (nth r W [])) W.

Fixpoint set_entries (W : mat) (rs : list nat) (i : nat) (v : vec) : mat :=
  match rs, v with
  | r :: rs', x :: v' => set_entries (set_entry W r i x) rs' i v'
  | _, _ => W
  end.

(** [W[labels_a == lab, i] = v] with [v] as long as the mask has hits. *)
Definition assign_mask_col (labels_a : list Z) (lab : Z) (W : mat) (i : nat)
    (v : vec) : result mat :=
  if length labels_a =? nrows W
  then Ok (set_entries W (where_eq labels_a lab) i v)
  else Err IndexError.

Section Penalty.

Variable labels_a : list Z.

Definition lstlab : list Z := unique labels_a.

Fixpoint f_labs (G : mat) (i : nat) (labs : list Z) (res : fl) : result fl :=
  match labs with
  | [] => Ok res
  | lab :: labs' =>
      temp <-? mask_col labels_a lab G i ;;
      f_labs G i labs' (fadd res (norm temp))
  end.

Fixpoint f_cols (G : mat) (cols : list nat) (res : fl) : result fl :=
  match cols with
  | [] => Ok res
  | i :: cols' => res' <-? f_labs G i lstlab res ;; f_cols G cols' res'
  end.

Definition f (G : mat) : result fl := f_cols G (seq 0 (ncols G)) zero.

Fixpoint df_labs (G : mat) (i : nat) (labs : list Z) (W : mat) : result mat :=
  match labs with
  | [] => Ok W
  | lab :: labs' =>
      temp <-? mask_col labels_a lab G i ;;
      let n := norm temp in
      if truthy n then
        W' <-? assign_mask_col labels_a lab W i (map (fun x => fdiv x n) temp) ;;
        df_labs G i labs' W'
      else df_labs G i labs' W
  end.

Fixpoint df_cols (G : mat) (cols : list nat) (W : mat) : result mat :=
  match cols with
  | [] => Ok W
  | i :: cols' => W' <-? df_labs G i lstlab W ;; df_cols G cols' W'
  end.

Definition df (G : mat) : result mat :=
  df_cols G (seq 0 (ncols G)) (zeros (nrows G) (ncols G)).

End Penalty.

Definition sinkhorn_l1l2_gl (a : vec) (labels_a : list Z) (b : vec) (M : mat)
    (reg eta : R) (numItermax numInnerItermax : Z) (stopInnerThr : R)
    (verbose log : bool) : prog coupling_ret :=
  CallGcg (GcgArgs a b M reg eta (f labels_a) (df labels_a) None
             numItermax numInnerItermax stopInnerThr verbose log) Ret.

End L1l2.

(** ** The joint mapping estimators *)

Module Joint.

(** Modelled from the spec: [ot.utils.unif] is not among the sources; the
    spec gives [unif(n) -> vector of 1/n]. *)
Definition unif (n : nat) : vec := repeat (fdiv one (of_nat n)) n.

(** The log dictionary of the estimators: [{'err': [], 'loss': vloss}]. *)
Record map_log : Type := MapLog { log_err : list fl; log_loss : list fl }.

(** [(G, L)] or [(G, L, log)]. *)
Inductive mapping_ret : Type :=
| GL (G L : mat)
| GLLog (G L : mat) (log : map_log).

Definition ret_G (r : mapping_ret) : mat :=
  match r with
  | GL G _ => G
  | GLLog G _ _ => G
  end.

Definition ret_L (r : mapping_ret) : mat :=
  match r with
  | GL _ L => L
  | GLLog _ L _ => L
  end.

(** The state of the block coordinate descent between two rounds. *)
Record bcd_state : Type := BcdState {
  st_loop : bool;
  st_it : Z;
  st_G : mat;
  st_L : mat;
  st_vloss : list fl
}.

(** [1.0 / mu] on Python floats. *)
Definition py_inv (mu : R) : result R :=
  if Req_dec_T mu 0 then Err ZeroDivisionError else Ok (1 / mu)%R.

(** [abs(vloss[-1] - vloss[-2]) / abs(vloss[-2])]. *)
Definition rel_decrease (vloss : list fl) : result fl :=
  match neg_index vloss 1, neg_index vloss 2 with
  | Some v1, Some v2 => Ok (fdiv (fabs (fsub v1 v2)) (fabs v2))
  | _, _ => Err IndexError
  end.

(** The part that the two estimators share word for word: the first mapping,
    the [while loop:] and the return. *)
Section Bcd.

Variables (solve_G : mat -> mat -> prog mat) (solve_L : mat -> prog mat).
Variable loss : mat -> mat -> fl.
Variables (numItermax : Z) (stopThr : R) (log : bool).

(** One pass through the body of [while loop:]. *)
Definition bcd_round (s : bcd_state) : prog bcd_state :=
  let it := (st_it s + 1)%Z in
  G <- solve_G (st_L s) (st_G s) ;;
  L <- solve_L G ;;
  let vloss := (st_vloss s ++ [loss L G])%list in
  let loop := if (it >=? numItermax)%Z then false else st_loop s in
  delta <- lift (rel_decrease vloss) ;;
  let loop := if flt delta (Fin stopThr) then false else loop in
  Ret (BcdState loop it G L vloss).

(** [while loop:]; [None] when the fuel runs out first. *)
Fixpoint bcd_while (fuel : nat) (s : bcd_state) : prog (option bcd_state) :=
  if st_loop s then
    match fuel with
    | O => Ret None
    | S fuel' => s' <- bcd_round s ;; bcd_while fuel' s'
    end
  else Ret (Some s).

Definition bcd_return (s : bcd_state) : mapping_ret :=
  if log then GLLog (st_G s) (st_L s) (MapLog [] (st_vloss s))
  else GL (st_G s) (st_L s).

(** From [vloss = []] to the return, with the first coupling [G]. *)
Definition bcd (fuel : nat) (G : mat) : prog (option mapping_ret) :=
  L <- solve_L G ;;
  let vloss := [loss L G] in
  let loop := if (numItermax >? 0)%Z then true else false in
  let it := 0%Z in
  s <- bcd_while fuel (BcdState loop it G L vloss) ;;
  Ret (option_map bcd_return s).

End Bcd.

(** [solve_G], the same in both estimators up to the features [X1]
    ([xs1] or [K1]). *)
Definition solve_G (X1 xt : mat) (ns : nat) (a b : vec) (M : mat) (mu : R)
    (numInnerItermax : Z) (stopInnerThr : R) (L G0 : mat) : prog mat :=
  let xsi := mdot X1 L in
  let f := fun G => msum (msquare (msub xsi (smul (of_nat ns) (mdot G xt)))) in
  let df := fun G =>
    smul (Fin (-2 * INR ns))
      (mdot (msub xsi (smul (of_nat ns) (mdot G xt))) (transpose xt)) in
  reg <- lift (py_inv mu) ;;
  call (Cg a b M reg f df (Some G0) numInnerItermax stopInnerThr).

Section Linear.

Variables (xs xt : mat) (mu eta : R) (bias : bool).
Variables (numItermax numInnerItermax : Z) (stopInnerThr stopThr : R).
Variable log : bool.

Definition ns : nat := nrows xs.
Definition nt : nat := nrows xt.
Definition d : nat := ncols xt.

Definition xs1 : mat := if bias then hstack_ones xs else xs.
Definition xstxs : mat := mdot (transpose xs1) xs1.
Definition I : mat := if bias then zero_last_row (eye (d + 1)) else eye d.
Definition I0 : mat := if bias then drop_last_col I else I.
Definition sel (x : mat) : mat := if bias then drop_last_row x else x.

Definition loss (M L G : mat) : fl :=
  fadd (fadd (msum (msquare (msub (mdot xs1 L) (smul (of_nat ns) (mdot G xt)))))
             (fmul (Fin mu) (msum (mmul G M))))
       (fmul (Fin eta) (msum (msquare (sel (msub L I0))))).

Definition solve_L (G : mat) : prog mat :=
  let xst := smul (of_nat ns) (mdot G xt) in
  call (Solve (madd xstxs (smul (Fin eta) I))
              (madd (mdot (transpose xs1) xst) (smul (Fin eta) I0))).

Definition joint_OT_mapping_linear_fuel (fuel : nat) : prog (option mapping_ret) :=
  let a := unif ns in
  let b := unif nt in
  D <- call (Dist xs xt) ;;
  let M := smul (of_nat ns) D in
  G <- call (Emd a b M) ;;
  bcd (solve_G xs1 xt ns a b M mu numInnerItermax stopInnerThr) solve_L
      (loss M) numItermax stopThr log fuel G.

(** The loop leaves after at most [numItermax] rounds. *)
Definition joint_OT_mapping_linear : prog (option mapping_ret) :=
  joint_OT_mapping_linear_fuel (Z.to_nat numItermax).

End Linear.

Section KernelMap.

Variables (xs xt : mat) (mu eta : R) (kerneltype : String.string) (sigma : R).
Variable bias : bool.
Variables (numItermax numInnerItermax : Z) (stopInnerThr stopThr : R).
Variable log : bool.

Definition K1 (K : mat) : mat := if bias then hstack_ones K else K.
Definition Kp (K : mat) : mat := set_topleft (ns xs) K (eye (ns xs + 1)).
Definition K0 (K : mat) : mat :=
  if bias then madd (mdot (transpose (K1 K)) (K1 K)) (smul (Fin eta) (Kp K))
  else madd K (smul (Fin eta) (eye (ns xs))).
Definition Kreg (K : mat) : mat := if bias then Kp K else K.

Definition kloss (K M L G : mat) : fl :=
  fadd (fadd (msum (msquare (msub (mdot (K1 K) L)
                                  (smul (of_nat (ns xs)) (mdot G xt)))))
             (fmul (Fin mu) (msum (mmul G M))))
       (fmul (Fin eta) (mtrace (mdot (mdot (transpose L) (Kreg K)) L))).

Definition solve_L_nobias (K G : mat) : prog mat :=
  let xst := smul (of_nat (ns xs)) (mdot G xt) in
  call (Solve (K0 K) xst).

Definition solve_L_bias (K G : mat) : prog mat :=
  let xst := smul (of_nat (ns xs)) (mdot G xt) in
  call (Solve (K0 K) (mdot (transpose (K1 K)) xst)).

Definition ksolve_L (K : mat) : mat -> prog mat :=
  if bias then solve_L_bias K else solve_L_nobias K.

Definition joint_OT_mapping_kernel_fuel (fuel : nat) : prog (option mapping_ret) :=
  K <- call (Kernel xs xs kerneltype sigma) ;;
  let a := unif (ns xs) in
  let b := unif (nt xt) in
  D <- call (Dist xs xt) ;;
  let M := smul (of_nat (ns xs)) D in
  G <- call (Emd a b M) ;;
  bcd (solve_G (K1 K) xt (ns xs) a b M mu numInnerItermax stopInnerThr)
      (ksolve_L K) (kloss K M) numItermax stopThr log fuel G.

Definition joint_OT_mapping_kernel : prog (option mapping_ret) :=
  joint_OT_mapping_kernel_fuel (Z.to_nat numItermax).

End KernelMap.

End Joint.

(** ** The group penalties in the words of the specification *)

Module Words.

(** The entries of target column [j] on the rows of class [c]. *)
Definition block (labels_a : list Z) (gamma : mat) (c : Z) (j : nat) : vec :=
  map (fun r => entry gamma r j) (where_eq labels_a c).

(** The coupling summed over the rows of class [c], at column [j]. *)
Definition class_mass (labels_a : list Z) (gamma : mat) (c : Z) (j : nat) : fl :=
  fsum (block labels_a gamma c j).

(** [p (mass + eps)^(p - 1)] for [p = 0.5] and [eps = 1e-3]. *)
Definition majorizer (mass : fl) : fl :=
  fmul (Fin (1 / 2)) (fpow (fadd mass (Fin (1 / 1000))) (1 / 2 - 1)).

(** The weights after a solve: every row of class [c] carries, column by
    column, the majorizer of the mass of [c]. *)
Definition W_of (labels_a : list Z) (nt : nat) (gamma : mat) : mat :=
  map (fun c => map (fun j => majorizer (class_mass labels_a gamma c j)) (seq 0 nt))
      labels_a.

Section Rounds.

Variables (h : oracle) (a : vec) (labels_a : list Z) (b : vec) (M : mat).
Variables (reg eta : R) (numInnerItermax : Z) (stopInnerThr : R).

(** [n] rounds of: solve on [M + eta W], recompute [W]. The calls made and
    the last coupling, if any. *)
Fixpoint mm_rounds (n : nat) (W : mat) (gamma : option mat)
    : list event * result (option mat) :=
  match n with
  | O => ([], Ok gamma)
  | S n' =>
      let c := Sinkhorn a b (madd M (smul (Fin eta) W)) reg
                 numInnerItermax stopInnerThr in
      match on_call h c with
      | Ok g =>
          let (t, r) := mm_rounds n' (W_of labels_a (ncols M) g) (Some g) in
          (EvCall c :: t, r)
      | Err e => ([EvCall c], Err e)
      end
  end.

End Rounds.

(** The L1-L2 penalty: over the target columns and the classes, the sum of
    the Euclidean norms of the blocks. *)
Definition f_of (labels_a : list Z) (gamma : mat) : fl :=
  fsum (flat_map (fun j => map (fun c => norm (block labels_a gamma c j))
                               (unique labels_a))
                 (seq 0 (ncols gamma))).

(** Its gradient: the block divided by its norm, zero where the norm is. *)
Definition df_entry (labels_a : list Z) (gamma : mat) (r j : nat) : fl :=
  let n := norm (block labels_a gamma (nth r labels_a 0%Z) j) in
  if is_zero n then zero else fdiv (entry gamma r j) n.

Definition df_of (labels_a : list Z) (gamma : mat) : mat :=
  map (fun r => map (fun j => df_entry labels_a gamma r j) (seq 0 (ncols gamma)))
      (seq 0 (nrows gamma)).

(** The data-fitting term of the joint estimators for a fixed mapping [L],
    [|| X1 L - ns gamma Xt ||^2], and its gradient in [gamma],
    [-2 ns (X1 L - ns gamma Xt) Xt^T]. *)
Definition fit_loss (X1 xt : mat) (ns : nat) (L gamma : mat) : fl :=
  msum (msquare (msub (mdot X1 L) (smul (of_nat ns) (mdot gamma xt)))).

Definition fit_grad (X1 xt : mat) (ns : nat) (L gamma : mat) : mat :=
  smul (Fin (-2 * INR ns))
       (mdot (msub (mdot X1 L) (smul (of_nat ns) (mdot gamma xt))) (transpose xt)).

(** A call that a joint estimator may make: the set-up calls, a linear
    solve, or the conditional gradient [cg] on [(a, b, M)] with weight
    [1 / mu], the fitting term of some mapping and its gradient, a starting
    coupling and the inner budget. Neither [sinkhorn] nor [gcg]. *)
Definition joint_event (X1 xt : mat) (ns : nat) (a b : vec) (M : mat) (mu : R)
    (nin : Z) (thr : R) (ev : event) : Prop :=
  match ev with
  | EvCall (Solve _ _) => True
  | EvCall (Cg a' b' M' reg f df G0 n t) =>
      a' = a /\ b' = b /\ M' = M /\ reg = (1 / mu)%R /\ n = nin /\ t = thr /\
      (exists G, G0 = Some G) /\
      (exists L, forall G, f G = fit_loss X1 xt ns L G /\
                           df G = fit_grad X1 xt ns L G)
  | _ => False
  end.

(** [np.linalg.solve] answering only with solutions. *)
Definition solves_exactly (h : oracle) : Prop :=
  forall A B X, on_call h (Solve A B) = Ok X -> mdot A X = B.

(** The coupling update of a joint estimator with the mapping [L] held
    fixed: the call of [cg] on [(a, b, M)] with weight [1 / mu], the fitting
    term of [L] and its gradient, started from the coupling [G]. *)
Definition cg_update (X1 xt : mat) (ns : nat) (a b : vec) (M : mat) (mu : R)
    (nin : Z) (thr : R) (L G : mat) : mcall :=
  Cg a b M (1 / mu) (fit_loss X1 xt ns L) (fit_grad X1 xt ns L) (Some G) nin thr.

(** The linear system of the mapping for a fixed coupling [G], in the linear
    and in the kernel estimator. *)
Definition linear_system (xs xt : mat) (eta : R) (bias : bool) (G : mat) : mcall :=
  Solve (madd (Joint.xstxs xs bias) (smul (Fin eta) (Joint.I xt bias)))
        (madd (mdot (transpose (Joint.xs1 xs bias))
                    (smul (of_nat (Joint.ns xs)) (mdot G xt)))
              (smul (Fin eta) (Joint.I0 xt bias))).

Definition kernel_system (xs xt : mat) (eta : R) (bias : bool) (K G : mat)
    : mcall :=
  let xst := smul (of_nat (Joint.ns xs)) (mdot G xt) in
  Solve (Joint.K0 xs eta bias K)
        (if bias then mdot (transpose (Joint.K1 bias K)) xst else xst).

Section JointRounds.

Variables (h : oracle) (update : mat -> mat -> mcall) (system : mat -> mcall).

(** [n] rounds from the coupling [G] and the mapping [L]: the coupling is
    updated with [L] held fixed, started from [G]; then the mapping is solved
    for the new coupling. The calls made, up to the first that fails. *)
Fixpoint joint_rounds (n : nat) (G L : mat) : list event :=
  match n with
  | O => []
  | S n' =>
      match on_call h (update L G) with
      | Err _ => [EvCall (update L G)]
      | Ok G' =>
          match on_call h (system G') with
          | Err _ => [EvCall (update L G); EvCall (system G')]
          | Ok L' =>
              EvCall (update L G) :: EvCall (system G') :: joint_rounds n' G' L'
          end
      end
  end.

End JointRounds.

End Words.

(** ** Sample data *)

Module Ex.

Definition a : vec := [Fin (1 / 2); Fin (1 / 2)].
Definition b : vec := [Fin (1 / 2); Fin (1 / 2)].
Definition labels : list Z := [0%Z; 1%Z].
Definition M : mat := [[Fin 0; Fin 1]; [Fin 1; Fin 0]].

(** The coupling that pairs the two samples in order. *)
Definition T : mat := [[Fin (1 / 2); Fin 0]; [Fin 0; Fin (1 / 2)]].

(** Collaborators that answer every call with [T], and [gcg] with a log when
    asked for one. *)
Definition h : oracle :=
  Oracle (fun _ => Ok T)
         (fun g => Ok (if gcg_log g then GWithLog T [] else JustG T)).

(** A Gram matrix of two samples. *)
Definition K : mat := [[Fin 1; Fin (1 / 2)]; [Fin (1 / 2); Fin 1]].

(** One sample on each side, and collaborators for it: [np.linalg.solve] on
    1 x 1 systems, every other call answered with the 1 x 1 array [1]. *)
Definition x1 : mat := [[Fin 1]].
Definition x2 : mat := [[Fin 2]].

Definition solve1 (A B : mat) : result mat :=
  match A, B with
  | [[Fin a]], [[Fin b]] =>
      if Req_dec_T a 0 then Err LinAlgError else Ok [[Fin (b / a)]]
  | _, _ => Err LinAlgError
  end.

Definition h1 : oracle :=
  Oracle (fun c => match c with
                   | Solve A B => solve1 A B
                   | _ => Ok [[Fin 1]]
                   end)
         (fun _ => Ok (JustG [[Fin 1]])).

End Ex.

(** ** Measures on traces *)

Definition is_cg (ev : event) : bool :=
  match ev with
  | EvCall (Cg _ _ _ _ _ _ _ _ _) => true
  | _ => false
  end.

(** The number of calls of [cg] in a trace. *)
Definition count_cg (t : list event) : nat := length (filter is_cg t).

(** ** The estimator classes [OTDA_mapping_linear] and [OTDA_mapping_kernel]

    A method is a function of the object and of the collaborators' answers: it
    gives the calls made, the object as the call leaves it, and the exception
    raised if any. The field [computed] is the constructor of the object:
    every assignment [self.computed = True] follows the assignment of the
    arrays [G] and [L], and no method unsets it. *)

Module Names.
Import String.
(** The default of [kerneltype] in [joint_OT_mapping_kernel]. *)
Definition gaussian : string := "gaussian"%string.
End Names.

Module Mapping.

(** The keyword arguments the two [fit] methods hand to the estimators
    ([verbose] and [verbose2] only print). *)
Record kwargs : Type := Kwargs {
  kw_numItermax : option Z;
  kw_numInnerItermax : option Z;
  kw_stopInnerThr : option R;
  kw_stopThr : option R;
  kw_log : option bool
}.

Definition no_kwargs : kwargs := Kwargs None None None None None.

Definition given {A : Type} (default : A) (o : option A) : A :=
  match o with
  | Some a => a
  | None => default
  end.

(** [joint_OT_mapping_linear(xs, xt, mu=mu, eta=eta, bias=bias, **kwargs)]
    with the defaults of its signature. *)
Definition call_linear (xs xt : mat) (mu eta : R) (bias : bool) (kw : kwargs)
    : prog (option Joint.mapping_ret) :=
  Joint.joint_OT_mapping_linear xs xt mu eta bias
    (given 100%Z (kw_numItermax kw)) (given 10%Z (kw_numInnerItermax kw))
    (given (1 / 1000000)%R (kw_stopInnerThr kw))
    (given (1 / 100000)%R (kw_stopThr kw))
    (given false (kw_log kw)).

(** [joint_OT_mapping_kernel(xs, xt, mu=mu, eta=eta, bias=bias, **kwargs)]:
    [kerneltype] and [sigma] are left to their defaults. *)
Definition call_kernel (xs xt : mat) (mu eta : R) (bias : bool) (kw : kwargs)
    : prog (option Joint.mapping_ret) :=
  Joint.joint_OT_mapping_kernel xs xt mu eta Names.gaussian 1 bias
    (given 100%Z (kw_numItermax kw)) (given 10%Z (kw_numInnerItermax kw))
    (given (1 / 1000000)%R (kw_stopInnerThr kw))
    (given (1 / 100000)%R (kw_stopThr kw))
    (given false (kw_log kw)).

(** What a method call leaves: the calls, the object, the exception if any. *)
Definition effect (O : Type) : Type := (list event * (O * result unit))%type.

(** [self.G, self.L = <estimator>] and [self.computed = True], from the
    object [o1] that the assignments before the call have made. A triple with
    a log cannot be unpacked into two names. [None] stands for a run of the
    estimator cut by its fuel. *)
Definition unpack {O : Type} (h : oracle) (est : prog (option Joint.mapping_ret))
    (o1 : O) (fitted : mat -> mat -> O) : option (effect O) :=
  match run h est with
  | (t, Ok (Some (Joint.GL G L))) => Some (t, (fitted G L, Ok tt))
  | (t, Ok (Some (Joint.GLLog _ _ _))) => Some (t, (o1, Err ValueError))
  | (t, Ok None) => None
  | (t, Err e) => Some (t, (o1, Err e))
  end.

Module Linear.

(** An object of [OTDA_mapping_linear]: before any successful [fit], where
    [xs], [xt] are arrays once a [fit] has started and [ws], [wt] exist from
    then on; and after one. *)
Inductive obj : Type :=
| Unfitted (xs xt : option mat) (bias : bool) (ws wt : option vec)
| Fitted (xs xt G L : mat) (bias : bool) (ws wt : vec).

(** [__init__]. *)
Definition init : obj := Unfitted None None false None None.

Definition fit (h : oracle) (o : obj) (xs xt : mat) (mu eta : R) (bias : bool)
    (kw : kwargs) : option (effect obj) :=
  let ws := Joint.unif (nrows xs) in
  let wt := Joint.unif (nrows xt) in
  let o1 := match o with
            | Unfitted _ _ _ _ _ => Unfitted (Some xs) (Some xt) bias (Some ws) (Some wt)
            | Fitted _ _ G L _ _ _ => Fitted xs xt G L bias ws wt
            end in
  unpack h (call_linear xs xt mu eta bias kw) o1
         (fun G L => Fitted xs xt G L bias ws wt).

(** [predict]: Python's [None] before any successful [fit]. *)
Definition predict (o : obj) (x : mat) : option mat :=
  match o with
  | Unfitted _ _ _ _ _ => None
  | Fitted _ _ _ L bias _ _ =>
      let x := if bias then hstack_ones x else x in
      Some (mdot x L)
  end.

End Linear.

Module Kernel.

(** An object of [OTDA_mapping_kernel]; [kernel], [sigma] and [kwargs] exist
    once a [fit] has started. *)
Inductive obj : Type :=
| Unfitted (xs xt : option mat) (bias : bool) (ws wt : option vec)
    (kernel : option String.string) (sigma : option R) (kw : option kwargs)
| Fitted (xs xt G L : mat) (bias : bool) (ws wt : vec)
    (kernel : String.string) (sigma : R) (kw : kwargs).

Definition init : obj := Unfitted None None false None None None None None.

Definition fit (h : oracle) (o : obj) (xs xt : mat) (mu eta : R) (bias : bool)
    (kerneltype : String.string) (sigma : R) (kw : kwargs)
    : option (effect obj) :=
  let ws := Joint.unif (nrows xs) in
  let wt := Joint.unif (nrows xt) in
  let o1 := match o with
            | Unfitted _ _ _ _ _ _ _ _ =>
                Unfitted (Some xs) (Some xt) bias (Some ws) (Some wt)
                  (Some kerneltype) (Some sigma) (Some kw)
            | Fitted _ _ G L _ _ _ _ _ _ =>
                Fitted xs xt G L bias ws wt kerneltype sigma kw
            end in
  unpack h (call_kernel xs xt mu eta bias kw) o1
         (fun G L => Fitted xs xt G L bias ws wt kerneltype sigma kw).

(** [predict]: the kernel of the new samples against [self.xs], with the
    method and the width kept by [fit] (the keyword arguments kept by [fit]
    are passed on too and are not part of the event). *)
Definition predict (o : obj) (x : mat) : prog (option mat) :=
  match o with
  | Unfitted _ _ _ _ _ _ _ _ => Ret None
  | Fitted xs _ _ L bias _ _ kernel sigma _ =>
      K <- call (Kernel x xs kernel sigma) ;;
      let K := if bias then hstack_ones K else K in
      Ret (Some (mdot K L))
  end.

End Kernel.

End Mapping.

(** An outcome of an estimator that is not cut by the fuel and carries a log
    exactly when one was asked for. *)
Definition returns_as_asked (log : bool) (r : result (option Joint.mapping_ret)) : Prop :=
  match r with
  | Ok None => False
  | Ok (Some (Joint.GL _ _)) => log = false
  | Ok (Some (Joint.GLLog _ _ _)) => log = true
  | Err _ => True
  end.


(** ** The transport classes [BaseTransport] and [EMDTransport]

    An attribute that no assignment has made yet is [None], and reading it
    raises [AttributeError]. [dist] is called with the metric of the object,
    so the collaborators of these classes are an [oracle] and a [dist] that
    takes the metric. *)

Module Transport.

Inductive pyexn : Type :=
| Builtin (e : exn)
| AttributeError.

Inductive pyres (A : Type) : Type :=
| POk (a : A)
| PErr (e : pyexn).
Arguments POk {A} a.
Arguments PErr {A} e.

Definition attr {A : Type} (o : option A) : pyres A :=
  match o with
  | Some a => POk a
  | None => PErr AttributeError
  end.

(** [x == y] on scalars: false as soon as one side is NaN. *)
Definition feq (x y : fl) : bool :=
  match x, y with
  | Fin a, Fin b => if Req_dec_T a b then true else false
  | Inf s, Inf t => Bool.eqb s t
  | _, _ => false
  end.

Definition is_finite (x : fl) : bool :=
  match x with
  | Fin _ => true
  | _ => false
  end.

Fixpoint vec_equal (u v : vec) : bool :=
  match u, v with
  | [], [] => true
  | x :: u', y :: v' => feq x y && vec_equal u' v'
  | _, _ => false
  end.

(** [np.array_equal]: the same shape and [==] at every entry. *)
Fixpoint array_equal (A B : mat) : bool :=
  match A, B with
  | [], [] => true
  | r :: A', s :: B' => vec_equal r s && array_equal A' B'
  | _, _ => false
  end.

(** The larger of two scalars as [np.max] takes it: NaN wins. *)
Definition fmax (x y : fl) : fl :=
  match x, y with
  | NaN, _ => NaN
  | _, NaN => NaN
  | _, _ => if flt x y then y else x
  end.

(** [np.max] of a whole array; an array without entry has no maximum. *)
Definition np_max (C : mat) : result fl :=
  match concat C with
  | [] => Err ValueError
  | x :: l => Ok (fold_left fmax l x)
  end.

(** [np.where] of a condition on the labels. *)
Fixpoint where_if_from (i : nat) (p : Z -> bool) (labels : list Z) : list nat :=
  match labels with
  | [] => []
  | x :: t =>
      if p x then i :: where_if_from (S i) p t else where_if_from (S i) p t
  end.

Definition where_if (p : Z -> bool) (labels : list Z) : list nat :=
  where_if_from 0 p labels.

(** [np.where((ys != c) & (ys != -1))]. *)
Definition idx_s (ys : list Z) (c : Z) : list nat :=
  where_if (fun y => negb (y =? c)%Z && negb (y =? -1)%Z) ys.

(** [C[rs, j] = x]; nothing is written when an index is out of range. *)
Definition set_col_rows (C : mat) (rs : list nat) (j : nat) (x : fl) : result mat :=
  if (j <? ncols C) && forallb (fun r => r <? nrows C) rs
  then Ok (fold_left (fun C' r => L1l2.set_entry C' r j x) rs C)
  else Err IndexError.

(** [for j in idx_t[0]: self.Cost[idx_s[0], j] = self.limit_max]; the array
    as the loop leaves it, and the exception if it was left by one. *)
Fixpoint mask_cols (C : mat) (rs js : list nat) (x : fl) : mat * result unit :=
  match js with
  | [] => (C, Ok tt)
  | j :: js' =>
      match set_col_rows C rs j x with
      | Ok C' => mask_cols C' rs js' x
      | Err e => (C, Err e)
      end
  end.

(** [for c in classes: ...]. *)
Fixpoint mask_classes (ys yt : list Z) (C : mat) (cs : list Z) (x : fl)
    : mat * result unit :=
  match cs with
  | [] => (C, Ok tt)
  | c :: cs' =>
      match mask_cols C (idx_s ys c) (where_eq yt c) x with
      | (C', Ok _) => mask_classes ys yt C' cs' x
      | (C', Err e) => (C', Err e)
      end
  end.

(** Row [i] of [C] divided by [s[i]]: [C / s[:, None]]. *)
Fixpoint div_rows (C : mat) (s : vec) : mat :=
  match C, s with
  | r :: C', si :: s' => map (fun g => fdiv g si) r :: div_rows C' s'
  | _, _ => []
  end.

(** [transp[~ np.isfinite(transp)] = 0]. *)
Definition zero_fill (A : mat) : mat :=
  map (map (fun x => if is_finite x then x else zero)) A.

(** The weights of the barycentric mapping, from the coupling and its sums
    along one axis. *)
Definition bary (C : mat) (s : vec) : mat := zero_fill (div_rows C s).

Record obj : Type := Obj {
  limit_max : fl;
  metric : String.string;
  distribution_estimation : mat -> vec;
  Cost : option mat;
  mu_s : option vec;
  mu_t : option vec;
  Xs : option mat;
  Xt : option mat;
  Coupling_ : option mat
}.

Definition set_Cost (o : obj) (C : mat) : obj :=
  Obj (limit_max o) (metric o) (distribution_estimation o) (Some C)
      (mu_s o) (mu_t o) (Xs o) (Xt o) (Coupling_ o).

Definition set_limit_max (o : obj) (x : fl) : obj :=
  Obj x (metric o) (distribution_estimation o) (Cost o)
      (mu_s o) (mu_t o) (Xs o) (Xt o) (Coupling_ o).

Definition set_samples (o : obj) (ms mt : vec) (xs xt : mat) : obj :=
  Obj (limit_max o) (metric o) (distribution_estimation o) (Cost o)
      (Some ms) (Some mt) (Some xs) (Some xt) (Coupling_ o).

Definition set_Coupling (o : obj) (G : mat) : obj :=
  Obj (limit_max o) (metric o) (distribution_estimation o) (Cost o)
      (mu_s o) (mu_t o) (Xs o) (Xt o) (Some G).

(** [EMDTransport.__init__] with the uniform estimation of the marginals. *)
Definition emd_init (metric : String.string) (limit_max : fl) : obj :=
  Obj limit_max metric (fun X => Joint.unif (nrows X)) None None None None None None.

Record env : Type := Env {
  core : oracle;
  on_dist : mat -> mat -> String.string -> result mat
}.

Inductive tevent : Type :=
| EvDist (x1 x2 : mat) (metric : String.string)
| EvCore (ev : event).

Definition effect (A : Type) : Type := (list tevent * (obj * pyres A))%type.

(** The semi-supervised part of [BaseTransport.fit]: the scaling of
    [limit_max] and the masking of the cost, on the object that holds the
    cost [C]. *)
Definition mask_cost (o : obj) (C : mat) (ys yt : list Z) : obj * pyres unit :=
  let scaled :=
    if negb (feq (limit_max o) (Inf false))
    then m <-? np_max C ;; Ok (fmul (limit_max o) m)
    else Ok (limit_max o) in
  match scaled with
  | Err e => (o, PErr (Builtin e))
  | Ok lm =>
      let o := set_limit_max o lm in
      match mask_classes ys yt C (unique ys) lm with
      | (C', Ok _) => (set_Cost o C', POk tt)
      | (C', Err e) => (set_Cost o C', PErr (Builtin e))
      end
  end.

(** [BaseTransport.fit]. *)
Definition fit (e : env) (o : obj) (Xs : mat) (ys : option (list Z)) (Xt : mat)
    (yt : option (list Z)) : effect unit :=
  let ev := EvDist Xs Xt (metric o) in
  match on_dist e Xs Xt (metric o) with
  | Err x => ([ev], (o, PErr (Builtin x)))
  | Ok C =>
      let o := set_Cost o C in
      let masked :=
        match ys, yt with
        | Some ys, Some yt => mask_cost o C ys yt
        | _, _ => (o, POk tt)
        end in
      match masked with
      | (o, PErr x) => ([ev], (o, PErr x))
      | (o, POk _) =>
          let ms := distribution_estimation o Xs in
          let mt := distribution_estimation o Xt in
          ([ev], (set_samples o ms mt Xs Xt, POk tt))
      end
  end.

(** [EMDTransport.fit]: the fit of the base class, then the coupling. *)
Definition emd_fit (e : env) (o : obj) (Xs : mat) (ys : option (list Z)) (Xt : mat)
    (yt : option (list Z)) : effect unit :=
  match fit e o Xs ys Xt yt with
  | (t, (o, PErr x)) => (t, (o, PErr x))
  | (t, (o, POk _)) =>
      match mu_s o, mu_t o, Cost o with
      | Some a, Some b, Some M =>
          let ev := EvCore (EvCall (Emd a b M)) in
          match on_call (core e) (Emd a b M) with
          | Ok G => ((t ++ [ev])%list, (set_Coupling o G, POk tt))
          | Err x => ((t ++ [ev])%list, (o, PErr (Builtin x)))
          end
      | _, _, _ => (t, (o, PErr AttributeError))
      end
  end.

(** [transform]. *)
Definition transform (o : obj) (Xs' : mat) : pyres mat :=
  match attr (Xs o) with
  | PErr x => PErr x
  | POk X =>
      if array_equal X Xs' then
        match attr (Coupling_ o) with
        | PErr x => PErr x
        | POk C =>
            let transp := bary C (map fsum C) in
            match attr (Xt o) with
            | PErr x => PErr x
            | POk Xt => POk (mdot transp Xt)
            end
        end
      else POk Xs'
  end.

(** [inverse_transform]. *)
Definition inverse_transform (o : obj) (Xt' : mat) : pyres mat :=
  match attr (Xt o) with
  | PErr x => PErr x
  | POk X =>
      if array_equal X Xt' then
        match attr (Coupling_ o) with
        | PErr x => PErr x
        | POk C =>
            let transp_ := bary (transpose C) (sum_axis0 (ncols C) C) in
            match attr (Xs o) with
            | PErr x => PErr x
            | POk Xs => POk (mdot transp_ Xs)
            end
        end
      else POk Xt'
  end.

(** [fit_transform] on an [EMDTransport]. *)
Definition emd_fit_transform (e : env) (o : obj) (Xs : mat) (ys : option (list Z))
    (Xt : mat) (yt : option (list Z)) : effect mat :=
  match emd_fit e o Xs ys Xt yt with
  | (t, (o, PErr x)) => (t, (o, PErr x))
  | (t, (o, POk _)) => (t, (o, transform o Xs))
  end.

(** The object seen from the target side: the samples exchanged and the
    coupling transposed. *)
Definition swap (o : obj) : obj :=
  Obj (limit_max o) (metric o) (distribution_estimation o) (Cost o)
      (mu_t o) (mu_s o) (Xt o) (Xs o) (option_map transpose (Coupling_ o)).

(** The pairs (source sample, target sample) that the semi-supervised fit
    prices at [limit_max]: both carry a label, the source one is not [-1],
    the two labels differ, and the target label is one of the source labels. *)
Definition masked (ys yt : list Z) (r j : nat) : bool :=
  match nth_error ys r, nth_error yt j with
  | Some a, Some b =>
      negb (a =? b)%Z && negb (a =? -1)%Z && existsb (Z.eqb b) ys
  | _, _ => false
  end.

End Transport.

(** Two samples on each side, given in the same order, with a [dist] that
    answers with the cost [Ex.M] and an [emd] that answers with [Ex.T]. *)
Module TransportEx.

Definition X : mat := [[Fin 0]; [Fin 1]].

Definition e : Transport.env :=
  Transport.Env Ex.h (fun _ _ _ => Ok Ex.M).

Definition o : Transport.obj :=
  Transport.emd_init String.EmptyString (Fin 10).

(** An object fitted before, and collaborators whose [emd] fails. *)
Definition fitted : Transport.obj :=
  Transport.Obj (Fin 10) String.EmptyString (fun X => Joint.unif (nrows X))
    (Some Ex.M) (Some (Joint.unif 2)) (Some (Joint.unif 2))
    (Some [[Fin 5]; [Fin 6]]) (Some [[Fin 7]; [Fin 8]]) (Some Ex.T).

Definition e_fail : Transport.env :=
  Transport.Env
    (Oracle (fun _ => Err (CollaboratorError 0)) (fun _ => Err (CollaboratorError 0)))
    (fun _ _ _ => Ok Ex.M).

End TransportEx.

(** ** [SinkhornLpl1Transport]

    The fit of the base class, then [sinkhorn_lpl1_mm] on the marginals and
    the cost it stored, with the source labels given to [fit]. The model
    covers the calls that give source labels: without them the solver is
    handed [None] for [labels_a]. A coupling that comes with a log is not an
    array, and [fit] answers [None] for it here. *)

Module SinkhornLpl1Transport.

Record params : Type := Params {
  reg_e : R;
  reg_cl : R;
  max_iter : Z;
  max_inner_iter : Z;
  tol : R;
  verbose : bool;
  log : bool
}.

Definition fit (e : Transport.env) (p : params) (o : Transport.obj) (Xs : mat)
    (ys : list Z) (Xt : mat) (yt : option (list Z))
    : option (Transport.effect unit) :=
  match Transport.fit e o Xs (Some ys) Xt yt with
  | (t, (o, Transport.PErr x)) => Some (t, (o, Transport.PErr x))
  | (t, (o, Transport.POk _)) =>
      match Transport.mu_s o, Transport.mu_t o, Transport.Cost o with
      | Some a, Some b, Some M =>
          let (tr, r) :=
            run (Transport.core e)
              (Lpl1.sinkhorn_lpl1_mm a ys b M (reg_e p) (reg_cl p)
                 (max_inner_iter p) (tol p) (max_iter p) (verbose p) (log p)) in
          let t' := (t ++ map Transport.EvCore tr)%list in
          match r with
          | Ok (JustG G) =>
              Some (t', (Transport.set_Coupling o G, Transport.POk tt))
          | Ok (GWithLog _ _) => None
          | Err x => Some (t', (o, Transport.PErr (Transport.Builtin x)))
          end
      | _, _, _ => Some (t, (o, Transport.PErr Transport.AttributeError))
      end
  end.

End SinkhornLpl1Transport.

Module SinkhornLpl1TransportEx.

(** Ten rounds asked for, and a log. *)
Definition p : SinkhornLpl1Transport.params :=
  SinkhornLpl1Transport.Params 1 (1 / 10) 10 200 (1 / 100000000) false true.

End SinkhornLpl1TransportEx.

(** ** The class [OTDA]

    [__init__] sets [xs], [xt] and [G] to the integer 0 and leaves [ws], [wt]
    and [M] unset; reading an attribute of the integer, or an unset
    attribute, raises [AttributeError], so both are [None] in an object that
    no fit has completed. [computed] is the constructor of the object: it is
    set once [G] holds a coupling, and nothing unsets it. *)

Module NormNames.
Import String.
Definition median : string := "median"%string.
Definition max : string := "max"%string.
Definition log : string := "log"%string.
Definition loglog : string := "loglog"%string.
End NormNames.

Module OTDA.

(** [np.log] of a scalar. *)
Definition np_log (x : fl) : fl :=
  match x with
  | Fin a =>
      if Rlt_dec 0 a then Fin (ln a)
      else if Req_dec_T a 0 then Inf true else NaN
  | Inf false => Inf false
  | Inf true => NaN
  | NaN => NaN
  end.

Definition is_nan (x : fl) : bool :=
  match x with
  | NaN => true
  | _ => false
  end.

Fixpoint insert (x : fl) (l : vec) : vec :=
  match l with
  | [] => [x]
  | y :: l' => if flt y x then y :: insert x l' else x :: l
  end.

Definition sort (l : vec) : vec := fold_right insert [] l.

(** [np.median] of a whole array: NaN if the array is empty or holds one,
    else the middle of the sorted entries, or the mean of the two middle
    ones. *)
Definition np_median (M : mat) : fl :=
  let l := concat M in
  if existsb is_nan l then NaN
  else
    let s := sort l in
    let n := length s in
    if n =? 0 then NaN
    else if Nat.odd n then nth (n / 2) s NaN
    else fdiv (fadd (nth (n / 2 - 1) s NaN) (nth (n / 2) s NaN)) (Fin 2).

Definition div_all (M : mat) (d : fl) : mat := map (map (fun x => fdiv x d)) M.

(** [normalizeM]: the cost it leaves in [self.M]; only [np.max] can raise. *)
Definition normalizeM (M : mat) (norm : option String.string) : result mat :=
  match norm with
  | None => Ok M
  | Some s =>
      if String.eqb s NormNames.median then Ok (div_all M (np_median M))
      else if String.eqb s NormNames.max then
        m <-? Transport.np_max M ;; Ok (div_all M m)
      else if String.eqb s NormNames.log then
        Ok (map (map (fun x => np_log (fadd one x))) M)
      else if String.eqb s NormNames.loglog then
        Ok (map (map (fun x => np_log (fadd one (np_log (fadd one x))))) M)
      else Ok M
  end.

Inductive obj : Type :=
| Unfitted (metric : String.string) (xs xt : option mat) (ws wt : option vec)
    (M : option mat)
| Fitted (metric : String.string) (xs xt : mat) (ws wt : vec) (M G : mat).

Definition init (metric : String.string) : obj :=
  Unfitted metric None None None None None.

Definition metric (o : obj) : String.string :=
  match o with
  | Unfitted m _ _ _ _ _ => m
  | Fitted m _ _ _ _ _ _ => m
  end.

(** The first four assignments of [fit]. *)
Definition set_samples (o : obj) (xs xt : mat) (ws wt : vec) : obj :=
  match o with
  | Unfitted m _ _ _ _ M => Unfitted m (Some xs) (Some xt) (Some ws) (Some wt) M
  | Fitted m _ _ _ _ M G => Fitted m xs xt ws wt M G
  end.

Definition set_M (o : obj) (M : mat) : obj :=
  match o with
  | Unfitted m xs xt ws wt _ => Unfitted m xs xt ws wt (Some M)
  | Fitted m xs xt ws wt _ G => Fitted m xs xt ws wt M G
  end.

(** [OTDA.fit]: the calls made, the object as the call leaves it, and the
    exception if it raised one. *)
Definition fit (e : Transport.env) (o : obj) (xs xt : mat) (ws wt : option vec)
    (norm : option String.string)
    : list Transport.tevent * (obj * result unit) :=
  let wt := match wt with None => Joint.unif (nrows xt) | Some w => w end in
  let ws := match ws with None => Joint.unif (nrows xs) | Some w => w end in
  let o := set_samples o xs xt ws wt in
  let ev := Transport.EvDist xs xt (metric o) in
  match Transport.on_dist e xs xt (metric o) with
  | Err x => ([ev], (o, Err x))
  | Ok C =>
      let o := set_M o C in
      match normalizeM C norm with
      | Err x => ([ev], (o, Err x))
      | Ok C' =>
          let o := set_M o C' in
          let ev' := Transport.EvCore (EvCall (Emd ws wt C')) in
          match on_call (Transport.core e) (Emd ws wt C') with
          | Err x => ([ev; ev'], (o, Err x))
          | Ok G => ([ev; ev'], (Fitted (metric o) xs xt ws wt C' G, Ok tt))
          end
      end
  end.

(** [w.reshape((n, 1))]. *)
Definition reshape_col (w : vec) (n : nat) : Transport.pyres vec :=
  if length w =? n then Transport.POk w
  else Transport.PErr (Transport.Builtin ValueError).

(** [interp]; [None] is the value returned with the warning that the model
    is not fitted. *)
Definition interp (o : obj) (direction : Z) : Transport.pyres (option mat) :=
  match o with
  | Unfitted _ xs xt ws wt _ =>
      if (0 <? direction)%Z then
        match Transport.attr ws with
        | Transport.PErr x => Transport.PErr x
        | Transport.POk ws =>
            match Transport.attr xs with
            | Transport.PErr x => Transport.PErr x
            | Transport.POk xs =>
                match reshape_col ws (nrows xs) with
                | Transport.PErr x => Transport.PErr x
                | Transport.POk _ => Transport.POk None
                end
            end
        end
      else Transport.PErr Transport.AttributeError
  | Fitted _ xs xt ws wt _ G =>
      if (0 <? direction)%Z then
        match reshape_col ws (nrows xs) with
        | Transport.PErr x => Transport.PErr x
        | Transport.POk w => Transport.POk (Some (mdot (Transport.div_rows G w) xt))
        end
      else
        match reshape_col wt (nrows xt) with
        | Transport.PErr x => Transport.PErr x
        | Transport.POk w =>
            Transport.POk (Some (mdot (Transport.div_rows (transpose G) w) xs))
        end
  end.

End OTDA.

Module OTDAEx.

(** Collaborators whose [dist] fails. *)
Definition e_nodist : Transport.env :=
  Transport.Env Ex.h (fun _ _ _ => Err (CollaboratorError 1)).

End OTDAEx.
(** * Properties *)

Unset Implicit Arguments.

(** ** Runs *)

Lemma run_bind {A B : Type} (h : oracle) (p : prog A) (f : A -> prog B) :
  run h (bind p f) =
  match run h p with
  | (t, Ok a) => let (t', r) := run h (f a) in ((t ++ t')%list, r)
  | (t, Err e) => (t, Err e)
  end.
Proof.
  induction p as [a | e | c k IH | g k IH]; simpl.
  - destruct (run h (f a)); reflexivity.
  - reflexivity.
  - destruct (on_call h c) as [G | e]; [ | reflexivity ].
    rewrite IH. destruct (run h (k G)) as [t [a | e]].
    + destruct (run h (f a)); reflexivity.
    + reflexivity.
  - destruct (on_gcg h g) as [v | e]; [ | reflexivity ].
    rewrite IH. destruct (run h (k v)) as [t [a | e]].
    + destruct (run h (f a)); reflexivity.
    + reflexivity.
Qed.

Lemma run_call_ok (h : oracle) (c : mcall) (G : mat) :
  on_call h c = Ok G -> run h (call c) = ([EvCall c], Ok G).
Proof. intros E. simpl. rewrite E. reflexivity. Qed.

Lemma run_lift {A : Type} (h : oracle) (r : result A) :
  run h (lift r) = ([], r).
Proof. destruct r; reflexivity. Qed.

(** ** Labels and indices *)

Lemma In_insert_unique (x y : Z) (l : list Z) :
  In y (insert_unique x l) <-> y = x \/ In y l.
Proof.
  induction l as [ | z l IH]; simpl.
  - intuition.
  - destruct (Z.ltb_spec x z).
    + simpl. intuition.
    + destruct (Z.eqb_spec x z).
      * subst. simpl. intuition.
      * simpl. rewrite IH. intuition.
Qed.

Lemma In_unique (x : Z) (l : list Z) : In x (unique l) <-> In x l.
Proof.
  induction l as [ | y l IH]; simpl.
  - reflexivity.
  - unfold unique in *. simpl. rewrite In_insert_unique, IH. intuition.
Qed.

Lemma In_where_from (i k : nat) (labels : list Z) (c : Z) :
  In k (where_from i labels c) <->
  i <= k /\ nth_error labels (k - i) = Some c.
Proof.
  revert i. induction labels as [ | x t IH]; intros i; simpl.
  - split; [ tauto | ]. intros [_ H]. destruct (k - i); discriminate.
  - assert (Hstep : (i <= k /\ nth_error (x :: t) (k - i) = Some c) <->
                    ((k = i /\ x = c) \/ (S i <= k /\ nth_error t (k - S i) = Some c))).
    { destruct (Nat.eq_dec k i) as [-> | Hne].
      - rewrite Nat.sub_diag. simpl. split.
        + intros [_ H]. left. split; congruence.
        + intros [[_ ->] | [H _]]; [ auto | lia ].
      - split.
        + intros [Hle H]. right. split; [ lia | ].
          replace (k - i) with (S (k - S i)) in H by lia. exact H.
        + intros [[H _] | [Hle H]]; [ contradiction | ].
          split; [ lia | ]. replace (k - i) with (S (k - S i)) by lia. exact H. }
    rewrite Hstep. destruct (Z.eqb_spec x c) as [-> | Hne].
    + simpl. rewrite IH. intuition.
    + rewrite IH. intuition.
Qed.

Lemma In_where_eq (k : nat) (labels : list Z) (c : Z) :
  In k (where_eq labels c) <-> nth_error labels k = Some c.
Proof.
  unfold where_eq. rewrite In_where_from, Nat.sub_0_r. intuition. lia.
Qed.

Lemma where_eq_lt (k : nat) (labels : list Z) (c : Z) :
  In k (where_eq labels c) -> k < length labels.
Proof.
  rewrite In_where_eq. intros H. apply nth_error_Some. congruence.
Qed.

Lemma length_set_nth {A : Type} (i : nat) (x : A) (l : list A) :
  length (set_nth i x l) = length l.
Proof.
  revert i. induction l as [ | y t IH]; intros [ | i]; simpl; auto.
Qed.

Lemma nth_set_nth {A : Type} (i j : nat) (x d : A) (l : list A) :
  i < length l ->
  nth j (set_nth i x l) d = if j =? i then x else nth j l d.
Proof.
  revert i j. induction l as [ | y t IH]; intros i j Hi; simpl in Hi.
  - lia.
  - destruct i as [ | i]; destruct j as [ | j]; simpl; auto.
    apply IH. lia.
Qed.

Lemma take_rows_ok (A : mat) (idx : list nat) :
  (forall i, In i idx -> i < length A) ->
  take_rows A idx = Ok (map (fun i => nth i A []) idx).
Proof.
  induction idx as [ | i idx IH]; intros H; simpl.
  - reflexivity.
  - destruct (nth_error A i) as [r | ] eqn:E.
    + rewrite IH by (intros; apply H; simpl; auto). simpl.
      rewrite (nth_error_nth _ _ _ E). reflexivity.
    + apply nth_error_None in E. specialize (H i (or_introl eq_refl)). lia.
Qed.

Lemma take_rows_err (A : mat) (idx : list nat) (i : nat) :
  In i idx -> length A <= i -> take_rows A idx = Err IndexError.
Proof.
  induction idx as [ | k idx IH]; intros Hin Hle; simpl.
  - destruct Hin.
  - destruct (nth_error A k) as [r | ] eqn:E; [ | reflexivity ].
    destruct Hin as [-> | Hin].
    + apply nth_error_None in Hle. congruence.
    + rewrite (IH Hin Hle). reflexivity.
Qed.

(** ** Arrays *)

Lemma map_nth_seq_id {A : Type} (l : list A) (d : A) :
  map (fun j => nth j l d) (seq 0 (length l)) = l.
Proof.
  apply nth_ext with (d := d) (d' := d).
  - rewrite length_map, length_seq. reflexivity.
  - intros n Hn. rewrite length_map, length_seq in Hn.
    rewrite (nth_indep _ d (nth 0 l d)) by (rewrite length_map, length_seq; exact Hn).
    rewrite (map_nth (fun j => nth j l d) (seq 0 (length l)) 0 n).
    rewrite seq_nth by exact Hn. reflexivity.
Qed.

Lemma nth_map_seq {A : Type} (g : nat -> A) (n r : nat) (d : A) :
  r < n -> nth r (map g (seq 0 n)) d = g r.
Proof.
  intros Hr.
  rewrite (nth_indep _ d (g 0)) by (rewrite length_map, length_seq; exact Hr).
  rewrite (map_nth g (seq 0 n) 0 r), seq_nth by exact Hr. reflexivity.
Qed.

Lemma repeat_map_seq {A : Type} (x : A) (n : nat) :
  repeat x n = map (fun _ => x) (seq 0 n).
Proof.
  apply nth_ext with (d := x) (d' := x).
  - rewrite repeat_length, length_map, length_seq. reflexivity.
  - intros k Hk. rewrite repeat_length in Hk.
    rewrite nth_repeat, nth_map_seq by exact Hk. reflexivity.
Qed.

Lemma length_zip_with (f : fl -> fl -> fl) (u v : vec) :
  length (zip_with f u v) = Nat.min (length u) (length v).
Proof.
  revert v. induction u as [ | x u IH]; intros [ | y v]; simpl; auto.
Qed.

Lemma nth_zip_with (f : fl -> fl -> fl) (u v : vec) (j : nat) (d : fl) :
  j < length u -> j < length v ->
  nth j (zip_with f u v) d = f (nth j u d) (nth j v d).
Proof.
  revert v j. induction u as [ | x u IH]; intros [ | y v] [ | j]; simpl;
    intros Hu Hv; try lia; auto.
  apply IH; lia.
Qed.

Lemma fold_vadd_columns (c : nat) (rows : mat) (acc : vec) :
  length acc = c -> wf c rows ->
  fold_left vadd rows acc =
  map (fun j => fold_left fadd (map (fun r => nth j r NaN) rows) (nth j acc NaN))
      (seq 0 c).
Proof.
  revert acc. induction rows as [ | r rows IH]; intros acc Hacc Hwf; simpl.
  - subst c. symmetry. apply map_nth_seq_id.
  - inversion Hwf as [ | ? ? Hr Hrows]; subst.
    rewrite IH; [ | unfold vadd; rewrite length_zip_with; lia | exact Hrows ].
    apply map_ext_in. intros j Hj. apply in_seq in Hj.
    unfold vadd. rewrite nth_zip_with by lia. reflexivity.
Qed.

Lemma sum_axis0_columns (c : nat) (rows : mat) :
  wf c rows ->
  sum_axis0 c rows = map (fun j => fsum (map (fun r => nth j r NaN) rows)) (seq 0 c).
Proof.
  intros Hwf. unfold sum_axis0.
  rewrite (@fold_vadd_columns c) by (auto using repeat_length).
  apply map_ext_in. intros j Hj. apply in_seq in Hj.
  unfold fsum. rewrite nth_repeat_lt by lia. reflexivity.
Qed.

Lemma wf_nth (c : nat) (A : mat) (i : nat) :
  wf c A -> i < length A -> length (nth i A []) = c.
Proof.
  intros Hwf Hi. unfold wf in Hwf. rewrite Forall_forall in Hwf.
  apply Hwf. apply nth_In. exact Hi.
Qed.

Lemma wf_ncols (c : nat) (A : mat) : wf c A -> A <> [] -> ncols A = c.
Proof.
  intros Hwf Hne. destruct A as [ | r A]; [ congruence | ].
  inversion Hwf; subst. reflexivity.
Qed.

Lemma set_rows_fold (row : vec) (idx : list nat) (W : mat) :
  (forall i, In i idx -> i < length W) ->
  fold_left (fun W' i => set_nth i row W') idx W
  = map (fun r => if existsb (Nat.eqb r) idx then row else nth r W [])
        (seq 0 (length W)).
Proof.
  revert W. induction idx as [ | i idx IH]; intros W H; simpl.
  - rewrite map_nth_seq_id. reflexivity.
  - assert (Hi : i < length W) by (apply H; simpl; auto).
    rewrite IH.
    + rewrite length_set_nth. apply map_ext_in. intros r Hr.
      rewrite nth_set_nth by exact Hi.
      destruct (r =? i); simpl; [ | reflexivity ].
      destruct (existsb (Nat.eqb r) idx); reflexivity.
    + intros k Hk. rewrite length_set_nth. apply H. simpl. auto.
Qed.

Lemma broadcast_row_same (c : nat) (v : vec) :
  length v = c -> broadcast_row c v = Ok v.
Proof.
  intros E. unfold broadcast_row. rewrite E, Nat.eqb_refl. reflexivity.
Qed.

Lemma assign_rows_ok (W : mat) (idx : list nat) (v : vec) :
  (forall i, In i idx -> i < length W) ->
  length v = ncols W ->
  assign_rows W idx v =
  Ok (map (fun r => if existsb (Nat.eqb r) idx then v else nth r W [])
          (seq 0 (length W))).
Proof.
  intros Hin Hlen. unfold assign_rows.
  assert (Hall : forallb (fun i => i <? length W) idx = true).
  { apply forallb_forall. intros i Hi. apply Nat.ltb_lt. apply Hin. exact Hi. }
  rewrite Hall, (broadcast_row_same _ _ Hlen). cbv beta iota delta [rbind].
  rewrite set_rows_fold by exact Hin. reflexivity.
Qed.

Lemma existsb_eqb_In (r : nat) (idx : list nat) :
  existsb (Nat.eqb r) idx = true <-> In r idx.
Proof.
  rewrite existsb_exists. split.
  - intros [x [Hx E]]. apply Nat.eqb_eq in E. subst. exact Hx.
  - intros H. exists r. split; [ exact H | apply Nat.eqb_refl ].
Qed.

(** ** The weights of [sinkhorn_lpl1_mm] *)

Section UpdateW.

Variables (labels : list Z) (M transp : mat).
Hypothesis Hlab : length labels = nrows M.
Hypothesis Hrows : nrows transp = nrows M.
Hypothesis Hwf : wf (ncols M) transp.

Let lab (r : nat) : Z := nth r labels 0%Z.
Let row_of (c : Z) : vec :=
  map (fun j => Words.majorizer (Words.class_mass labels transp c j))
      (seq 0 (ncols M)).
Let g (done : list Z) (r : nat) : vec :=
  if existsb (Z.eqb (lab r)) done then row_of (lab r) else repeat one (ncols M).

Lemma length_g (done : list Z) (r : nat) : length (g done r) = ncols M.
Proof.
  unfold g, row_of. destruct (existsb _ _).
  - rewrite length_map, length_seq. reflexivity.
  - apply repeat_length.
Qed.

Lemma In_where_eq_lab (r : nat) (c : Z) :
  In r (where_eq labels c) <-> r < nrows M /\ lab r = c.
Proof.
  rewrite In_where_eq. unfold lab. rewrite <- Hlab. split.
  - intros E. split.
    + apply nth_error_Some. congruence.
    + apply nth_error_nth. exact E.
  - intros [Hr E]. rewrite <- E. apply nth_error_nth'. exact Hr.
Qed.

Lemma class_majs (c : Z) :
  where_eq labels c <> [] ->
  Lpl1.majorize
    (sum_axis0 (ncols transp) (map (fun i => nth i transp []) (where_eq labels c)))
  = row_of c.
Proof.
  intros Hne.
  assert (Hnt : ncols transp = ncols M).
  { apply wf_ncols; [ exact Hwf | ].
    destruct (where_eq labels c) as [ | r rs] eqn:E; [ congruence | ].
    assert (Hr : In r (where_eq labels c)) by (rewrite E; simpl; auto).
    apply In_where_eq_lab in Hr. destruct Hr as [Hr _].
    intros ->. unfold nrows in *. simpl in Hrows. lia. }
  rewrite Hnt, sum_axis0_columns.
  - unfold Lpl1.majorize, row_of. rewrite map_map. apply map_ext. intros j.
    unfold Words.majorizer, Words.class_mass, Words.block, Lpl1.p, Lpl1.epsilon.
    rewrite map_map. reflexivity.
  - unfold wf. rewrite Forall_forall. intros r Hr.
    apply in_map_iff in Hr. destruct Hr as [i [<- Hi]].
    apply wf_nth; [ exact Hwf | ].
    apply In_where_eq_lab in Hi. unfold nrows in *. lia.
Qed.

Lemma where_eq_inhabited (c : Z) :
  In c labels -> exists r, In r (where_eq labels c).
Proof.
  intros Hc. apply In_nth_error in Hc. destruct Hc as [r Hr].
  exists r. apply In_where_eq. exact Hr.
Qed.

Lemma class_step_ok (idx : list (list nat)) (k : nat) (c : Z) (done : list Z) :
  In c labels ->
  nth_error idx k = Some (where_eq labels c) ->
  Lpl1.class_step transp idx (map (g done) (seq 0 (nrows M))) k =
  Ok (map (g (done ++ [c])) (seq 0 (nrows M))).
Proof.
  intros Hc Hk. unfold Lpl1.class_step. rewrite Hk.
  assert (Hne : where_eq labels c <> []).
  { destruct (where_eq_inhabited c Hc) as [r Hr]. intros E. rewrite E in Hr.
    destruct Hr. }
  rewrite take_rows_ok.
  2:{ intros i Hi. apply In_where_eq_lab in Hi. unfold nrows in *. lia. }
  cbv beta iota delta [rbind].
  rewrite assign_rows_ok.
  - rewrite length_map, length_seq. f_equal. apply map_ext_in.
    intros r Hr. apply in_seq in Hr.
    assert (Hg : g (done ++ [c]) r =
                 if (lab r =? c)%Z then row_of c else g done r).
    { unfold g. rewrite existsb_app. simpl. rewrite orb_false_r.
      destruct (Z.eqb_spec (lab r) c) as [-> | Hn].
      - rewrite orb_true_r. reflexivity.
      - rewrite orb_false_r. reflexivity. }
    rewrite Hg. destruct (existsb (Nat.eqb r) (where_eq labels c)) eqn:E.
    + apply existsb_eqb_In in E.
      apply In_where_eq_lab in E. destruct E as [_ E].
      rewrite <- E, Z.eqb_refl, E. apply class_majs. exact Hne.
    + rewrite nth_map_seq by lia.
      destruct (Z.eqb_spec (lab r) c) as [Ec | Hn]; [ | reflexivity ].
      assert (Hin : In r (where_eq labels c))
        by (apply In_where_eq_lab; split; [ lia | exact Ec ]).
      apply existsb_eqb_In in Hin. congruence.
  - intros i Hi. rewrite length_map, length_seq.
    apply In_where_eq_lab in Hi. tauto.
  - rewrite class_majs by exact Hne. unfold row_of.
    rewrite length_map, length_seq.
    destruct (where_eq_inhabited c Hc) as [r Hr].
    apply In_where_eq_lab in Hr. destruct Hr as [Hr _].
    destruct (nrows M) as [ | m] eqn:En; [ lia | ].
    simpl. rewrite length_g. reflexivity.
Qed.

Lemma class_loop_ok (cs done : list Z) (pre : list (list nat)) :
  (forall c, In c cs -> In c labels) ->
  length pre = length done ->
  Lpl1.class_loop transp (pre ++ map (where_eq labels) cs)
    (map (g done) (seq 0 (nrows M))) (seq (length done) (length cs)) =
  Ok (map (g (done ++ cs)) (seq 0 (nrows M))).
Proof.
  revert done pre. induction cs as [ | c cs IH]; intros done pre Hcs Hpre; simpl.
  - rewrite app_nil_r. reflexivity.
  - rewrite (class_step_ok _ _ c).
    2:{ apply Hcs. simpl. auto. }
    2:{ rewrite nth_error_app2 by lia.
        rewrite Hpre, Nat.sub_diag. reflexivity. }
    cbv beta iota delta [rbind].
    specialize (IH (done ++ [c])%list (pre ++ [where_eq labels c])%list).
    rewrite <- !app_assoc in IH. simpl in IH.
    rewrite !length_app in IH. simpl in IH.
    replace (length done + 1) with (S (length done)) in IH by lia.
    apply IH; [ | lia ].
    intros c' Hc'. apply Hcs. simpl. auto.
Qed.

Lemma update_W_words :
  Lpl1.update_W labels M transp = Ok (Words.W_of labels (ncols M) transp).
Proof.
  unfold Lpl1.update_W, Lpl1.indices_labels, ones, full.
  rewrite (repeat_map_seq (repeat one (ncols M)) (nrows M)).
  change (map (fun _ : nat => repeat one (ncols M)) (seq 0 (nrows M)))
    with (map (g []) (seq 0 (nrows M))).
  pose proof (class_loop_ok (unique labels) [] []
                (fun c Hc => proj1 (In_unique c labels) Hc) eq_refl) as H.
  simpl in H. unfold nrows in *. rewrite H. f_equal.
  unfold Words.W_of. rewrite <- Hlab.
  rewrite <- (map_nth_seq_id labels 0%Z) at 3.
  rewrite map_map. apply map_ext_in. intros r Hr. apply in_seq in Hr.
  unfold g. fold (lab r).
  assert (Hin : existsb (Z.eqb (lab r)) (unique labels) = true).
  { apply existsb_exists. exists (lab r). split; [ | apply Z.eqb_refl ].
    apply In_unique. apply nth_In. lia. }
  rewrite Hin. reflexivity.
Qed.

End UpdateW.

(** ** Runs of [sinkhorn_lpl1_mm] *)

Section Lpl1Runs.

Variables (h : oracle) (a : vec) (labels_a : list Z) (b : vec) (M : mat).
Variables (reg eta : R) (numInnerItermax : Z) (stopInnerThr : R).

Hypothesis Hlab : length labels_a = nrows M.
Hypothesis Hans : answers_sinkhorn h (nrows M) (ncols M).

Lemma run_outer_loop (n : nat) (W : mat) (last : option mat) :
  run h (Lpl1.outer_loop a labels_a b M reg eta numInnerItermax stopInnerThr n W last)
  = Words.mm_rounds h a labels_a b M reg eta numInnerItermax stopInnerThr n W last.
Proof.
  revert W last. induction n as [ | n IH]; intros W last; simpl.
  - reflexivity.
  - destruct (Hans a b (madd M (smul (Fin eta) W)) reg numInnerItermax stopInnerThr)
      as [g [Eg [Hr Hw]]].
    rewrite Eg. rewrite (@update_W_words labels_a M g Hlab Hr Hw). simpl.
    rewrite IH. reflexivity.
Qed.

Lemma mm_rounds_total (n : nat) (W : mat) (last : option mat) :
  exists r,
    snd (Words.mm_rounds h a labels_a b M reg eta numInnerItermax stopInnerThr n W last)
      = Ok r /\
    length (fst (Words.mm_rounds h a labels_a b M reg eta numInnerItermax
                   stopInnerThr n W last)) = n /\
    (n = 0 -> r = last) /\ (1 <= n -> exists G, r = Some G).
Proof.
  revert W last. induction n as [ | n IH]; intros W last; simpl.
  - exists last. repeat split; auto. lia.
  - destruct (Hans a b (madd M (smul (Fin eta) W)) reg numInnerItermax stopInnerThr)
      as [g [Eg _]].
    rewrite Eg.
    destruct (IH (Words.W_of labels_a (ncols M) g) (Some g))
      as [r [Hr [Hlen [H0 H1]]]].
    destruct (Words.mm_rounds _ _ _ _ _ _ _ _ _ _ _ _) as [t r'].
    simpl in *. exists r. repeat split; auto; try lia.
    intros _. destruct n as [ | n].
    + exists g. apply H0. reflexivity.
    + apply H1. lia.
Qed.

End Lpl1Runs.

Lemma run_lpl1_mm (h : oracle) (a : vec) (labels_a : list Z) (b : vec) (M : mat)
    (reg eta : R) (nin : Z) (thr : R) (numItermax : Z) (verbose log : bool) :
  run h (Lpl1.sinkhorn_lpl1_mm a labels_a b M reg eta nin thr numItermax verbose log)
  = match run h (Lpl1.outer_loop a labels_a b M reg eta nin thr
                   (Z.to_nat numItermax) (zeros (nrows M) (ncols M)) None) with
    | (t, Ok (Some G)) => (t, Ok (JustG G))
    | (t, Ok None) => (t, Err UnboundLocalError)
    | (t, Err e) => (t, Err e)
    end.
Proof.
  unfold Lpl1.sinkhorn_lpl1_mm. rewrite run_bind.
  destruct (run h _) as [t [[G | ] | e]]; simpl; rewrite ?app_nil_r; reflexivity.
Qed.

Lemma Ex_h_answers : answers_sinkhorn Ex.h 2 2.
Proof.
  intros a b C reg n thr. exists Ex.T. split; [ reflexivity | ].
  split; [ reflexivity | ]. repeat constructor.
Qed.

(** C6: with labels for every row of [M] and an entropic solver that answers
    with arrays of the shape of [M], the calls of [sinkhorn_lpl1_mm] are those
    of the rounds "solve on [M + eta W], then set every row of class [c] to
    the majorizer [0.5 (mass + 1e-3)^(-0.5)] of the class's column masses",
    started at [W = 0], and there are exactly [numItermax] of them whatever
    the couplings are. *)
Theorem lpl1_mm_rounds (h : oracle) (a : vec) (labels_a : list Z) (b : vec)
    (M : mat) (reg eta : R) (nin : Z) (thr : R) (numItermax : Z)
    (verbose log : bool) :
  length labels_a = nrows M ->
  answers_sinkhorn h (nrows M) (ncols M) ->
  trace h (Lpl1.sinkhorn_lpl1_mm a labels_a b M reg eta nin thr numItermax verbose log)
  = fst (Words.mm_rounds h a labels_a b M reg eta nin thr
           (Z.to_nat numItermax) (zeros (nrows M) (ncols M)) None)
  /\ length (trace h (Lpl1.sinkhorn_lpl1_mm a labels_a b M reg eta nin thr
                        numItermax verbose log)) = Z.to_nat numItermax.
Proof.
  intros Hlab Hans. unfold trace.
  rewrite run_lpl1_mm, (run_outer_loop h a labels_a b M reg eta nin thr Hlab Hans).
  destruct (mm_rounds_total h a labels_a b M reg eta nin thr Hlab Hans
              (Z.to_nat numItermax) (zeros (nrows M) (ncols M)) None)
    as [r [Hr [Hlen _]]].
  destruct (Words.mm_rounds _ _ _ _ _ _ _ _ _ _ _ _) as [t r'].
  simpl in *. subst r'. destruct r; simpl; auto.
Qed.

Lemma lpl1_mm_rounds_witness :
  trace Ex.h (Lpl1.sinkhorn_lpl1_mm Ex.a Ex.labels Ex.b Ex.M 1 (1 / 10) 200
                (1 / 1000) 3 false false)
  = fst (Words.mm_rounds Ex.h Ex.a Ex.labels Ex.b Ex.M 1 (1 / 10) 200 (1 / 1000)
           (Z.to_nat 3) (zeros (nrows Ex.M) (ncols Ex.M)) None)
  /\ length (trace Ex.h (Lpl1.sinkhorn_lpl1_mm Ex.a Ex.labels Ex.b Ex.M 1 (1 / 10)
                           200 (1 / 1000) 3 false false)) = Z.to_nat 3.
Proof.
  apply lpl1_mm_rounds; [ reflexivity | exact Ex_h_answers ].
Defined.

(** C10: with [numItermax <= 0] the loop body never runs, [transp] is never
    bound and the function ends in [UnboundLocalError] without a single call;
    it returns a coupling only for [numItermax >= 1], and then does so
    whenever the entropic solver answers with arrays of the shape of [M]. *)
Theorem lpl1_mm_unbound (a : vec) (labels_a : list Z) (b : vec)
    (M : mat) (reg eta : R) (nin : Z) (thr : R) (numItermax : Z)
    (verbose log : bool) :
  ((numItermax <= 0)%Z ->
   Lpl1.sinkhorn_lpl1_mm a labels_a b M reg eta nin thr numItermax verbose log
   = Raise UnboundLocalError)
  /\ (forall h r,
        outcome h (Lpl1.sinkhorn_lpl1_mm a labels_a b M reg eta nin thr
                     numItermax verbose log) = Ok r ->
        (1 <= numItermax)%Z)
  /\ (forall h,
        (1 <= numItermax)%Z ->
        length labels_a = nrows M ->
        answers_sinkhorn h (nrows M) (ncols M) ->
        exists G,
          outcome h (Lpl1.sinkhorn_lpl1_mm a labels_a b M reg eta nin thr
                       numItermax verbose log) = Ok (JustG G)).
Proof.
  assert (H0 : (numItermax <= 0)%Z ->
               Lpl1.sinkhorn_lpl1_mm a labels_a b M reg eta nin thr numItermax
                 verbose log = Raise UnboundLocalError).
  { intros Hle. unfold Lpl1.sinkhorn_lpl1_mm.
    replace (Z.to_nat numItermax) with 0 by lia. reflexivity. }
  split; [ exact H0 | ]. split.
  - intros h r Hr. destruct (Z.leb_spec numItermax 0) as [Hle | Hlt]; [ | lia ].
    rewrite (H0 Hle) in Hr. discriminate.
  - intros h Hge Hlab Hans. unfold outcome.
    rewrite run_lpl1_mm, (run_outer_loop h a labels_a b M reg eta nin thr Hlab Hans).
    destruct (mm_rounds_total h a labels_a b M reg eta nin thr Hlab Hans
                (Z.to_nat numItermax) (zeros (nrows M) (ncols M)) None)
      as [r [Hr [_ [_ H1]]]].
    destruct (Words.mm_rounds _ _ _ _ _ _ _ _ _ _ _ _) as [t r'].
    simpl in *. subst r'. destruct H1 as [G ->]; [ lia | ].
    exists G. reflexivity.
Qed.

Lemma lpl1_mm_unbound_witness :
  Lpl1.sinkhorn_lpl1_mm Ex.a Ex.labels Ex.b Ex.M 1 (1 / 10) 200 (1 / 1000) 0
    false false = Raise UnboundLocalError
  /\ exists G,
       outcome Ex.h (Lpl1.sinkhorn_lpl1_mm Ex.a Ex.labels Ex.b Ex.M 1 (1 / 10)
                       200 (1 / 1000) 1 false false) = Ok (JustG G).
Proof.
  split.
  - apply (proj1 (lpl1_mm_unbound Ex.a Ex.labels Ex.b Ex.M 1 (1 / 10) 200
                    (1 / 1000) 0 false false)).
    lia.
  - apply (proj2 (proj2 (lpl1_mm_unbound Ex.a Ex.labels Ex.b Ex.M 1 (1 / 10) 200
                           (1 / 1000) 1 false false))).
    + lia.
    + reflexivity.
    + exact Ex_h_answers.
Defined.

(** ** Finite, non-negative weights *)

Lemma fadd_fmul_zero (x : fl) (eta : R) : fadd x (fmul (Fin eta) zero) = x.
Proof.
  destruct x as [a | s | ]; simpl; try reflexivity.
  f_equal. ring.
Qed.

Lemma vadd_smul_zeros (eta : R) (r : vec) :
  zip_with fadd r (map (fmul (Fin eta)) (repeat zero (length r))) = r.
Proof.
  induction r as [ | x r IH]; cbn [length repeat map zip_with].
  - reflexivity.
  - rewrite fadd_fmul_zero. f_equal. exact IH.
Qed.

Lemma madd_smul_zeros (eta : R) (c : nat) (M : mat) :
  wf c M -> madd M (smul (Fin eta) (zeros (nrows M) c)) = M.
Proof.
  intros Hwf. induction Hwf as [ | r M Hr Hwf IH]; simpl.
  - reflexivity.
  - unfold madd, smul, zeros, full, nrows in *. simpl. f_equal.
    + rewrite <- Hr. apply vadd_smul_zeros.
    + exact IH.
Qed.

Lemma fadd_nonneg (x y : fl) : nonneg x -> nonneg y -> nonneg (fadd x y).
Proof.
  destruct x as [a | s | ], y as [b | t | ]; simpl; try tauto.
  - lra.
  - intros -> ->. reflexivity.
Qed.

Lemma vadd_nonneg (u v : vec) :
  Forall nonneg u -> Forall nonneg v -> Forall nonneg (vadd u v).
Proof.
  intros Hu. revert v. induction Hu as [ | x u Hx Hu IH]; intros v Hv.
  - constructor.
  - destruct Hv as [ | y v Hy Hv]; simpl.
    + constructor.
    + constructor; [ apply fadd_nonneg; assumption | apply IH; exact Hv ].
Qed.

Lemma sum_axis0_nonneg (c : nat) (rows : mat) :
  Forall (Forall nonneg) rows -> Forall nonneg (sum_axis0 c rows).
Proof.
  unfold sum_axis0.
  assert (H0 : Forall nonneg (repeat zero c)).
  { apply Forall_forall. intros x Hx. apply repeat_spec in Hx. subst.
    simpl. lra. }
  revert H0. generalize (repeat zero c).
  induction rows as [ | r rows IH]; intros acc Hacc Hrows; simpl.
  - exact Hacc.
  - inversion Hrows; subst. apply IH; [ | assumption ].
    apply vadd_nonneg; assumption.
Qed.

Lemma take_rows_Forall (P : vec -> Prop) (A : mat) (idx : list nat) (rows : mat) :
  Forall P A -> take_rows A idx = Ok rows -> Forall P rows.
Proof.
  intros HA. revert rows. induction idx as [ | i idx IH]; intros rows; simpl.
  - intros E. injection E as <-. constructor.
  - destruct (nth_error A i) as [r | ] eqn:Ei; [ | discriminate ].
    destruct (take_rows A idx) as [rows' | e]; simpl; [ | discriminate ].
    intros E. injection E as <-. constructor.
    + rewrite Forall_forall in HA. apply HA. eapply nth_error_In. exact Ei.
    + apply IH. reflexivity.
Qed.

Lemma majorizer_finite_nonneg (m : fl) :
  nonneg m ->
  finite_nonneg (fmul (Fin Lpl1.p) (fpow (fadd m (Fin Lpl1.epsilon)) (Lpl1.p - 1))).
Proof.
  unfold Lpl1.p, Lpl1.epsilon, finite_nonneg.
  destruct m as [a | s | ]; simpl; try tauto.
  - intros Ha. destruct (Rlt_dec 0 (a + 1 / 1000)) as [Hpos | Hn]; [ | lra ].
    simpl. split; [ exact Logic.I | ].
    pose proof (exp_pos ((1 / 2 - 1) * ln (a + 1 / 1000))) as He.
    unfold Rpower. nra.
  - intros ->. simpl.
    destruct (Rlt_dec (1 / 2 - 1) 0) as [Hneg | Hn]; [ | lra ].
    simpl. split; [ exact Logic.I | lra ].
Qed.

Lemma majorize_finite_nonneg (v : vec) :
  Forall nonneg v -> Forall finite_nonneg (Lpl1.majorize v).
Proof.
  intros Hv. unfold Lpl1.majorize. apply Forall_map.
  eapply Forall_impl; [ | exact Hv ]. apply majorizer_finite_nonneg.
Qed.

Lemma set_nth_Forall {A : Type} (P : A -> Prop) (i : nat) (x : A) (l : list A) :
  P x -> Forall P l -> Forall P (set_nth i x l).
Proof.
  intros Hx Hl. revert i. induction Hl as [ | y l Hy Hl IH]; intros [ | i]; simpl;
    constructor; auto.
Qed.

Lemma set_rows_fold_Forall (P : vec -> Prop) (row : vec) (idx : list nat) (W : mat) :
  P row -> Forall P W -> Forall P (fold_left (fun W' i => set_nth i row W') idx W).
Proof.
  intros Hrow. revert W. induction idx as [ | i idx IH]; intros W HW; simpl.
  - exact HW.
  - apply IH. apply set_nth_Forall; assumption.
Qed.

Lemma broadcast_row_Forall (P : fl -> Prop) (c : nat) (v row : vec) :
  Forall P v -> broadcast_row c v = Ok row -> Forall P row.
Proof.
  intros Hv. unfold broadcast_row. destruct (length v =? c).
  - intros E. injection E as <-. exact Hv.
  - destruct v as [ | x [ | y v]]; try discriminate.
    intros E. injection E as <-. inversion Hv; subst.
    apply Forall_forall. intros z Hz. apply repeat_spec in Hz. subst. assumption.
Qed.

Lemma assign_rows_Forall (P : fl -> Prop) (W : mat) (idx : list nat) (v : vec)
    (W' : mat) :
  Forall P v -> Forall (Forall P) W -> assign_rows W idx v = Ok W' ->
  Forall (Forall P) W'.
Proof.
  intros Hv HW. unfold assign_rows.
  destruct (forallb _ idx); [ | discriminate ].
  destruct (broadcast_row (ncols W) v) as [row | e] eqn:Eb;
    cbv beta iota delta [rbind]; [ | discriminate ].
  intros E. injection E as <-.
  apply set_rows_fold_Forall; [ | exact HW ].
  eapply broadcast_row_Forall; eassumption.
Qed.

Lemma class_loop_finite_nonneg (transp : mat) (idx : list (list nat))
    (ks : list nat) (W W' : mat) :
  Forall (Forall nonneg) transp ->
  Forall (Forall finite_nonneg) W ->
  Lpl1.class_loop transp idx W ks = Ok W' ->
  Forall (Forall finite_nonneg) W'.
Proof.
  intros Ht. revert W. induction ks as [ | k ks IH]; intros W HW; simpl.
  - intros E. injection E as <-. exact HW.
  - destruct (Lpl1.class_step transp idx W k) as [W1 | e] eqn:E1; simpl;
      [ | discriminate ].
    apply IH. unfold Lpl1.class_step in E1.
    destruct (nth_error idx k) as [idxc | ]; [ | discriminate ].
    destruct (take_rows transp idxc) as [rows | e] eqn:Er; simpl in E1;
      [ | discriminate ].
    eapply assign_rows_Forall; [ | exact HW | exact E1 ].
    apply majorize_finite_nonneg, sum_axis0_nonneg.
    eapply (take_rows_Forall (Forall nonneg)); eassumption.
Qed.

Lemma ones_finite_nonneg (r c : nat) : Forall (Forall finite_nonneg) (ones r c).
Proof.
  unfold ones, full. apply Forall_forall. intros row Hrow.
  apply repeat_spec in Hrow. subst. apply Forall_forall. intros x Hx.
  apply repeat_spec in Hx. subst. unfold finite_nonneg. simpl. split; [ exact Logic.I | lra ].
Qed.

Lemma zeros_finite_nonneg (r c : nat) : Forall (Forall finite_nonneg) (zeros r c).
Proof.
  unfold zeros, full. apply Forall_forall. intros row Hrow.
  apply repeat_spec in Hrow. subst. apply Forall_forall. intros x Hx.
  apply repeat_spec in Hx. subst. unfold finite_nonneg. simpl. split; [ exact Logic.I | lra ].
Qed.

Lemma update_W_finite_nonneg (labels_a : list Z) (M transp W : mat) :
  Forall (Forall nonneg) transp ->
  Lpl1.update_W labels_a M transp = Ok W ->
  Forall (Forall finite_nonneg) W.
Proof.
  intros Ht. unfold Lpl1.update_W.
  apply class_loop_finite_nonneg; [ exact Ht | apply ones_finite_nonneg ].
Qed.

Lemma outer_loop_weighted (h : oracle) (a : vec) (labels_a : list Z) (b : vec)
    (M : mat) (reg eta : R) (nin : Z) (thr : R) :
  sinkhorn_nonneg h ->
  forall (n : nat) (W : mat) (last : option mat),
    Forall (Forall finite_nonneg) W ->
    Forall (weighted_solve a b M reg eta nin thr)
      (fst (run h (Lpl1.outer_loop a labels_a b M reg eta nin thr n W last))).
Proof.
  intros Hh. induction n as [ | n IH]; intros W last HW; simpl.
  - constructor.
  - assert (Hev : weighted_solve a b M reg eta nin thr
                    (EvCall (Sinkhorn a b (madd M (smul (Fin eta) W)) reg nin thr)))
      by (exists W; split; [ exact HW | reflexivity ]).
    destruct (on_call h _) as [g | e] eqn:Eg; simpl.
    + destruct (Lpl1.update_W labels_a M g) as [W' | e] eqn:EW; simpl.
      * specialize (IH W' (Some g) (update_W_finite_nonneg _ _ _ _ (Hh _ _ _ _ _ _ _ Eg) EW)).
        destruct (run h _) as [t r]. simpl in *. constructor; assumption.
      * constructor; [ exact Hev | constructor ].
    + constructor; [ exact Hev | constructor ].
Qed.

Lemma lpl1_mm_first_call (a : vec) (labels_a : list Z) (b : vec) (M : mat)
    (reg eta : R) (nin : Z) (thr : R) (numItermax : Z) (verbose log : bool) :
  (1 <= numItermax)%Z ->
  exists k,
    Lpl1.sinkhorn_lpl1_mm a labels_a b M reg eta nin thr numItermax verbose log
    = CallM (Sinkhorn a b (madd M (smul (Fin eta) (zeros (nrows M) (ncols M))))
               reg nin thr) k.
Proof.
  intros Hge. unfold Lpl1.sinkhorn_lpl1_mm.
  destruct (Z.to_nat numItermax) as [ | n] eqn:En; [ lia | ].
  cbn [Lpl1.outer_loop bind call]. eexists. reflexivity.
Qed.

Lemma trace_lpl1_mm (h : oracle) (a : vec) (labels_a : list Z) (b : vec) (M : mat)
    (reg eta : R) (nin : Z) (thr : R) (numItermax : Z) (verbose log : bool) :
  trace h (Lpl1.sinkhorn_lpl1_mm a labels_a b M reg eta nin thr numItermax verbose log)
  = fst (run h (Lpl1.outer_loop a labels_a b M reg eta nin thr
                  (Z.to_nat numItermax) (zeros (nrows M) (ncols M)) None)).
Proof.
  unfold trace. rewrite run_lpl1_mm.
  destruct (run h _) as [t [[G | ] | e]]; reflexivity.
Qed.

(** C9: whatever the labels, a single class included: on a rectangular cost
    [M] the first solve of [sinkhorn_lpl1_mm] is the entropic solve on [M]
    itself; the weights recomputed from a coupling without negative entries
    are finite and non-negative, entry by entry; so every later solve is on
    [M + eta W] for such weights [W]. *)
Theorem lpl1_mm_weights (h : oracle) (a : vec) (labels_a : list Z) (b : vec)
    (M : mat) (reg eta : R) (nin : Z) (thr : R) (numItermax : Z)
    (verbose log : bool) :
  wf (ncols M) M ->
  (1 <= numItermax)%Z ->
  (exists k,
     Lpl1.sinkhorn_lpl1_mm a labels_a b M reg eta nin thr numItermax verbose log
     = CallM (Sinkhorn a b M reg nin thr) k)
  /\ (forall gamma W,
        Forall (Forall nonneg) gamma ->
        Lpl1.update_W labels_a M gamma = Ok W ->
        Forall (Forall finite_nonneg) W)
  /\ (sinkhorn_nonneg h ->
      Forall (weighted_solve a b M reg eta nin thr)
        (trace h (Lpl1.sinkhorn_lpl1_mm a labels_a b M reg eta nin thr
                    numItermax verbose log))).
Proof.
  intros Hwf Hge. split; [ | split ].
  - destruct (lpl1_mm_first_call a labels_a b M reg eta nin thr numItermax
                verbose log Hge) as [k Hk].
    exists k. rewrite Hk, (madd_smul_zeros eta (ncols M) M Hwf). reflexivity.
  - intros gamma W. apply update_W_finite_nonneg.
  - intros Hh. rewrite trace_lpl1_mm.
    apply outer_loop_weighted; [ exact Hh | apply zeros_finite_nonneg ].
Qed.

Lemma Ex_M_wf : wf (ncols Ex.M) Ex.M.
Proof. repeat constructor. Qed.

Lemma Ex_h_nonneg : sinkhorn_nonneg Ex.h.
Proof.
  intros a b C reg n thr g E. cbn [Ex.h on_call] in E. injection E as <-.
  unfold Ex.T. repeat constructor; simpl; lra.
Qed.

Lemma lpl1_mm_weights_witness :
  (exists k,
     Lpl1.sinkhorn_lpl1_mm Ex.a [7%Z; 7%Z] Ex.b Ex.M 1 (1 / 10) 200 (1 / 1000) 2
       false false
     = CallM (Sinkhorn Ex.a Ex.b Ex.M 1 200 (1 / 1000)) k)
  /\ (forall gamma W,
        Forall (Forall nonneg) gamma ->
        Lpl1.update_W [7%Z; 7%Z] Ex.M gamma = Ok W ->
        Forall (Forall finite_nonneg) W)
  /\ Forall (weighted_solve Ex.a Ex.b Ex.M 1 (1 / 10) 200 (1 / 1000))
        (trace Ex.h (Lpl1.sinkhorn_lpl1_mm Ex.a [7%Z; 7%Z] Ex.b Ex.M 1 (1 / 10)
                       200 (1 / 1000) 2 false false)).
Proof.
  destruct (lpl1_mm_weights Ex.h Ex.a [7%Z; 7%Z] Ex.b Ex.M 1 (1 / 10) 200
              (1 / 1000) 2 false false Ex_M_wf ltac:(lia)) as [H1 [H2 H3]].
  split; [ exact H1 | ]. split; [ exact H2 | ]. exact (H3 Ex_h_nonneg).
Defined.

(** C1: [sinkhorn_lpl1_mm] takes [log] and never looks at it: the program for
    [log=True] is the program for [log=False], no run of it returns a log, and
    on the sample data it returns the bare coupling where its sibling
    [sinkhorn_l1l2_gl], which hands [log] to [gcg], returns coupling and log. *)
Theorem lpl1_mm_log_ignored :
  (forall a labels_a b M reg eta nin thr numItermax verbose,
     Lpl1.sinkhorn_lpl1_mm a labels_a b M reg eta nin thr numItermax verbose true
     = Lpl1.sinkhorn_lpl1_mm a labels_a b M reg eta nin thr numItermax verbose false)
  /\ (forall h a labels_a b M reg eta nin thr numItermax verbose G lg,
        outcome h (Lpl1.sinkhorn_lpl1_mm a labels_a b M reg eta nin thr
                     numItermax verbose true) <> Ok (GWithLog G lg))
  /\ outcome Ex.h (Lpl1.sinkhorn_lpl1_mm Ex.a Ex.labels Ex.b Ex.M 1 (1 / 10) 200
                     (1 / 1000) 1 false true) = Ok (JustG Ex.T)
  /\ outcome Ex.h (L1l2.sinkhorn_l1l2_gl Ex.a Ex.labels Ex.b Ex.M 1 (1 / 10) 10 200
                     (1 / 1000) false true) = Ok (GWithLog Ex.T []).
Proof.
  split; [ reflexivity | ]. split; [ | split ].
  - intros h a labels_a b M reg eta nin thr numItermax verbose G lg.
    unfold outcome. rewrite run_lpl1_mm.
    destruct (run h _) as [t [[G' | ] | e]]; simpl; congruence.
  - unfold outcome.
    rewrite run_lpl1_mm, (run_outer_loop Ex.h Ex.a Ex.labels Ex.b Ex.M 1 (1 / 10)
                            200 (1 / 1000) eq_refl Ex_h_answers).
    reflexivity.
  - reflexivity.
Qed.

(** C3, as stated, fails: with [reg = -1] and [eta = -1] nothing is raised,
    the entropic solve runs on [M] and its coupling is returned; with one
    label for two samples the same happens. *)
Lemma invalid_input_not_refused :
  (-1 <= 0)%R
  /\ run Ex.h (Lpl1.sinkhorn_lpl1_mm Ex.a Ex.labels Ex.b Ex.M (-1) (-1) 200
                 (1 / 1000) 1 false false)
     = ([EvCall (Sinkhorn Ex.a Ex.b Ex.M (-1) 200 (1 / 1000))], Ok (JustG Ex.T))
  /\ length [0%Z] <> nrows Ex.M
  /\ outcome Ex.h (Lpl1.sinkhorn_lpl1_mm Ex.a [0%Z] Ex.b Ex.M 1 (1 / 10) 200
                     (1 / 1000) 1 false false) = Ok (JustG Ex.T).
Proof.
  split; [ lra | ]. split; [ | split ].
  - rewrite run_lpl1_mm, (run_outer_loop Ex.h Ex.a Ex.labels Ex.b Ex.M (-1) (-1)
                            200 (1 / 1000) eq_refl Ex_h_answers).
    change (Z.to_nat 1) with 1%nat. cbn [Words.mm_rounds Ex.h on_call].
    rewrite (madd_smul_zeros (-1) (ncols Ex.M) Ex.M Ex_M_wf). reflexivity.
  - simpl. lia.
  - reflexivity.
Qed.

(** C3, amended: the solvers check nothing themselves. Whatever the weights
    (non-positive ones included) and the number of labels, the first thing
    [sinkhorn_lpl1_mm] does for [numItermax >= 1] is the entropic solve on
    [M + eta 0] with [reg] as given; [sinkhorn_l1l2_gl] hands its arguments to
    [gcg]; the joint estimators start with [dist(xs, xt)], after
    [kernel(xs, xs)] for the kernel one. *)
Theorem solvers_do_not_validate (a : vec) (labels_a : list Z) (b : vec) (M : mat)
    (reg eta : R) (numItermax nin : Z) (thr : R) (verbose log : bool)
    (xs xt : mat) (mu : R) (bias : bool) (stopThr : R)
    (kerneltype : String.string) (sigma : R) :
  (1 <= numItermax)%Z ->
  (exists k,
     Lpl1.sinkhorn_lpl1_mm a labels_a b M reg eta nin thr numItermax verbose log
     = CallM (Sinkhorn a b (madd M (smul (Fin eta) (zeros (nrows M) (ncols M))))
                reg nin thr) k)
  /\ L1l2.sinkhorn_l1l2_gl a labels_a b M reg eta numItermax nin thr verbose log
     = CallGcg (GcgArgs a b M reg eta (L1l2.f labels_a) (L1l2.df labels_a) None
                  numItermax nin thr verbose log) Ret
  /\ (exists k,
        Joint.joint_OT_mapping_linear xs xt mu eta bias numItermax nin thr
          stopThr log = CallM (Dist xs xt) k)
  /\ (exists k k',
        Joint.joint_OT_mapping_kernel xs xt mu eta kerneltype sigma bias
          numItermax nin thr stopThr log
        = CallM (Kernel xs xs kerneltype sigma) k
        /\ forall K, k K = CallM (Dist xs xt) (k' K)).
Proof.
  intros Hge. split; [ | split; [ | split ] ].
  - apply lpl1_mm_first_call. exact Hge.
  - reflexivity.
  - eexists. reflexivity.
  - eexists. eexists. split; [ reflexivity | ]. intros K. reflexivity.
Qed.

Lemma solvers_do_not_validate_witness :
  (exists k,
     Lpl1.sinkhorn_lpl1_mm Ex.a Ex.labels Ex.b Ex.M (-1) (-1) 200 (1 / 1000) 1
       false false
     = CallM (Sinkhorn Ex.a Ex.b
                (madd Ex.M (smul (Fin (-1)) (zeros (nrows Ex.M) (ncols Ex.M))))
                (-1) 200 (1 / 1000)) k)
  /\ L1l2.sinkhorn_l1l2_gl Ex.a Ex.labels Ex.b Ex.M (-1) (-1) 1 200 (1 / 1000)
       false false
     = CallGcg (GcgArgs Ex.a Ex.b Ex.M (-1) (-1) (L1l2.f Ex.labels)
                  (L1l2.df Ex.labels) None 1 200 (1 / 1000) false false) Ret
  /\ (exists k,
        Joint.joint_OT_mapping_linear Ex.M Ex.M (-1) (-1) false 1 200 (1 / 1000)
          (1 / 1000) false = CallM (Dist Ex.M Ex.M) k)
  /\ (exists k k',
        Joint.joint_OT_mapping_kernel Ex.M Ex.M (-1) (-1) String.EmptyString 1
          false 1 200 (1 / 1000) (1 / 1000) false
        = CallM (Kernel Ex.M Ex.M String.EmptyString 1) k
        /\ forall K, k K = CallM (Dist Ex.M Ex.M) (k' K)).
Proof.
  apply solvers_do_not_validate. lia.
Defined.

(** ** The block coordinate descent *)

Lemma if_same {A : Type} (c : bool) (x : A) : (if c then x else x) = x.
Proof. destruct c; reflexivity. Qed.

Lemma neg_index_snoc1 (l : list fl) (x : fl) :
  neg_index (l ++ [x]) 1 = Some x.
Proof.
  unfold neg_index. rewrite length_app. cbn [length].
  assert (E1 : (1 <=? 1) = true) by reflexivity.
  assert (E2 : (1 <=? length l + 1) = true) by (apply Nat.leb_le; lia).
  rewrite E1, E2. cbn [andb].
  replace (length l + 1 - 1) with (length l) by lia.
  rewrite nth_error_app2 by lia. rewrite Nat.sub_diag. reflexivity.
Qed.

Lemma neg_index_snoc2 (l : list fl) (y x : fl) :
  neg_index ((l ++ [y]) ++ [x]) 2 = Some y.
Proof.
  unfold neg_index. rewrite !length_app. cbn [length].
  assert (E1 : (1 <=? 2) = true) by reflexivity.
  assert (E2 : (2 <=? length l + 1 + 1) = true) by (apply Nat.leb_le; lia).
  rewrite E1, E2. cbn [andb].
  replace (length l + 1 + 1 - 2) with (length l) by lia.
  rewrite <- app_assoc. rewrite nth_error_app2 by lia.
  rewrite Nat.sub_diag. reflexivity.
Qed.

Lemma rel_decrease_snoc (l : list fl) (v2 v1 : fl) :
  Joint.rel_decrease ((l ++ [v2]) ++ [v1]) = Ok (fdiv (fabs (fsub v1 v2)) (fabs v2)).
Proof.
  unfold Joint.rel_decrease. rewrite neg_index_snoc1, neg_index_snoc2. reflexivity.
Qed.

Lemma rel_decrease_last (l : list fl) (delta : fl) :
  Joint.rel_decrease l = Ok delta ->
  exists l' v2 v1, l = ((l' ++ [v2]) ++ [v1])%list
                   /\ delta = fdiv (fabs (fsub v1 v2)) (fabs v2).
Proof.
  intros E.
  destruct (rev l) as [ | v1 [ | v2 r]] eqn:El.
  - apply (f_equal (@rev fl)) in El. rewrite rev_involutive in El. subst l.
    discriminate.
  - apply (f_equal (@rev fl)) in El. rewrite rev_involutive in El. subst l.
    discriminate.
  - apply (f_equal (@rev fl)) in El. rewrite rev_involutive in El. simpl in El.
    subst l. rewrite rel_decrease_snoc in E. injection E as <-.
    exists (rev r), v2, v1. split; reflexivity.
Qed.

(** Division of a magnitude by the magnitude of zero. *)
Lemma fdiv_by_zero (x : fl) :
  let q := fdiv (fabs x) (fabs (Fin 0)) in
  ~ finite q /\ forall thr, flt q (Fin thr) = false.
Proof.
  simpl. rewrite Rabs_R0.
  destruct x as [a | s | ]; simpl.
  - destruct (Req_dec_T 0 0) as [_ | Hn]; [ | congruence ].
    unfold sign_of. destruct (Req_dec_T (Rabs a) 0) as [E | Hne].
    + simpl. tauto.
    + destruct (Rlt_dec (Rabs a) 0) as [Hlt | _].
      * pose proof (Rabs_pos a). lra.
      * simpl. tauto.
  - unfold sign_of. destruct (Req_dec_T 0 0) as [_ | Hn]; [ | congruence ].
    simpl. tauto.
  - tauto.
Qed.

Section BcdFacts.

Variables (solve_G : mat -> mat -> prog mat) (solve_L : mat -> prog mat).
Variable loss : mat -> mat -> fl.
Variables (numItermax : Z) (stopThr : R) (log : bool).
Variable h : oracle.

Let round := Joint.bcd_round solve_G solve_L loss numItermax stopThr.
Let while := Joint.bcd_while solve_G solve_L loss numItermax stopThr.

(** What a completed round leaves. *)
Lemma bcd_round_inv (s s' : Joint.bcd_state) (t : list event) :
  run h (round s) = (t, Ok s') ->
  exists tG tL delta,
    run h (solve_G (Joint.st_L s) (Joint.st_G s)) = (tG, Ok (Joint.st_G s'))
    /\ run h (solve_L (Joint.st_G s')) = (tL, Ok (Joint.st_L s'))
    /\ t = (tG ++ tL)%list
    /\ Joint.st_it s' = (Joint.st_it s + 1)%Z
    /\ Joint.st_vloss s'
       = (Joint.st_vloss s ++ [loss (Joint.st_L s') (Joint.st_G s')])%list
    /\ Joint.rel_decrease (Joint.st_vloss s') = Ok delta
    /\ Joint.st_loop s'
       = (if flt delta (Fin stopThr) then false
          else if (Joint.st_it s' >=? numItermax)%Z then false
               else Joint.st_loop s).
Proof.
  unfold round, Joint.bcd_round. rewrite run_bind.
  destruct (run h (solve_G _ _)) as [tG [G | e]] eqn:EG; [ | discriminate ].
  rewrite run_bind.
  destruct (run h (solve_L G)) as [tL [L | e]] eqn:EL; [ | discriminate ].
  rewrite run_bind, run_lift.
  destruct (Joint.rel_decrease _) as [delta | e] eqn:Ed; [ | discriminate ].
  simpl. intros E. injection E as <- <-.
  exists tG, tL, delta. simpl. rewrite app_nil_r.
  split; [ reflexivity | ]. split; [ exact EL | ]. split; [ reflexivity | ].
  split; [ reflexivity | ]. split; [ reflexivity | ]. split; [ exact Ed | ].
  reflexivity.
Qed.

(** With [numItermax] rounds of fuel the loop is never cut short. *)
Lemma bcd_while_fuel (fuel : nat) (s : Joint.bcd_state) :
  (Joint.st_loop s = true -> (Joint.st_it s < numItermax)%Z) ->
  (numItermax - Joint.st_it s <= Z.of_nat fuel)%Z ->
  snd (run h (while fuel s)) <> Ok None.
Proof.
  revert s. induction fuel as [ | fuel IH]; intros s Hinv Hfuel.
  - simpl. destruct (Joint.st_loop s); [ | simpl; discriminate ].
    specialize (Hinv eq_refl). lia.
  - simpl. destruct (Joint.st_loop s) eqn:El; [ | simpl; discriminate ].
    fold round. fold while. rewrite run_bind.
    destruct (run h (round s)) as [t [s' | e]] eqn:Er; [ | simpl; discriminate ].
    destruct (bcd_round_inv s s' t Er)
      as [tG [tL [delta [_ [_ [_ [Hit [_ [_ Hloop]]]]]]]]].
    specialize (IH s').
    destruct (run h (while fuel s')) as [t' r']. simpl in *. apply IH.
    + rewrite Hloop. destruct (flt delta (Fin stopThr)); [ discriminate | ].
      destruct (Z.geb_spec (Joint.st_it s') numItermax); [ discriminate | ].
      intros _. lia.
    + lia.
Qed.

(** An invariant of the pair (coupling, mapping) that every solve for the
    mapping establishes holds of what the loop returns. *)
Variable Q : mat -> mat -> Prop.
Hypothesis solve_L_Q :
  forall G L t, run h (solve_L G) = (t, Ok L) -> Q G L.

Lemma bcd_while_Q (fuel : nat) (s s' : Joint.bcd_state) (t : list event) :
  Q (Joint.st_G s) (Joint.st_L s) ->
  run h (while fuel s) = (t, Ok (Some s')) ->
  Q (Joint.st_G s') (Joint.st_L s').
Proof.
  revert s t. induction fuel as [ | fuel IH]; intros s t HQ; simpl.
  - destruct (Joint.st_loop s); simpl; [ discriminate | ].
    intros E. injection E as _ <-. exact HQ.
  - destruct (Joint.st_loop s); simpl.
    2:{ intros E. injection E as _ <-. exact HQ. }
    fold round. fold while. rewrite run_bind.
    destruct (run h (round s)) as [t1 [s1 | e]] eqn:Er; [ | discriminate ].
    destruct (bcd_round_inv s s1 t1 Er) as [tG [tL [delta [_ [HL _]]]]].
    destruct (run h (while fuel s1)) as [t2 r2] eqn:Ew.
    intros E. injection E as _ ->.
    apply (IH s1 t2); [ | exact Ew ].
    eapply solve_L_Q. exact HL.
Qed.

Lemma bcd_Q (fuel : nat) (G0 : mat) (t : list event) (ret : Joint.mapping_ret) :
  run h (Joint.bcd solve_G solve_L loss numItermax stopThr log fuel G0)
  = (t, Ok (Some ret)) ->
  match ret with
  | Joint.GL G L => Q G L
  | Joint.GLLog G L _ => Q G L
  end.
Proof.
  unfold Joint.bcd. rewrite run_bind.
  destruct (run h (solve_L G0)) as [t0 [L0 | e]] eqn:E0; [ | discriminate ].
  rewrite run_bind. fold while.
  destruct (run h (while fuel _)) as [t1 [[s1 | ] | e]] eqn:E1; simpl;
    try discriminate.
  intros E. injection E as _ <-.
  assert (HQ : Q (Joint.st_G s1) (Joint.st_L s1)).
  { eapply bcd_while_Q; [ | exact E1 ]. simpl. eapply solve_L_Q. exact E0. }
  unfold Joint.bcd_return. destruct log; exact HQ.
Qed.

End BcdFacts.

Lemma run_bcd_no_rounds (solve_G : mat -> mat -> prog mat) (solve_L : mat -> prog mat)
    (loss : mat -> mat -> fl) (numItermax : Z) (stopThr : R) (log : bool)
    (h : oracle) (fuel : nat) (G L : mat) (t : list event) :
  (numItermax <= 0)%Z ->
  run h (solve_L G) = (t, Ok L) ->
  run h (Joint.bcd solve_G solve_L loss numItermax stopThr log fuel G)
  = (t, Ok (Some (if log then Joint.GLLog G L (Joint.MapLog [] [loss L G])
                  else Joint.GL G L))).
Proof.
  intros Hle EL. unfold Joint.bcd. rewrite run_bind, EL.
  destruct (Z.gtb_spec numItermax 0) as [Hgt | _]; [ lia | ].
  destruct fuel; simpl; rewrite app_nil_r; reflexivity.
Qed.

(** C5: with [numItermax <= 0] a joint estimator calls [dist] and [emd] (after
    [kernel] for the kernel one), solves once for [L] on the coupling of
    [emd], and returns that coupling and that [L]; no call of [cg] is made. *)
Theorem joint_no_rounds (h : oracle) (xs xt : mat) (mu eta : R)
    (kerneltype : String.string) (sigma : R) (bias : bool)
    (numItermax nin : Z) (thr stopThr : R) (log : bool) :
  (numItermax <= 0)%Z ->
  (forall D G L c,
     on_call h (Dist xs xt) = Ok D ->
     let M := smul (of_nat (Joint.ns xs)) D in
     on_call h (Emd (Joint.unif (Joint.ns xs)) (Joint.unif (Joint.nt xt)) M) = Ok G ->
     run h (Joint.solve_L xs xt eta bias G) = ([EvCall c], Ok L) ->
     run h (Joint.joint_OT_mapping_linear xs xt mu eta bias numItermax nin thr
              stopThr log)
     = ([EvCall (Dist xs xt);
         EvCall (Emd (Joint.unif (Joint.ns xs)) (Joint.unif (Joint.nt xt)) M);
         EvCall c],
        Ok (Some (if log
                  then Joint.GLLog G L
                         (Joint.MapLog [] [Joint.loss xs xt mu eta bias M L G])
                  else Joint.GL G L))))
  /\ (forall K D G L c,
        on_call h (Kernel xs xs kerneltype sigma) = Ok K ->
        on_call h (Dist xs xt) = Ok D ->
        let M := smul (of_nat (Joint.ns xs)) D in
        on_call h (Emd (Joint.unif (Joint.ns xs)) (Joint.unif (Joint.nt xt)) M) = Ok G ->
        run h (Joint.ksolve_L xs xt eta bias K G) = ([EvCall c], Ok L) ->
        run h (Joint.joint_OT_mapping_kernel xs xt mu eta kerneltype sigma bias
                 numItermax nin thr stopThr log)
        = ([EvCall (Kernel xs xs kerneltype sigma);
            EvCall (Dist xs xt);
            EvCall (Emd (Joint.unif (Joint.ns xs)) (Joint.unif (Joint.nt xt)) M);
            EvCall c],
           Ok (Some (if log
                     then Joint.GLLog G L
                            (Joint.MapLog [] [Joint.kloss xs xt mu eta bias K M L G])
                     else Joint.GL G L)))).
Proof.
  intros Hle. split.
  - intros D G L c ED M EG EL.
    unfold Joint.joint_OT_mapping_linear, Joint.joint_OT_mapping_linear_fuel.
    cbn [bind call run]. rewrite ED. fold M. rewrite EG.
    rewrite (run_bcd_no_rounds _ _ _ _ _ _ _ _ _ _ _ Hle EL). reflexivity.
  - intros K D G L c EK ED M EG EL.
    unfold Joint.joint_OT_mapping_kernel, Joint.joint_OT_mapping_kernel_fuel.
    cbn [bind call run]. rewrite EK, ED. fold M. rewrite EG.
    rewrite (run_bcd_no_rounds _ _ _ _ _ _ _ _ _ _ _ Hle EL). reflexivity.
Qed.

Lemma joint_no_rounds_witness :
  let M := smul (of_nat 2) Ex.T in
  let xst := smul (of_nat 2) (mdot Ex.T Ex.M) in
  run Ex.h (Joint.joint_OT_mapping_linear Ex.M Ex.M 1 (1 / 1000) false 0 10
              (1 / 1000) (1 / 1000) false)
  = ([EvCall (Dist Ex.M Ex.M);
      EvCall (Emd (Joint.unif 2) (Joint.unif 2) M);
      EvCall (Solve (madd (Joint.xstxs Ex.M false)
                          (smul (Fin (1 / 1000)) (Joint.I Ex.M false)))
                    (madd (mdot (transpose Ex.M) xst)
                          (smul (Fin (1 / 1000)) (Joint.I0 Ex.M false))))],
     Ok (Some (Joint.GL Ex.T Ex.T)))
  /\ run Ex.h (Joint.joint_OT_mapping_kernel Ex.M Ex.M 1 (1 / 1000)
                 String.EmptyString 1 false 0 10 (1 / 1000) (1 / 1000) false)
     = ([EvCall (Kernel Ex.M Ex.M String.EmptyString 1);
         EvCall (Dist Ex.M Ex.M);
         EvCall (Emd (Joint.unif 2) (Joint.unif 2) M);
         EvCall (Solve (Joint.K0 Ex.M (1 / 1000) false Ex.T) xst)],
        Ok (Some (Joint.GL Ex.T Ex.T))).
Proof.
  intros M xst.
  pose proof (joint_no_rounds Ex.h Ex.M Ex.M 1 (1 / 1000) String.EmptyString 1
                false 0 10 (1 / 1000) (1 / 1000) false (Z.le_refl 0)) as [Hl Hk].
  split.
  - apply (Hl Ex.T Ex.T Ex.T); reflexivity.
  - apply (Hk Ex.T Ex.T Ex.T Ex.T); reflexivity.
Defined.

(** ** The coupling update *)

Lemma py_inv_ok (mu : R) : mu <> 0%R -> Joint.py_inv mu = Ok (1 / mu)%R.
Proof.
  intros Hmu. unfold Joint.py_inv. destruct (Req_dec_T mu 0); [ contradiction | reflexivity ].
Qed.

Lemma solve_G_cg (X1 xt : mat) (ns : nat) (a b : vec) (M : mat) (mu : R)
    (nin : Z) (thr : R) (L G0 : mat) :
  mu <> 0%R ->
  Joint.solve_G X1 xt ns a b M mu nin thr L G0
  = call (Cg a b M (1 / mu) (Words.fit_loss X1 xt ns L) (Words.fit_grad X1 xt ns L)
            (Some G0) nin thr).
Proof.
  intros Hmu. unfold Joint.solve_G. rewrite (py_inv_ok mu Hmu). reflexivity.
Qed.

Lemma solve_G_zero (X1 xt : mat) (ns : nat) (a b : vec) (M : mat)
    (nin : Z) (thr : R) (L G0 : mat) :
  Joint.solve_G X1 xt ns a b M 0 nin thr L G0 = Raise ZeroDivisionError.
Proof.
  unfold Joint.solve_G, Joint.py_inv.
  destruct (Req_dec_T 0 0); [ reflexivity | congruence ].
Qed.

Lemma trace_solve_G (h : oracle) (X1 xt : mat) (ns : nat) (a b : vec) (M : mat)
    (mu : R) (nin : Z) (thr : R) (L G0 : mat) :
  Forall (Words.joint_event X1 xt ns a b M mu nin thr)
    (fst (run h (Joint.solve_G X1 xt ns a b M mu nin thr L G0))).
Proof.
  destruct (Req_dec_T mu 0) as [-> | Hmu].
  - rewrite solve_G_zero. constructor.
  - rewrite (solve_G_cg _ _ _ _ _ _ _ _ _ _ _ Hmu).
    assert (Hev : Words.joint_event X1 xt ns a b M mu nin thr
                    (EvCall (Cg a b M (1 / mu) (Words.fit_loss X1 xt ns L)
                               (Words.fit_grad X1 xt ns L) (Some G0) nin thr))).
    { simpl. repeat split; try reflexivity.
      - exists G0. reflexivity.
      - exists L. intros G. split; reflexivity. }
    simpl. destruct (on_call h _); simpl; constructor; auto.
Qed.

Lemma Forall_trace_bind {A B : Type} (P : event -> Prop) (h : oracle)
    (p : prog A) (f : A -> prog B) :
  Forall P (fst (run h p)) ->
  (forall x, Forall P (fst (run h (f x)))) ->
  Forall P (fst (run h (bind p f))).
Proof.
  intros Hp Hf. rewrite run_bind.
  destruct (run h p) as [t [x | e]]; simpl in *.
  - specialize (Hf x). destruct (run h (f x)) as [t' r]. simpl in *.
    apply Forall_app. split; assumption.
  - exact Hp.
Qed.

Section BcdTrace.

Variables (solve_G : mat -> mat -> prog mat) (solve_L : mat -> prog mat).
Variable loss : mat -> mat -> fl.
Variables (numItermax : Z) (stopThr : R) (log : bool).
Variables (h : oracle) (P : event -> Prop).

Hypothesis solve_G_P : forall L G, Forall P (fst (run h (solve_G L G))).
Hypothesis solve_L_P : forall G, Forall P (fst (run h (solve_L G))).

Lemma bcd_round_trace (s : Joint.bcd_state) :
  Forall P (fst (run h (Joint.bcd_round solve_G solve_L loss numItermax stopThr s))).
Proof.
  unfold Joint.bcd_round.
  apply Forall_trace_bind; [ apply solve_G_P | intros G ].
  apply Forall_trace_bind; [ apply solve_L_P | intros L ].
  apply Forall_trace_bind; [ rewrite run_lift; constructor | intros delta ].
  constructor.
Qed.

Lemma bcd_while_trace (fuel : nat) (s : Joint.bcd_state) :
  Forall P (fst (run h (Joint.bcd_while solve_G solve_L loss numItermax stopThr
                          fuel s))).
Proof.
  revert s. induction fuel as [ | fuel IH]; intros s; simpl.
  - destruct (Joint.st_loop s); constructor.
  - destruct (Joint.st_loop s); [ | constructor ].
    apply Forall_trace_bind; [ apply bcd_round_trace | exact IH ].
Qed.

Lemma bcd_trace (fuel : nat) (G : mat) :
  Forall P (fst (run h (Joint.bcd solve_G solve_L loss numItermax stopThr log
                          fuel G))).
Proof.
  unfold Joint.bcd.
  apply Forall_trace_bind; [ apply solve_L_P | intros L ].
  apply Forall_trace_bind; [ apply bcd_while_trace | intros s ].
  constructor.
Qed.

End BcdTrace.

Lemma trace_call_solve (h : oracle) (P : event -> Prop) (A B : mat) :
  P (EvCall (Solve A B)) -> Forall P (fst (run h (call (Solve A B)))).
Proof.
  intros HP. simpl. destruct (on_call h _); simpl; constructor; auto.
Qed.

Section BcdRounds.

Variables (h : oracle) (update : mat -> mat -> mcall) (system : mat -> mcall).
Variables (solve_G : mat -> mat -> prog mat) (solve_L : mat -> prog mat).
Variable loss : mat -> mat -> fl.
Variables (numItermax : Z) (stopThr : R) (log : bool).
Hypothesis HG : forall L G, solve_G L G = call (update L G).
Hypothesis HL : forall G, solve_L G = call (system G).

Lemma run_bcd_round_calls (s : Joint.bcd_state) :
  run h (Joint.bcd_round solve_G solve_L loss numItermax stopThr s)
  = let c := update (Joint.st_L s) (Joint.st_G s) in
    match on_call h c with
    | Err e => ([EvCall c], Err e)
    | Ok G =>
        match on_call h (system G) with
        | Err e => ([EvCall c; EvCall (system G)], Err e)
        | Ok L =>
            let vloss := (Joint.st_vloss s ++ [loss L G])%list in
            match Joint.rel_decrease vloss with
            | Err e => ([EvCall c; EvCall (system G)], Err e)
            | Ok delta =>
                ([EvCall c; EvCall (system G)],
                 Ok (Joint.BcdState
                       (if flt delta (Fin stopThr) then false
                        else if (Joint.st_it s + 1 >=? numItermax)%Z then false
                             else Joint.st_loop s)
                       (Joint.st_it s + 1) G L vloss))
            end
        end
    end.
Proof.
  unfold Joint.bcd_round. rewrite run_bind, HG. cbv zeta.
  cbn [call run]. destruct (on_call h _) as [G | e]; [ | reflexivity ].
  cbn [run]. rewrite run_bind, HL. cbn [call run].
  destruct (on_call h (system G)) as [L | e]; [ | reflexivity ].
  cbn [run]. rewrite run_bind, run_lift.
  destruct (Joint.rel_decrease _) as [delta | e]; reflexivity.
Qed.

Lemma bcd_while_rounds (fuel : nat) (s : Joint.bcd_state) :
  exists n,
    n <= fuel
    /\ fst (run h (Joint.bcd_while solve_G solve_L loss numItermax stopThr fuel s))
       = Words.joint_rounds h update system n (Joint.st_G s) (Joint.st_L s).
Proof.
  revert s. induction fuel as [ | fuel IH]; intros s.
  - exists 0. split; [ lia | ]. cbn [Joint.bcd_while].
    destruct (Joint.st_loop s); reflexivity.
  - cbn [Joint.bcd_while]. destruct (Joint.st_loop s).
    + rewrite run_bind, run_bcd_round_calls. cbv zeta.
      destruct (on_call h (update _ _)) as [G | e] eqn:EG.
      * destruct (on_call h (system G)) as [L | e] eqn:EL.
        -- destruct (Joint.rel_decrease _) as [delta | e].
           ++ match goal with
              | |- context [run h (Joint.bcd_while _ _ _ _ _ fuel ?s')] =>
                  destruct (IH s') as [n [Hn Ht]];
                  destruct (run h (Joint.bcd_while solve_G solve_L loss
                                     numItermax stopThr fuel s')) as [t r]
              end.
              exists (S n). split; [ lia | ].
              cbn [fst Joint.st_G Joint.st_L] in *.
              cbn [Words.joint_rounds]. rewrite EG, EL, <- Ht. reflexivity.
           ++ exists 1. split; [ lia | ].
              cbn [fst Words.joint_rounds]. rewrite EG, EL. reflexivity.
        -- exists 1. split; [ lia | ].
           cbn [fst Words.joint_rounds]. rewrite EG, EL. reflexivity.
      * exists 1. split; [ lia | ].
        cbn [fst Words.joint_rounds]. rewrite EG. reflexivity.
    + exists 0. split; [ lia | reflexivity ].
Qed.

Lemma bcd_rounds (fuel : nat) (G L : mat) :
  on_call h (system G) = Ok L ->
  exists n,
    n <= fuel
    /\ fst (run h (Joint.bcd solve_G solve_L loss numItermax stopThr log fuel G))
       = EvCall (system G) :: Words.joint_rounds h update system n G L.
Proof.
  intros EL. unfold Joint.bcd. rewrite run_bind, HL. cbn [call run].
  rewrite EL. cbn [run]. rewrite run_bind.
  match goal with
  | |- context [run h (Joint.bcd_while _ _ _ _ _ fuel ?s)] =>
      destruct (bcd_while_rounds fuel s) as [n [Hn Ht]];
      destruct (run h (Joint.bcd_while solve_G solve_L loss numItermax stopThr
                         fuel s)) as [t [o | e]]
  end; exists n; (split; [ exact Hn | ]);
    cbn [fst Joint.st_G Joint.st_L] in Ht; cbn; rewrite ?app_nil_r, Ht;
    reflexivity.
Qed.

End BcdRounds.

(** C2, amended: with [L] fixed the coupling is updated by one call of the
    conditional gradient [cg] on [(a, b, M)], with [1 / mu] as its weight,
    [f(gamma) = ||X1 L - ns gamma Xt||^2], the gradient
    [-2 ns (X1 L - ns gamma Xt) Xt^T], the previous coupling as [G0] and the
    inner budget; apart from [kernel], [dist] and [emd] at the start, a joint
    estimator only makes such calls and linear solves: never [gcg], never
    [sinkhorn]. After the set-up and the first solve for [L], the calls of a
    run are those of at most [numItermax] rounds, each of which updates the
    coupling by [cg] with the mapping of the latest solve held fixed, started
    from the coupling of the latest update ([emd]'s in the first round), and
    then solves for the mapping of the new coupling. *)
Theorem coupling_update_is_cg (h : oracle) (xs xt : mat) (mu eta : R)
    (kerneltype : String.string) (sigma : R) (bias : bool)
    (numItermax nin : Z) (thr stopThr : R) (log : bool) (K D : mat) :
  mu <> 0%R ->
  on_call h (Kernel xs xs kerneltype sigma) = Ok K ->
  on_call h (Dist xs xt) = Ok D ->
  let ns := Joint.ns xs in
  let a := Joint.unif ns in
  let b := Joint.unif (Joint.nt xt) in
  let M := smul (of_nat ns) D in
  (forall X1 L G0,
     Joint.solve_G X1 xt ns a b M mu nin thr L G0
     = call (Cg a b M (1 / mu) (Words.fit_loss X1 xt ns L)
               (Words.fit_grad X1 xt ns L) (Some G0) nin thr))
  /\ (exists t,
        trace h (Joint.joint_OT_mapping_linear xs xt mu eta bias numItermax nin
                   thr stopThr log)
        = EvCall (Dist xs xt) :: EvCall (Emd a b M) :: t
        /\ Forall (Words.joint_event (Joint.xs1 xs bias) xt ns a b M mu nin thr) t)
  /\ (exists t,
        trace h (Joint.joint_OT_mapping_kernel xs xt mu eta kerneltype sigma bias
                   numItermax nin thr stopThr log)
        = EvCall (Kernel xs xs kerneltype sigma) :: EvCall (Dist xs xt)
            :: EvCall (Emd a b M) :: t
        /\ Forall (Words.joint_event (Joint.K1 bias K) xt ns a b M mu nin thr) t)
  /\ (forall G L,
        on_call h (Emd a b M) = Ok G ->
        on_call h (Words.linear_system xs xt eta bias G) = Ok L ->
        exists n,
          n <= Z.to_nat numItermax
          /\ trace h (Joint.joint_OT_mapping_linear xs xt mu eta bias numItermax
                        nin thr stopThr log)
             = EvCall (Dist xs xt) :: EvCall (Emd a b M)
                 :: EvCall (Words.linear_system xs xt eta bias G)
                 :: Words.joint_rounds h
                      (Words.cg_update (Joint.xs1 xs bias) xt ns a b M mu nin thr)
                      (Words.linear_system xs xt eta bias) n G L)
  /\ (forall G L,
        on_call h (Emd a b M) = Ok G ->
        on_call h (Words.kernel_system xs xt eta bias K G) = Ok L ->
        exists n,
          n <= Z.to_nat numItermax
          /\ trace h (Joint.joint_OT_mapping_kernel xs xt mu eta kerneltype sigma
                        bias numItermax nin thr stopThr log)
             = EvCall (Kernel xs xs kerneltype sigma) :: EvCall (Dist xs xt)
                 :: EvCall (Emd a b M)
                 :: EvCall (Words.kernel_system xs xt eta bias K G)
                 :: Words.joint_rounds h
                      (Words.cg_update (Joint.K1 bias K) xt ns a b M mu nin thr)
                      (Words.kernel_system xs xt eta bias K) n G L).
Proof.
  intros Hmu EK ED ns a b M. split; [ | split; [ | split; [ | split ] ] ].
  - intros X1 L G0. apply solve_G_cg. exact Hmu.
  - unfold trace, Joint.joint_OT_mapping_linear, Joint.joint_OT_mapping_linear_fuel.
    cbn [bind call run]. rewrite ED. fold ns a b M.
    destruct (on_call h (Emd a b M)) as [G | e].
    + pose proof (bcd_trace
                    (Joint.solve_G (Joint.xs1 xs bias) xt ns a b M mu nin thr)
                    (Joint.solve_L xs xt eta bias)
                    (Joint.loss xs xt mu eta bias M) numItermax stopThr log h
                    (Words.joint_event (Joint.xs1 xs bias) xt ns a b M mu nin thr)
                    (trace_solve_G h _ _ _ _ _ _ _ _ _)
                    (fun G => trace_call_solve h _ _ _ Logic.I)
                    (Z.to_nat numItermax) G) as Ht.
      destruct (run h _) as [t r]. simpl in *. exists t. split; [ reflexivity | exact Ht ].
    + exists []. split; [ reflexivity | constructor ].
  - unfold trace, Joint.joint_OT_mapping_kernel, Joint.joint_OT_mapping_kernel_fuel.
    cbn [bind call run]. rewrite EK, ED. fold ns a b M.
    destruct (on_call h (Emd a b M)) as [G | e].
    + assert (HL : forall G, Forall (Words.joint_event (Joint.K1 bias K) xt ns a b
                                       M mu nin thr)
                               (fst (run h (Joint.ksolve_L xs xt eta bias K G)))).
      { intros G'. unfold Joint.ksolve_L, Joint.solve_L_bias, Joint.solve_L_nobias.
        destruct bias; apply trace_call_solve; exact Logic.I. }
      pose proof (bcd_trace
                    (Joint.solve_G (Joint.K1 bias K) xt ns a b M mu nin thr)
                    (Joint.ksolve_L xs xt eta bias K)
                    (Joint.kloss xs xt mu eta bias K M) numItermax stopThr log h
                    (Words.joint_event (Joint.K1 bias K) xt ns a b M mu nin thr)
                    (trace_solve_G h _ _ _ _ _ _ _ _ _) HL
                    (Z.to_nat numItermax) G) as Ht.
      destruct (run h _) as [t r]. simpl in *. exists t. split; [ reflexivity | exact Ht ].
    + exists []. split; [ reflexivity | constructor ].
  - intros G L EG EL.
    unfold trace, Joint.joint_OT_mapping_linear, Joint.joint_OT_mapping_linear_fuel.
    cbn [bind call run]. rewrite ED. fold ns a b M. rewrite EG.
    destruct (bcd_rounds h
                (Words.cg_update (Joint.xs1 xs bias) xt ns a b M mu nin thr)
                (Words.linear_system xs xt eta bias)
                (Joint.solve_G (Joint.xs1 xs bias) xt ns a b M mu nin thr)
                (Joint.solve_L xs xt eta bias)
                (Joint.loss xs xt mu eta bias M) numItermax stopThr log
                (fun L' G' => solve_G_cg _ _ _ _ _ _ _ _ _ L' G' Hmu)
                (fun G' => eq_refl) (Z.to_nat numItermax) G L EL)
      as [n [Hn Ht]].
    destruct (run h _) as [t r]. cbn [fst] in *. exists n.
    split; [ exact Hn | ]. rewrite Ht. reflexivity.
  - intros G L EG EL.
    unfold trace, Joint.joint_OT_mapping_kernel, Joint.joint_OT_mapping_kernel_fuel.
    cbn [bind call run]. rewrite EK, ED. fold ns a b M. rewrite EG.
    assert (HL : forall G', Joint.ksolve_L xs xt eta bias K G'
                            = call (Words.kernel_system xs xt eta bias K G')).
    { intros G'. unfold Joint.ksolve_L, Words.kernel_system,
        Joint.solve_L_bias, Joint.solve_L_nobias.
      destruct bias; reflexivity. }
    destruct (bcd_rounds h
                (Words.cg_update (Joint.K1 bias K) xt ns a b M mu nin thr)
                (Words.kernel_system xs xt eta bias K)
                (Joint.solve_G (Joint.K1 bias K) xt ns a b M mu nin thr)
                (Joint.ksolve_L xs xt eta bias K)
                (Joint.kloss xs xt mu eta bias K M) numItermax stopThr log
                (fun L' G' => solve_G_cg _ _ _ _ _ _ _ _ _ L' G' Hmu)
                HL (Z.to_nat numItermax) G L EL)
      as [n [Hn Ht]].
    destruct (run h _) as [t r]. cbn [fst] in *. exists n.
    split; [ exact Hn | ]. rewrite Ht. reflexivity.
Qed.

Lemma coupling_update_is_cg_witness :
  let a := Joint.unif 2 in
  let M := smul (of_nat 2) Ex.T in
  (forall X1 L G0,
     Joint.solve_G X1 Ex.M 2 a a M 1 10 (1 / 1000) L G0
     = call (Cg a a M (1 / 1) (Words.fit_loss X1 Ex.M 2 L)
               (Words.fit_grad X1 Ex.M 2 L) (Some G0) 10 (1 / 1000)))
  /\ (exists t,
        trace Ex.h (Joint.joint_OT_mapping_linear Ex.M Ex.M 1 (1 / 1000) false 3 10
                      (1 / 1000) (1 / 1000) false)
        = EvCall (Dist Ex.M Ex.M) :: EvCall (Emd a a M) :: t
        /\ Forall (Words.joint_event Ex.M Ex.M 2 a a M 1 10 (1 / 1000)) t)
  /\ (exists t,
        trace Ex.h (Joint.joint_OT_mapping_kernel Ex.M Ex.M 1 (1 / 1000)
                      String.EmptyString 1 false 3 10 (1 / 1000) (1 / 1000) false)
        = EvCall (Kernel Ex.M Ex.M String.EmptyString 1) :: EvCall (Dist Ex.M Ex.M)
            :: EvCall (Emd a a M) :: t
        /\ Forall (Words.joint_event Ex.T Ex.M 2 a a M 1 10 (1 / 1000)) t)
  /\ (forall G L,
        on_call Ex.h (Emd a a M) = Ok G ->
        on_call Ex.h (Words.linear_system Ex.M Ex.M (1 / 1000) false G) = Ok L ->
        exists n,
          n <= 3
          /\ trace Ex.h (Joint.joint_OT_mapping_linear Ex.M Ex.M 1 (1 / 1000) false
                           3 10 (1 / 1000) (1 / 1000) false)
             = EvCall (Dist Ex.M Ex.M) :: EvCall (Emd a a M)
                 :: EvCall (Words.linear_system Ex.M Ex.M (1 / 1000) false G)
                 :: Words.joint_rounds Ex.h
                      (Words.cg_update Ex.M Ex.M 2 a a M 1 10 (1 / 1000))
                      (Words.linear_system Ex.M Ex.M (1 / 1000) false) n G L)
  /\ (forall G L,
        on_call Ex.h (Emd a a M) = Ok G ->
        on_call Ex.h (Words.kernel_system Ex.M Ex.M (1 / 1000) false Ex.T G) = Ok L ->
        exists n,
          n <= 3
          /\ trace Ex.h (Joint.joint_OT_mapping_kernel Ex.M Ex.M 1 (1 / 1000)
                           String.EmptyString 1 false 3 10 (1 / 1000) (1 / 1000)
                           false)
             = EvCall (Kernel Ex.M Ex.M String.EmptyString 1)
                 :: EvCall (Dist Ex.M Ex.M) :: EvCall (Emd a a M)
                 :: EvCall (Words.kernel_system Ex.M Ex.M (1 / 1000) false Ex.T G)
                 :: Words.joint_rounds Ex.h
                      (Words.cg_update Ex.T Ex.M 2 a a M 1 10 (1 / 1000))
                      (Words.kernel_system Ex.M Ex.M (1 / 1000) false Ex.T) n G L).
Proof.
  apply (coupling_update_is_cg Ex.h Ex.M Ex.M 1 (1 / 1000) String.EmptyString 1
           false 3 10 (1 / 1000) (1 / 1000) false Ex.T Ex.T).
  - lra.
  - reflexivity.
  - reflexivity.
Defined.

Lemma run_bcd_round (solve_G : mat -> mat -> prog mat) (solve_L : mat -> prog mat)
    (loss : mat -> mat -> fl) (numItermax : Z) (stopThr : R) (h : oracle)
    (s : Joint.bcd_state) (tG tL : list event) (G L : mat) (delta : fl) :
  run h (solve_G (Joint.st_L s) (Joint.st_G s)) = (tG, Ok G) ->
  run h (solve_L G) = (tL, Ok L) ->
  Joint.rel_decrease (Joint.st_vloss s ++ [loss L G]) = Ok delta ->
  run h (Joint.bcd_round solve_G solve_L loss numItermax stopThr s)
  = ((tG ++ tL)%list,
     Ok (Joint.BcdState
           (if flt delta (Fin stopThr) then false
            else if (Joint.st_it s + 1 >=? numItermax)%Z then false
                 else Joint.st_loop s)
           (Joint.st_it s + 1) G L (Joint.st_vloss s ++ [loss L G]))).
Proof.
  intros EG EL Ed. unfold Joint.bcd_round.
  rewrite run_bind, EG, run_bind, EL, run_bind, run_lift, Ed. simpl.
  rewrite app_nil_r. reflexivity.
Qed.

(** C2, as stated, fails: on the sample data with one round allowed, the
    coupling is updated by a call of [cg], between two linear solves, and the
    run has no call of [gcg] or [sinkhorn]. *)
Lemma coupling_update_not_gcg :
  let a := Joint.unif 2 in
  let M := smul (of_nat 2) Ex.T in
  exists A0 B0 f df A1 B1 r,
    run Ex.h (Joint.joint_OT_mapping_linear Ex.M Ex.M 1 (1 / 1000) false 1 10
                (1 / 1000) (1 / 1000) false)
    = ([EvCall (Dist Ex.M Ex.M);
        EvCall (Emd a a M);
        EvCall (Solve A0 B0);
        EvCall (Cg a a M (1 / 1) f df (Some Ex.T) 10 (1 / 1000));
        EvCall (Solve A1 B1)],
       Ok r).
Proof.
  intros a M.
  unfold Joint.joint_OT_mapping_linear, Joint.joint_OT_mapping_linear_fuel.
  cbn [bind call run Ex.h on_call]. fold (call (Dist Ex.M Ex.M)).
  change (Joint.ns Ex.M) with 2%nat. change (Joint.nt Ex.M) with 2%nat.
  fold a M. unfold Joint.bcd.
  change (Z.to_nat 1) with 1%nat.
  rewrite run_bind. cbn [Joint.solve_L call run Ex.h on_call].
  change (1 >? 0)%Z with true. cbn iota.
  cbn [Joint.bcd_while Joint.st_loop].
  rewrite !run_bind.
  erewrite run_bcd_round.
  2:{ cbn [Joint.st_L Joint.st_G]. rewrite solve_G_cg by lra.
      cbn [call run Ex.h on_call]. reflexivity. }
  2:{ cbn [Joint.solve_L call run Ex.h on_call]. reflexivity. }
  2:{ cbn [Joint.st_vloss]. reflexivity. }
  cbn [Joint.st_loop Joint.st_it].
  change (0 + 1 >=? 1)%Z with true. cbn iota. rewrite if_same. cbn.
  do 7 eexists. reflexivity.
Qed.

(** C8: after every round of either estimator the loop flag is decided by the
    quotient [|v1 - v2| / |v2|] of the last two recorded losses, computed by
    plain division whatever [v2] is; when the previous loss [v2] is zero the
    quotient is infinite or NaN, nothing is put in its place, the test
    against [stopThr] is false and only the budget can end the loop. *)
Theorem stop_test_unguarded (solve_G : mat -> mat -> prog mat)
    (solve_L : mat -> prog mat) (loss : mat -> mat -> fl)
    (numItermax : Z) (stopThr : R) (h : oracle)
    (s s' : Joint.bcd_state) (t : list event) :
  run h (Joint.bcd_round solve_G solve_L loss numItermax stopThr s) = (t, Ok s') ->
  exists l v2 v1,
    Joint.st_vloss s = (l ++ [v2])%list
    /\ Joint.st_vloss s' = ((l ++ [v2]) ++ [v1])%list
    /\ (let q := fdiv (fabs (fsub v1 v2)) (fabs v2) in
        Joint.rel_decrease (Joint.st_vloss s') = Ok q
        /\ Joint.st_loop s'
           = (if flt q (Fin stopThr) then false
              else if (Joint.st_it s' >=? numItermax)%Z then false
                   else Joint.st_loop s)
        /\ (v2 = Fin 0 ->
            ~ finite q
            /\ Joint.st_loop s'
               = (if (Joint.st_it s' >=? numItermax)%Z then false
                  else Joint.st_loop s))).
Proof.
  intros Er.
  destruct (bcd_round_inv solve_G solve_L loss numItermax stopThr h s s' t Er)
    as [tG [tL [delta [_ [_ [_ [_ [Hv [Hd Hloop]]]]]]]]].
  destruct (rel_decrease_last _ _ Hd) as [l [v2 [v1 [El Eq]]]].
  rewrite Hv in El. apply app_inj_tail in El. destruct El as [El E1].
  exists l, v2, v1. split; [ exact El | ]. split; [ rewrite Hv, El, E1; reflexivity | ].
  cbv zeta. rewrite <- Eq. split; [ exact Hd | ]. split; [ exact Hloop | ].
  intros ->. destruct (fdiv_by_zero (fsub v1 (Fin 0))) as [Hnf Hlt].
  rewrite <- Eq in Hnf, Hlt. split; [ exact Hnf | ].
  rewrite Hloop, Hlt. reflexivity.
Qed.

Lemma stop_test_unguarded_witness :
  let a := Joint.unif 2 in
  let M := smul (of_nat 2) Ex.T in
  let s := Joint.BcdState true 0 Ex.T Ex.T [Fin 0] in
  exists s' l v2 v1,
    Joint.st_vloss s = (l ++ [v2])%list
    /\ Joint.st_vloss s' = ((l ++ [v2]) ++ [v1])%list
    /\ (let q := fdiv (fabs (fsub v1 v2)) (fabs v2) in
        Joint.rel_decrease (Joint.st_vloss s') = Ok q
        /\ Joint.st_loop s'
           = (if flt q (Fin (1 / 1000)) then false
              else if (Joint.st_it s' >=? 5)%Z then false
                   else Joint.st_loop s)
        /\ (v2 = Fin 0 ->
            ~ finite q
            /\ Joint.st_loop s'
               = (if (Joint.st_it s' >=? 5)%Z then false else Joint.st_loop s))).
Proof.
  intros a M s. eexists.
  eapply (stop_test_unguarded
            (Joint.solve_G Ex.M Ex.M 2 a a M 1 10 (1 / 1000))
            (Joint.solve_L Ex.M Ex.M (1 / 1000) false)
            (Joint.loss Ex.M Ex.M 1 (1 / 1000) false M) 5 (1 / 1000) Ex.h s).
  eapply run_bcd_round.
  - unfold s. cbn [Joint.st_L Joint.st_G]. rewrite solve_G_cg by lra.
    cbn [call run Ex.h on_call]. reflexivity.
  - cbn [Joint.solve_L call run Ex.h on_call]. reflexivity.
  - reflexivity.
Defined.

(** ** The L1-L2 penalty *)

Lemma truthy_is_zero (x : fl) : truthy x = negb (is_zero x).
Proof.
  destruct x as [a | s | ]; simpl; try reflexivity.
  destruct (Req_dec_T a 0); reflexivity.
Qed.

Lemma set_nth_map_seq {A : Type} (g : nat -> A) (n i : nat) (x : A) :
  i < n ->
  set_nth i x (map g (seq 0 n)) = map (fun j => if j =? i then x else g j) (seq 0 n).
Proof.
  intros Hi. apply nth_ext with (d := x) (d' := x).
  - rewrite length_set_nth, !length_map. reflexivity.
  - intros k Hk. rewrite length_set_nth, length_map, length_seq in Hk.
    rewrite nth_set_nth by (rewrite length_map, length_seq; exact Hi).
    rewrite !nth_map_seq by exact Hk. reflexivity.
Qed.

Section Grid.

Variables n nc : nat.

(** The array whose entry [(r, j)] is [g r j]. *)
Let mk (g : nat -> nat -> fl) : mat :=
  map (fun r => map (fun j => g r j) (seq 0 nc)) (seq 0 n).

Lemma mk_ext (g g' : nat -> nat -> fl) :
  (forall r j, r < n -> j < nc -> g r j = g' r j) -> mk g = mk g'.
Proof.
  intros H. unfold mk. apply map_ext_in. intros r Hr. apply in_seq in Hr.
  apply map_ext_in. intros j Hj. apply in_seq in Hj. apply H; lia.
Qed.

Lemma set_entry_mk (g : nat -> nat -> fl) (r i : nat) (x : fl) :
  r < n -> i < nc ->
  L1l2.set_entry (mk g) r i x
  = mk (fun r' j => if (r' =? r) && (j =? i) then x else g r' j).
Proof.
  intros Hr Hi. unfold L1l2.set_entry, mk.
  rewrite (@nth_map_seq vec _ n r []) by exact Hr.
  rewrite (set_nth_map_seq (fun j => g r j) nc i x Hi).
  rewrite (@set_nth_map_seq vec _ n r _ Hr).
  apply map_ext_in. intros r' Hr'.
  destruct (Nat.eqb_spec r' r) as [-> | Hne]; simpl.
  - reflexivity.
  - reflexivity.
Qed.

Lemma set_entries_mk (phi : nat -> fl) (i : nat) (rs : list nat)
    (g : nat -> nat -> fl) :
  i < nc -> (forall r, In r rs -> r < n) ->
  L1l2.set_entries (mk g) rs i (map phi rs)
  = mk (fun r j => if (j =? i) && existsb (Nat.eqb r) rs then phi r else g r j).
Proof.
  intros Hi. revert g. induction rs as [ | r rs IH]; intros g Hrs; simpl.
  - apply mk_ext. intros r j _ _. rewrite andb_false_r. reflexivity.
  - rewrite set_entry_mk by (auto; apply Hrs; simpl; auto).
    rewrite IH by (intros; apply Hrs; simpl; auto).
    apply mk_ext. intros r' j Hr' Hj.
    destruct (Nat.eqb_spec j i) as [-> | Hne]; simpl.
    + destruct (Nat.eqb_spec r' r) as [-> | Hne']; simpl.
      * destruct (existsb _ rs); reflexivity.
      * reflexivity.
    + rewrite andb_false_r. reflexivity.
Qed.

Lemma zeros_mk : zeros n nc = mk (fun _ _ => zero).
Proof.
  unfold zeros, full, mk. rewrite (repeat_map_seq (repeat zero nc) n).
  apply map_ext. intros r. apply repeat_map_seq.
Qed.

End Grid.

Section L1l2Words.

Variables (labels : list Z) (G : mat).
Hypothesis Hlab : length labels = nrows G.

Let lab (r : nat) : Z := nth r labels 0%Z.
Let T (r j : nat) : fl := Words.df_entry labels G r j.
Let ginv (i : nat) (done : list Z) (r j : nat) : fl :=
  if (j <? i) || ((j =? i) && existsb (Z.eqb (lab r)) done) then T r j else zero.
Let grid (g : nat -> nat -> fl) : mat :=
  map (fun r => map (fun j => g r j) (seq 0 (ncols G))) (seq 0 (nrows G)).

Lemma mask_col_block (c : Z) (i : nat) :
  L1l2.mask_col labels c G i = Ok (Words.block labels G c i).
Proof.
  unfold L1l2.mask_col. rewrite Hlab, Nat.eqb_refl. reflexivity.
Qed.

Lemma f_labs_sum (i : nat) (labs : list Z) (res : fl) :
  L1l2.f_labs labels G i labs res
  = Ok (fold_left fadd (map (fun c => norm (Words.block labels G c i)) labs) res).
Proof.
  revert res. induction labs as [ | c labs IH]; intros res; simpl.
  - reflexivity.
  - rewrite mask_col_block. simpl. apply IH.
Qed.

Lemma f_cols_sum (cols : list nat) (res : fl) :
  L1l2.f_cols labels G cols res
  = Ok (fold_left fadd
          (flat_map (fun j => map (fun c => norm (Words.block labels G c j))
                                  (unique labels)) cols) res).
Proof.
  revert res. induction cols as [ | i cols IH]; intros res; simpl.
  - reflexivity.
  - unfold L1l2.lstlab. rewrite f_labs_sum. simpl.
    rewrite IH, fold_left_app. reflexivity.
Qed.

Lemma f_words : L1l2.f labels G = Ok (Words.f_of labels G).
Proof. unfold L1l2.f. apply f_cols_sum. Qed.

Lemma where_eq_lab (r : nat) (c : Z) :
  In r (where_eq labels c) <-> r < nrows G /\ lab r = c.
Proof.
  rewrite In_where_eq. unfold lab. rewrite <- Hlab. split.
  - intros E. split.
    + apply nth_error_Some. congruence.
    + apply nth_error_nth. exact E.
  - intros [Hr E]. rewrite <- E. apply nth_error_nth'. exact Hr.
Qed.

Lemma df_labs_ok (i : nat) (labs done : list Z) :
  i < ncols G ->
  L1l2.df_labs labels G i labs (grid (ginv i done))
  = Ok (grid (ginv i (done ++ labs))).
Proof.
  intros Hi. revert done. induction labs as [ | c labs IH]; intros done; simpl.
  - rewrite app_nil_r. reflexivity.
  - rewrite mask_col_block. cbv beta iota delta [rbind].
    assert (Hstep : grid (ginv i (done ++ [c]))
                    = if truthy (norm (Words.block labels G c i))
                      then L1l2.set_entries (grid (ginv i done)) (where_eq labels c) i
                             (map (fun x => fdiv x (norm (Words.block labels G c i)))
                                  (Words.block labels G c i))
                      else grid (ginv i done)).
    { assert (Hg : forall r j,
                ginv i (done ++ [c]) r j
                = if (j <? i) || ((j =? i) && existsb (Z.eqb (lab r)) done)
                  then T r j
                  else if (j =? i) && (lab r =? c)%Z then T r j else zero).
      { intros r j. unfold ginv. rewrite existsb_app. simpl. rewrite orb_false_r.
        destruct (j <? i); simpl; [ reflexivity | ].
        destruct (j =? i); simpl; [ | reflexivity ].
        destruct (existsb (Z.eqb (lab r)) done); simpl; [ reflexivity | ].
        reflexivity. }
      destruct (truthy (norm (Words.block labels G c i))) eqn:Et.
      - unfold Words.block at 2. rewrite map_map.
        unfold grid. rewrite set_entries_mk.
        2: exact Hi.
        2:{ intros r Hr. apply where_eq_lab in Hr. tauto. }
        apply mk_ext. intros r j Hr Hj. rewrite Hg.
        destruct ((j <? i) || ((j =? i) && existsb (Z.eqb (lab r)) done)) eqn:Ed.
        + destruct ((j =? i) && existsb (Nat.eqb r) (where_eq labels c)) eqn:Ec;
            [ | unfold ginv; rewrite Ed; reflexivity ].
          apply andb_prop in Ec. destruct Ec as [Eji Ein].
          apply Nat.eqb_eq in Eji. subst j.
          apply existsb_eqb_In, where_eq_lab in Ein. destruct Ein as [_ Ein].
          unfold T, Words.df_entry. fold (lab r). rewrite Ein.
          rewrite truthy_is_zero in Et. apply negb_true_iff in Et. rewrite Et.
          reflexivity.
        + assert (Hz : ginv i done r j = zero)
            by (unfold ginv; rewrite Ed; reflexivity).
          rewrite Hz.
          destruct (Nat.eqb_spec j i) as [-> | Hne]; simpl; [ | reflexivity ].
          destruct (Z.eqb_spec (lab r) c) as [Ec | Hnc].
          * assert (Hin : In r (where_eq labels c))
              by (apply where_eq_lab; split; [ exact Hr | exact Ec ]).
            apply existsb_eqb_In in Hin. rewrite Hin.
            unfold T, Words.df_entry. fold (lab r). rewrite Ec.
            rewrite truthy_is_zero in Et. apply negb_true_iff in Et. rewrite Et.
            reflexivity.
          * destruct (existsb (Nat.eqb r) (where_eq labels c)) eqn:Ein;
              [ | reflexivity ].
            apply existsb_eqb_In, where_eq_lab in Ein. tauto.
      - unfold grid. apply mk_ext. intros r j Hr Hj. rewrite Hg. unfold ginv.
        destruct ((j <? i) || ((j =? i) && existsb (Z.eqb (lab r)) done));
          [ reflexivity | ].
        destruct (Nat.eqb_spec j i) as [-> | Hne]; simpl; [ | reflexivity ].
        destruct (Z.eqb_spec (lab r) c) as [Ec | Hnc]; [ | reflexivity ].
        unfold T, Words.df_entry. fold (lab r). rewrite Ec.
        rewrite truthy_is_zero in Et. apply negb_false_iff in Et. rewrite Et.
        reflexivity. }
    specialize (IH (done ++ [c])%list). rewrite <- app_assoc in IH. simpl in IH.
    destruct (truthy (norm (Words.block labels G c i))).
    + unfold L1l2.assign_mask_col.
      replace (nrows (grid (ginv i done))) with (nrows G)
        by (unfold grid, nrows; rewrite length_map, length_seq; reflexivity).
      rewrite Hlab, Nat.eqb_refl. cbv beta iota delta [rbind].
      rewrite <- Hstep. exact IH.
    + rewrite <- Hstep. exact IH.
Qed.

Lemma df_cols_ok (k i : nat) :
  i + k = ncols G ->
  L1l2.df_cols labels G (seq i k) (grid (ginv i []))
  = Ok (grid (ginv (ncols G) [])).
Proof.
  revert i. induction k as [ | k IH]; intros i Hik; simpl.
  - replace i with (ncols G) by lia. reflexivity.
  - unfold L1l2.lstlab. rewrite (df_labs_ok i (unique labels) []) by lia.
    cbv beta iota delta [rbind]. simpl app.
    replace (grid (ginv i (unique labels))) with (grid (ginv (S i) [])).
    + apply IH. lia.
    + unfold grid. apply mk_ext. intros r j Hr Hj. unfold ginv.
      assert (Hin : existsb (Z.eqb (lab r)) (unique labels) = true).
      { apply existsb_exists. exists (lab r). split; [ | apply Z.eqb_refl ].
        apply In_unique. apply nth_In. unfold nrows in *. lia. }
      rewrite Hin. simpl. rewrite !andb_false_r, andb_true_r, orb_false_r.
      destruct (Nat.ltb_spec j (S i)), (Nat.ltb_spec j i), (Nat.eqb_spec j i);
        try reflexivity; lia.
Qed.

Lemma df_words : L1l2.df labels G = Ok (Words.df_of labels G).
Proof.
  unfold L1l2.df. rewrite zeros_mk.
  replace (map (fun r => map (fun j => zero) (seq 0 (ncols G))) (seq 0 (nrows G)))
    with (grid (ginv 0 [])).
  - rewrite (df_cols_ok (ncols G) 0) by lia. f_equal.
    unfold grid, Words.df_of. apply mk_ext. intros r j Hr Hj. unfold ginv.
    destruct (Nat.ltb_spec j (ncols G)); [ reflexivity | lia ].
  - unfold grid. apply mk_ext. intros r j _ _. unfold ginv. simpl.
    rewrite andb_false_r. reflexivity.
Qed.

End L1l2Words.

Lemma entry_df_of (labels : list Z) (G : mat) (r j : nat) :
  r < nrows G -> j < ncols G ->
  entry (Words.df_of labels G) r j = Words.df_entry labels G r j.
Proof.
  intros Hr Hj. unfold entry, Words.df_of.
  rewrite (@nth_map_seq vec _ (nrows G) r []) by exact Hr.
  rewrite nth_map_seq by exact Hj. reflexivity.
Qed.

(** C7: [sinkhorn_l1l2_gl] is one call of [gcg] on its own arguments, whose
    answer it returns, with the penalty [f] and gradient [df] it defines; on a
    coupling with one row per label, [f] is the sum over the target columns and
    the classes of the Euclidean norm of the block of that class in that
    column, and [df] is, entry by entry, the entry divided by the norm of its
    block, and zero where that norm is zero. *)
Theorem l1l2_gl_delegates (a : vec) (labels_a : list Z) (b : vec) (M : mat)
    (reg eta : R) (numItermax nin : Z) (thr : R) (verbose log : bool) :
  let args := GcgArgs a b M reg eta (L1l2.f labels_a) (L1l2.df labels_a) None
                numItermax nin thr verbose log in
  L1l2.sinkhorn_l1l2_gl a labels_a b M reg eta numItermax nin thr verbose log
  = CallGcg args Ret
  /\ (forall h,
        run h (L1l2.sinkhorn_l1l2_gl a labels_a b M reg eta numItermax nin thr
                 verbose log) = ([EvGcg args], on_gcg h args))
  /\ (forall G,
        length labels_a = nrows G ->
        L1l2.f labels_a G = Ok (Words.f_of labels_a G)
        /\ L1l2.df labels_a G = Ok (Words.df_of labels_a G)
        /\ forall r j,
             r < nrows G -> j < ncols G ->
             norm (Words.block labels_a G (nth r labels_a 0%Z) j) = Fin 0 ->
             entry (Words.df_of labels_a G) r j = Fin 0).
Proof.
  intros args. split; [ reflexivity | ]. split.
  - intros h. unfold L1l2.sinkhorn_l1l2_gl. fold args. simpl.
    destruct (on_gcg h args); reflexivity.
  - intros G Hlab. split; [ apply f_words; exact Hlab | ].
    split; [ apply df_words; exact Hlab | ].
    intros r j Hr Hj Hn. rewrite entry_df_of by assumption.
    unfold Words.df_entry. rewrite Hn. simpl.
    destruct (Req_dec_T 0 0); [ reflexivity | congruence ].
Qed.

Lemma l1l2_gl_delegates_witness :
  L1l2.f Ex.labels Ex.T = Ok (Words.f_of Ex.labels Ex.T)
  /\ L1l2.df Ex.labels Ex.T = Ok (Words.df_of Ex.labels Ex.T)
  /\ forall r j,
       r < nrows Ex.T -> j < ncols Ex.T ->
       norm (Words.block Ex.labels Ex.T (nth r Ex.labels 0%Z) j) = Fin 0 ->
       entry (Words.df_of Ex.labels Ex.T) r j = Fin 0.
Proof.
  apply (proj2 (proj2 (l1l2_gl_delegates Ex.a Ex.labels Ex.b Ex.M 1 (1 / 10) 10 200
                         (1 / 1000) false false)) Ex.T).
  reflexivity.
Defined.

(** ** The closed-form mapping *)

(** C4, as stated, fails without bias in the kernel case: the matrix of the
    system solved is [K + eta I], which for the Gram matrix [Ex.K] and
    [eta = 1] is not [K1^T K1 + eta K_reg]. *)
Lemma kernel_nobias_system_differs :
  Joint.solve_L_nobias Ex.M Ex.M 1 false Ex.K Ex.T
  = call (Solve (Joint.K0 Ex.M 1 false Ex.K) (smul (of_nat 2) (mdot Ex.T Ex.M)))
  /\ Joint.K0 Ex.M 1 false Ex.K
     <> madd (mdot (transpose (Joint.K1 false Ex.K)) (Joint.K1 false Ex.K))
             (smul (Fin 1) (Joint.Kreg Ex.M false Ex.K)).
Proof.
  split; [ reflexivity | ].
  intros H. cbv [Joint.K0 Joint.K1 Joint.Kreg Joint.ns nrows Ex.M Ex.K length] in H.
  simpl in H. injection H as H _. lra.
Qed.

Lemma run_call_inv (h : oracle) (c : mcall) (t : list event) (X : mat) :
  run h (call c) = (t, Ok X) -> on_call h c = Ok X.
Proof.
  simpl. destruct (on_call h c) as [Y | e]; simpl; intros E; congruence.
Qed.

(** C4, amended: with the coupling fixed, [L] is the answer of one linear
    solve: of [(X^T X + eta I) L = X^T (ns gamma Xt) + eta I0] in the linear
    case, of [K0 L = K1^T (ns gamma Xt)] with [K0 = K1^T K1 + eta Kreg] in the
    kernel case with bias, and of [K0 L = ns gamma Xt] with [K0 = K + eta I]
    in the kernel case without bias; when [np.linalg.solve] answers with
    solutions, the coupling and the mapping that an estimator returns satisfy
    that system. *)
Theorem mapping_closed_form (h : oracle) (xs xt : mat) (mu eta : R)
    (kerneltype : String.string) (sigma : R) (bias : bool)
    (numItermax nin : Z) (thr stopThr : R) (log : bool) :
  let ns := of_nat (Joint.ns xs) in
  let X := Joint.xs1 xs bias in
  let lin_A := madd (mdot (transpose X) X) (smul (Fin eta) (Joint.I xt bias)) in
  let lin_B := fun G => madd (mdot (transpose X) (smul ns (mdot G xt)))
                             (smul (Fin eta) (Joint.I0 xt bias)) in
  let ker_A := fun K =>
    if bias
    then madd (mdot (transpose (Joint.K1 true K)) (Joint.K1 true K))
              (smul (Fin eta) (Joint.Kreg xs true K))
    else madd K (smul (Fin eta) (eye (Joint.ns xs))) in
  let ker_B := fun K G =>
    if bias then mdot (transpose (Joint.K1 true K)) (smul ns (mdot G xt))
    else smul ns (mdot G xt) in
  (forall G, Joint.solve_L xs xt eta bias G = call (Solve lin_A (lin_B G)))
  /\ (forall K G, Joint.ksolve_L xs xt eta bias K G
                  = call (Solve (ker_A K) (ker_B K G)))
  /\ (Words.solves_exactly h ->
      forall t ret,
        run h (Joint.joint_OT_mapping_linear xs xt mu eta bias numItermax nin thr
                 stopThr log) = (t, Ok (Some ret)) ->
        mdot lin_A (Joint.ret_L ret) = lin_B (Joint.ret_G ret))
  /\ (Words.solves_exactly h ->
      forall t ret,
        run h (Joint.joint_OT_mapping_kernel xs xt mu eta kerneltype sigma bias
                 numItermax nin thr stopThr log) = (t, Ok (Some ret)) ->
        exists K,
          on_call h (Kernel xs xs kerneltype sigma) = Ok K
          /\ mdot (ker_A K) (Joint.ret_L ret) = ker_B K (Joint.ret_G ret)).
Proof.
  intros ns X lin_A lin_B ker_A ker_B.
  assert (HkL : forall K G, Joint.ksolve_L xs xt eta bias K G
                            = call (Solve (ker_A K) (ker_B K G))).
  { intros K G. unfold ker_A, ker_B, Joint.ksolve_L. destruct bias; reflexivity. }
  split; [ reflexivity | ]. split; [ exact HkL | ]. split.
  - intros Hs t ret.
    unfold Joint.joint_OT_mapping_linear, Joint.joint_OT_mapping_linear_fuel.
    cbn [bind call run].
    destruct (on_call h (Dist xs xt)) as [D | e]; [ | discriminate ].
    destruct (on_call h (Emd _ _ _)) as [G | e]; [ | discriminate ].
    destruct (run h _) as [t' [[ret' | ] | e]] eqn:Er; try discriminate.
    intros E. injection E as _ <-.
    pose proof (bcd_Q _ _ _ _ _ _ h (fun G L => mdot lin_A L = lin_B G)
                  (fun G L t0 E0 => Hs _ _ _ (run_call_inv h _ t0 L E0))
                  _ _ _ _ Er) as HQ.
    destruct ret'; exact HQ.
  - intros Hs t ret.
    unfold Joint.joint_OT_mapping_kernel, Joint.joint_OT_mapping_kernel_fuel.
    cbn [bind call run].
    destruct (on_call h (Kernel xs xs kerneltype sigma)) as [K | e];
      [ | discriminate ].
    destruct (on_call h (Dist xs xt)) as [D | e]; [ | discriminate ].
    destruct (on_call h (Emd _ _ _)) as [G | e]; [ | discriminate ].
    destruct (run h _) as [t' [[ret' | ] | e]] eqn:Er; try discriminate.
    intros E. injection E as _ <-.
    exists K. split; [ reflexivity | ].
    assert (HQ0 : forall G0 L0 t0,
              run h (Joint.ksolve_L xs xt eta bias K G0) = (t0, Ok L0) ->
              mdot (ker_A K) L0 = ker_B K G0).
    { intros G0 L0 t0 E0. rewrite HkL in E0.
      apply Hs. exact (run_call_inv h _ t0 L0 E0). }
    pose proof (bcd_Q _ _ _ _ _ _ h (fun G L => mdot (ker_A K) L = ker_B K G)
                  HQ0 _ _ _ _ Er) as HQ.
    destruct ret'; exact HQ.
Qed.

Lemma Ex_h1_solves : Words.solves_exactly Ex.h1.
Proof.
  intros A B X. cbn [Ex.h1 on_call]. unfold Ex.solve1.
  repeat match goal with
         | |- (match ?x with _ => _ end) = _ -> _ => destruct x; try discriminate
         | |- (if ?x then _ else _) = _ -> _ => destruct x; try discriminate
         end.
  intros E. injection E as <-.
  unfold mdot, dot, fsum, ncols, col. simpl.
  do 3 f_equal. field. assumption.
Qed.

Lemma Ex_h1_run :
  exists t ret,
    run Ex.h1 (Joint.joint_OT_mapping_linear Ex.x1 Ex.x2 1 1 false 0 10 (1 / 1000)
                 (1 / 1000) false) = (t, Ok (Some ret)).
Proof.
  unfold Joint.joint_OT_mapping_linear, Joint.joint_OT_mapping_linear_fuel.
  cbn [bind call run Ex.h1 on_call].
  eexists. eexists.
  erewrite run_bcd_no_rounds; [ reflexivity | lia | ].
  unfold Joint.solve_L. cbn [call run Ex.h1 on_call].
  unfold Ex.solve1, Joint.xstxs, Joint.xs1, Joint.I, Joint.I0, Joint.d, Joint.ns,
    Ex.x1, Ex.x2, mdot, transpose, dot, fsum, col, ncols, nrows, eye, madd, smul,
    of_nat.
  simpl.
  match goal with
  | |- context [Req_dec_T ?a 0] => destruct (Req_dec_T a 0) as [E | _]; [ lra | ]
  end.
  reflexivity.
Qed.

Lemma mapping_closed_form_witness :
  exists t ret,
    run Ex.h1 (Joint.joint_OT_mapping_linear Ex.x1 Ex.x2 1 1 false 0 10 (1 / 1000)
                 (1 / 1000) false) = (t, Ok (Some ret))
    /\ mdot (madd (mdot (transpose Ex.x1) Ex.x1) (smul (Fin 1) (eye 1)))
            (Joint.ret_L ret)
       = madd (mdot (transpose Ex.x1) (smul (of_nat 1) (mdot (Joint.ret_G ret) Ex.x2)))
              (smul (Fin 1) (eye 1)).
Proof.
  destruct Ex_h1_run as [t [ret E]]. exists t, ret. split; [ exact E | ].
  exact (proj1 (proj2 (proj2 (mapping_closed_form Ex.h1 Ex.x1 Ex.x2 1 1
                                String.EmptyString 1 false 0 10 (1 / 1000)
                                (1 / 1000) false)))
           Ex_h1_solves t ret E).
Defined.

(** * Further properties of the solvers *)

(** ** The classes of [sinkhorn_lpl1_mm] *)

Lemma insert_unique_sorted (x : Z) (l : list Z) :
  StronglySorted Z.lt l -> StronglySorted Z.lt (insert_unique x l).
Proof.
  induction 1 as [ | y t Ht IH Hy]; simpl.
  - repeat constructor.
  - destruct (Z.ltb_spec x y) as [Hlt | Hge].
    + constructor; [ constructor; assumption | ].
      constructor; [ exact Hlt | ].
      eapply Forall_impl; [ | exact Hy ]. intros z Hz. lia.
    + destruct (Z.eqb_spec x y) as [-> | Hne].
      * constructor; assumption.
      * constructor; [ exact IH | ].
        apply Forall_forall. intros z Hz. apply In_insert_unique in Hz.
        destruct Hz as [-> | Hz]; [ lia | ].
        rewrite Forall_forall in Hy. apply Hy. exact Hz.
Qed.

Lemma unique_sorted (l : list Z) : StronglySorted Z.lt (unique l).
Proof.
  induction l as [ | x l IH]; simpl.
  - constructor.
  - apply insert_unique_sorted. exact IH.
Qed.

Lemma sorted_NoDup (l : list Z) : StronglySorted Z.lt l -> NoDup l.
Proof.
  induction 1 as [ | y t Ht IH Hy].
  - constructor.
  - constructor; [ | exact IH ].
    intros Hin. rewrite Forall_forall in Hy. specialize (Hy y Hin). lia.
Qed.

(** X1: the index arrays built by [sinkhorn_lpl1_mm] split the samples: every
    position of [labels_a] is in exactly one of them, and each of them is not
    empty and holds positions of [labels_a] only. *)
Theorem indices_labels_partition (labels_a : list Z) :
  let groups := Lpl1.indices_labels labels_a in
  (forall r, r < length labels_a ->
     exists k, k < length groups /\ In r (nth k groups [])
               /\ forall k', k' < length groups -> In r (nth k' groups []) -> k' = k)
  /\ (forall k r, k < length groups -> In r (nth k groups []) -> r < length labels_a)
  /\ (forall k, k < length groups -> nth k groups [] <> []).
Proof.
  intros groups.
  assert (Hlen : length groups = length (unique labels_a))
    by (unfold groups, Lpl1.indices_labels; apply length_map).
  assert (Hnth : forall k, k < length groups ->
            nth k groups [] = where_eq labels_a (nth k (unique labels_a) 0%Z)).
  { intros k Hk. unfold groups, Lpl1.indices_labels.
    rewrite (nth_indep _ [] (where_eq labels_a 0%Z))
      by (rewrite length_map; lia).
    apply map_nth. }
  split; [ | split ].
  - intros r Hr.
    assert (Hin : In (nth r labels_a 0%Z) (unique labels_a))
      by (apply In_unique, nth_In; exact Hr).
    apply In_nth with (d := 0%Z) in Hin. destruct Hin as [k [Hk Ek]].
    exists k. split; [ lia | ]. split.
    + rewrite Hnth by lia. apply In_where_eq. rewrite Ek.
      apply nth_error_nth'. exact Hr.
    + intros k' Hk' Hin'. rewrite Hnth in Hin' by exact Hk'.
      apply In_where_eq in Hin'.
      apply (nth_error_nth _ _ 0%Z) in Hin'.
      pose proof (proj1 (NoDup_nth (unique labels_a) 0%Z)
                    (sorted_NoDup _ (unique_sorted labels_a))) as Hnd.
      apply Hnd; [ lia | lia | congruence ].
  - intros k r Hk Hin. rewrite Hnth in Hin by exact Hk.
    eapply where_eq_lt. exact Hin.
  - intros k Hk. rewrite Hnth by exact Hk.
    assert (Hin : In (nth k (unique labels_a) 0%Z) labels_a)
      by (apply In_unique, nth_In; lia).
    apply In_nth_error in Hin. destruct Hin as [r Hr].
    apply In_where_eq in Hr. intros E. rewrite E in Hr. destruct Hr.
Qed.

Lemma indices_labels_partition_witness :
  exists k, k < length (Lpl1.indices_labels [5%Z; 3%Z; 5%Z])
            /\ In 2 (nth k (Lpl1.indices_labels [5%Z; 3%Z; 5%Z]) [])
            /\ forall k', k' < length (Lpl1.indices_labels [5%Z; 3%Z; 5%Z]) ->
                          In 2 (nth k' (Lpl1.indices_labels [5%Z; 3%Z; 5%Z]) []) ->
                          k' = k.
Proof.
  apply (proj1 (indices_labels_partition [5%Z; 3%Z; 5%Z]) 2). simpl. lia.
Defined.

(** ** The budget of the block coordinate descent *)

Lemma count_cg_app (t1 t2 : list event) :
  count_cg (t1 ++ t2) = count_cg t1 + count_cg t2.
Proof. unfold count_cg. rewrite filter_app, length_app. reflexivity. Qed.

Section BcdCount.

Variables (solve_G : mat -> mat -> prog mat) (solve_L : mat -> prog mat).
Variable loss : mat -> mat -> fl.
Variables (numItermax : Z) (stopThr : R) (log : bool).
Variable h : oracle.

Hypothesis solve_G_count :
  forall L G, count_cg (fst (run h (solve_G L G))) <= 1
              /\ forall G', snd (run h (solve_G L G)) = Ok G' ->
                            count_cg (fst (run h (solve_G L G))) = 1.
Hypothesis solve_L_count : forall G, count_cg (fst (run h (solve_L G))) = 0.

Let round := Joint.bcd_round solve_G solve_L loss numItermax stopThr.
Let while := Joint.bcd_while solve_G solve_L loss numItermax stopThr.

Lemma bcd_round_count (s : Joint.bcd_state) :
  count_cg (fst (run h (round s))) <= 1
  /\ forall s', snd (run h (round s)) = Ok s' ->
       count_cg (fst (run h (round s))) = 1
       /\ Joint.st_it s' = (Joint.st_it s + 1)%Z
       /\ length (Joint.st_vloss s') = S (length (Joint.st_vloss s))
       /\ (Joint.st_loop s' = true -> (Joint.st_it s' < numItermax)%Z).
Proof.
  unfold round, Joint.bcd_round. rewrite run_bind.
  destruct (solve_G_count (Joint.st_L s) (Joint.st_G s)) as [HG1 HG2].
  destruct (run h (solve_G _ _)) as [tG [G | e]]; simpl in *.
  2:{ split; [ exact HG1 | discriminate ]. }
  specialize (HG2 G eq_refl).
  rewrite run_bind. pose proof (solve_L_count G) as HL.
  destruct (run h (solve_L G)) as [tL [L | e]]; simpl in *.
  2:{ rewrite count_cg_app, HL. split; [ lia | discriminate ]. }
  rewrite run_bind, run_lift.
  destruct (Joint.rel_decrease _) as [delta | e]; simpl.
  2:{ rewrite count_cg_app, count_cg_app, HL. simpl.
      split; [ unfold count_cg at 2; simpl; lia | discriminate ]. }
  rewrite !count_cg_app, HL, HG2. unfold count_cg at 1. simpl.
  split; [ lia | ]. intros s' E. injection E as <-. simpl.
  split; [ reflexivity | ]. split; [ reflexivity | ].
  split; [ rewrite length_app; simpl; lia | ].
  destruct (flt delta (Fin stopThr)); [ discriminate | ].
  destruct (Z.geb_spec (Joint.st_it s + 1) numItermax); [ discriminate | ].
  intros _. lia.
Qed.

Lemma bcd_while_count (fuel : nat) (s : Joint.bcd_state) :
  (Joint.st_loop s = true -> (Joint.st_it s < numItermax)%Z) ->
  (Z.of_nat (count_cg (fst (run h (while fuel s))))
   <= if Joint.st_loop s then numItermax - Joint.st_it s else 0)%Z
  /\ forall s', snd (run h (while fuel s)) = Ok (Some s') ->
       length (Joint.st_vloss s')
       = length (Joint.st_vloss s) + count_cg (fst (run h (while fuel s))).
Proof.
  revert s. induction fuel as [ | fuel IH]; intros s Hinv; simpl.
  - destruct (Joint.st_loop s) eqn:El; simpl.
    + specialize (Hinv eq_refl). split; [ unfold count_cg; simpl; lia | discriminate ].
    + split; [ unfold count_cg; simpl; lia | ].
      intros s' E. injection E as <-. unfold count_cg. simpl. lia.
  - destruct (Joint.st_loop s) eqn:El; simpl.
    2:{ split; [ unfold count_cg; simpl; lia | ].
        intros s' E. injection E as <-. unfold count_cg. simpl. lia. }
    specialize (Hinv eq_refl). fold round. fold while. rewrite run_bind.
    destruct (bcd_round_count s) as [Hr1 Hr2].
    destruct (run h (round s)) as [t1 [s1 | e]]; simpl in *.
    2:{ split; [ lia | discriminate ]. }
    destruct (Hr2 s1 eq_refl) as [Hc [Hit [Hlen Hinv1]]].
    destruct (IH s1 Hinv1) as [IH1 IH2].
    destruct (run h (while fuel s1)) as [t2 r2]. simpl in *.
    rewrite count_cg_app, Hc. split.
    + destruct (Joint.st_loop s1); [ | ]; lia.
    + intros s' E. rewrite (IH2 s' E). lia.
Qed.

Lemma bcd_count (fuel : nat) (G0 : mat) :
  let p := Joint.bcd solve_G solve_L loss numItermax stopThr log fuel G0 in
  (Z.of_nat (count_cg (fst (run h p))) <= Z.max 0 numItermax)%Z
  /\ forall ret, snd (run h p) = Ok (Some ret) ->
       match ret with
       | Joint.GL _ _ => log = false
       | Joint.GLLog _ _ lg =>
           log = true /\ Joint.log_err lg = []
           /\ length (Joint.log_loss lg) = S (count_cg (fst (run h p)))
       end.
Proof.
  intros p. unfold p, Joint.bcd. rewrite run_bind.
  pose proof (solve_L_count G0) as HL.
  destruct (run h (solve_L G0)) as [t0 [L0 | e]]; simpl in *.
  2:{ rewrite HL. split; [ lia | discriminate ]. }
  rewrite run_bind. fold while.
  match goal with
  | |- context [while fuel ?s] => pose (s0 := s)
  end.
  fold s0.
  assert (Hinv : Joint.st_loop s0 = true -> (Joint.st_it s0 < numItermax)%Z).
  { unfold s0. simpl. destruct (Z.gtb_spec numItermax 0); [ lia | discriminate ]. }
  destruct (bcd_while_count fuel s0 Hinv) as [H1 H2].
  destruct (run h (while fuel s0)) as [t1 [[s1 | ] | e]]; simpl in *.
  - rewrite app_nil_r, count_cg_app, HL. simpl. split.
    + destruct (Z.gtb_spec numItermax 0); simpl in *; lia.
    + intros ret E. injection E as <-. unfold Joint.bcd_return.
      destruct log; [ | reflexivity ]. simpl.
      split; [ reflexivity | ]. split; [ reflexivity | ].
      rewrite (H2 s1 eq_refl). reflexivity.
  - rewrite app_nil_r, count_cg_app, HL. simpl. split.
    + destruct (Z.gtb_spec numItermax 0); simpl in *; lia.
    + discriminate.
  - rewrite count_cg_app, HL. simpl. split.
    + destruct (Z.gtb_spec numItermax 0); simpl in *; lia.
    + discriminate.
Qed.

End BcdCount.

Lemma bcd_never_cut (solve_G : mat -> mat -> prog mat) (solve_L : mat -> prog mat)
    (loss : mat -> mat -> fl) (numItermax : Z) (stopThr : R) (log : bool)
    (h : oracle) (G0 : mat) :
  snd (run h (Joint.bcd solve_G solve_L loss numItermax stopThr log
                (Z.to_nat numItermax) G0)) <> Ok None.
Proof.
  unfold Joint.bcd. rewrite run_bind.
  destruct (run h (solve_L G0)) as [t0 [L0 | e]]; simpl; [ | discriminate ].
  rewrite run_bind.
  match goal with
  | |- context [Joint.bcd_while _ _ _ _ _ ?f ?s] =>
      pose proof (bcd_while_fuel solve_G solve_L loss numItermax stopThr h f s) as Hf
  end.
  simpl in Hf.
  destruct (run h (Joint.bcd_while _ _ _ _ _ _ _)) as [t1 [[s1 | ] | e]]; simpl in *;
    try discriminate.
  exfalso. apply Hf; try reflexivity.
  - destruct (Z.gtb_spec numItermax 0); [ lia | discriminate ].
  - lia.
Qed.

Lemma solve_G_count (h : oracle) (X1 xt : mat) (ns : nat) (a b : vec) (M : mat)
    (mu : R) (nin : Z) (thr : R) (L G : mat) :
  count_cg (fst (run h (Joint.solve_G X1 xt ns a b M mu nin thr L G))) <= 1
  /\ forall G', snd (run h (Joint.solve_G X1 xt ns a b M mu nin thr L G)) = Ok G' ->
       count_cg (fst (run h (Joint.solve_G X1 xt ns a b M mu nin thr L G))) = 1.
Proof.
  destruct (Req_dec_T mu 0) as [-> | Hmu].
  - rewrite solve_G_zero. simpl. split; [ unfold count_cg; simpl; lia | discriminate ].
  - rewrite (solve_G_cg _ _ _ _ _ _ _ _ _ _ _ Hmu). simpl.
    destruct (on_call h _); simpl; split; try reflexivity;
      unfold count_cg; simpl; lia.
Qed.

Lemma ksolve_L_count (h : oracle) (xs xt : mat) (eta : R) (bias : bool) (K G : mat) :
  count_cg (fst (run h (Joint.ksolve_L xs xt eta bias K G))) = 0.
Proof.
  unfold Joint.ksolve_L, Joint.solve_L_bias, Joint.solve_L_nobias.
  destruct bias; simpl; destruct (on_call h _); reflexivity.
Qed.

Lemma solve_L_count (h : oracle) (xs xt : mat) (eta : R) (bias : bool) (G : mat) :
  count_cg (fst (run h (Joint.solve_L xs xt eta bias G))) = 0.
Proof.
  unfold Joint.solve_L. simpl. destruct (on_call h _); reflexivity.
Qed.

(** X4: whatever the collaborators answer, a joint estimator stops within its
    budget: it calls [cg] at most [numItermax] times (never for
    [numItermax <= 0]), and the loss trace of the log it returns has one entry
    more than the calls of [cg] made, while its ['err'] entry is empty. *)
Theorem joint_rounds_bounded (h : oracle) (xs xt : mat) (mu eta : R)
    (kerneltype : String.string) (sigma : R) (bias : bool)
    (numItermax nin : Z) (thr stopThr : R) (log : bool) :
  let lin := Joint.joint_OT_mapping_linear xs xt mu eta bias numItermax nin thr
               stopThr log in
  let ker := Joint.joint_OT_mapping_kernel xs xt mu eta kerneltype sigma bias
               numItermax nin thr stopThr log in
  let within (p : prog (option Joint.mapping_ret)) :=
    outcome h p <> Ok None
    /\ (Z.of_nat (count_cg (trace h p)) <= Z.max 0 numItermax)%Z
    /\ match outcome h p with
       | Ok (Some (Joint.GLLog _ _ lg)) =>
           log = true /\ Joint.log_err lg = []
           /\ length (Joint.log_loss lg) = S (count_cg (trace h p))
       | Ok (Some (Joint.GL _ _)) => log = false
       | _ => True
       end in
  within lin /\ within ker.
Proof.
  intros lin ker within. split.
  - unfold within, lin, outcome, trace, Joint.joint_OT_mapping_linear,
      Joint.joint_OT_mapping_linear_fuel.
    cbn [bind call run].
    destruct (on_call h (Dist xs xt)) as [D | e];
      [ | simpl; repeat split; [ discriminate | unfold count_cg; simpl; lia ] ].
    destruct (on_call h (Emd _ _ _)) as [G | e];
      [ | simpl; repeat split; [ discriminate | unfold count_cg; simpl; lia ] ].
    match goal with
    | |- context [run h (Joint.bcd ?sg ?sl ?lo _ _ _ _ _)] =>
        pose proof (bcd_never_cut sg sl lo numItermax stopThr log h G) as Hn;
        pose proof (bcd_count sg sl lo numItermax stopThr log h
                      (solve_G_count h _ _ _ _ _ _ _ _ _)
                      (solve_L_count h xs xt eta bias) (Z.to_nat numItermax) G)
          as [Hc Hr]
    end.
    destruct (run h (Joint.bcd _ _ _ _ _ _ _ _)) as [t r]. simpl in *.
    split; [ exact Hn | ]. split; [ exact Hc | ].
    destruct r as [[ret | ] | e]; try exact Logic.I.
    specialize (Hr ret eq_refl). destruct ret; exact Hr.
  - unfold within, ker, outcome, trace, Joint.joint_OT_mapping_kernel,
      Joint.joint_OT_mapping_kernel_fuel.
    cbn [bind call run].
    destruct (on_call h (Kernel xs xs kerneltype sigma)) as [K | e];
      [ | simpl; repeat split; [ discriminate | unfold count_cg; simpl; lia ] ].
    destruct (on_call h (Dist xs xt)) as [D | e];
      [ | simpl; repeat split; [ discriminate | unfold count_cg; simpl; lia ] ].
    destruct (on_call h (Emd _ _ _)) as [G | e];
      [ | simpl; repeat split; [ discriminate | unfold count_cg; simpl; lia ] ].
    match goal with
    | |- context [run h (Joint.bcd ?sg ?sl ?lo _ _ _ _ _)] =>
        pose proof (bcd_never_cut sg sl lo numItermax stopThr log h G) as Hn;
        pose proof (bcd_count sg sl lo numItermax stopThr log h
                      (solve_G_count h _ _ _ _ _ _ _ _ _)
                      (ksolve_L_count h xs xt eta bias K) (Z.to_nat numItermax) G)
          as [Hc Hr]
    end.
    destruct (run h (Joint.bcd _ _ _ _ _ _ _ _)) as [t r]. simpl in *.
    split; [ exact Hn | ]. split; [ exact Hc | ].
    destruct r as [[ret | ] | e]; try exact Logic.I.
    specialize (Hr ret eq_refl). destruct ret; exact Hr.
Qed.

Lemma run_bcd_update_raises (solve_G : mat -> mat -> prog mat)
    (solve_L : mat -> prog mat) (loss : mat -> mat -> fl) (numItermax : Z)
    (stopThr : R) (log : bool) (h : oracle) (G L : mat) (t : list event) (e : exn) :
  (1 <= numItermax)%Z ->
  run h (solve_L G) = (t, Ok L) ->
  (forall L' G', solve_G L' G' = Raise e) ->
  run h (Joint.bcd solve_G solve_L loss numItermax stopThr log
           (Z.to_nat numItermax) G) = (t, Err e).
Proof.
  intros Hge EL HG. unfold Joint.bcd. rewrite run_bind, EL.
  destruct (Z.gtb_spec numItermax 0) as [_ | Hle]; [ | lia ].
  destruct (Z.to_nat numItermax) as [ | fuel] eqn:Ef; [ lia | ].
  cbn [Joint.bcd_while Joint.st_loop]. rewrite !run_bind.
  unfold Joint.bcd_round. rewrite run_bind, HG. simpl.
  rewrite app_nil_r. reflexivity.
Qed.

(** X5: with [mu = 0] and at least one round allowed, a joint estimator
    raises [ZeroDivisionError] when it first updates the coupling: after
    [dist], [emd] and the first solve for [L], and without any call of [cg]. *)
Theorem joint_mu_zero (h : oracle) (xs xt : mat) (eta : R)
    (kerneltype : String.string) (sigma : R) (bias : bool)
    (numItermax nin : Z) (thr stopThr : R) (log : bool) :
  (1 <= numItermax)%Z ->
  (forall D G L c,
     on_call h (Dist xs xt) = Ok D ->
     let M := smul (of_nat (Joint.ns xs)) D in
     on_call h (Emd (Joint.unif (Joint.ns xs)) (Joint.unif (Joint.nt xt)) M) = Ok G ->
     run h (Joint.solve_L xs xt eta bias G) = ([EvCall c], Ok L) ->
     run h (Joint.joint_OT_mapping_linear xs xt 0 eta bias numItermax nin thr
              stopThr log)
     = ([EvCall (Dist xs xt);
         EvCall (Emd (Joint.unif (Joint.ns xs)) (Joint.unif (Joint.nt xt)) M);
         EvCall c],
        Err ZeroDivisionError))
  /\ (forall K D G L c,
        on_call h (Kernel xs xs kerneltype sigma) = Ok K ->
        on_call h (Dist xs xt) = Ok D ->
        let M := smul (of_nat (Joint.ns xs)) D in
        on_call h (Emd (Joint.unif (Joint.ns xs)) (Joint.unif (Joint.nt xt)) M) = Ok G ->
        run h (Joint.ksolve_L xs xt eta bias K G) = ([EvCall c], Ok L) ->
        run h (Joint.joint_OT_mapping_kernel xs xt 0 eta kerneltype sigma bias
                 numItermax nin thr stopThr log)
        = ([EvCall (Kernel xs xs kerneltype sigma);
            EvCall (Dist xs xt);
            EvCall (Emd (Joint.unif (Joint.ns xs)) (Joint.unif (Joint.nt xt)) M);
            EvCall c],
           Err ZeroDivisionError)).
Proof.
  intros Hge. split.
  - intros D G L c ED M EG EL.
    unfold Joint.joint_OT_mapping_linear, Joint.joint_OT_mapping_linear_fuel.
    cbn [bind call run]. rewrite ED. fold M. rewrite EG.
    rewrite (run_bcd_update_raises _ _ _ _ _ _ _ _ _ _ ZeroDivisionError Hge EL).
    + reflexivity.
    + intros L' G'. apply solve_G_zero.
  - intros K D G L c EK ED M EG EL.
    unfold Joint.joint_OT_mapping_kernel, Joint.joint_OT_mapping_kernel_fuel.
    cbn [bind call run]. rewrite EK, ED. fold M. rewrite EG.
    rewrite (run_bcd_update_raises _ _ _ _ _ _ _ _ _ _ ZeroDivisionError Hge EL).
    + reflexivity.
    + intros L' G'. apply solve_G_zero.
Qed.

Lemma joint_mu_zero_witness :
  let M := smul (of_nat 2) Ex.T in
  let xst := smul (of_nat 2) (mdot Ex.T Ex.M) in
  run Ex.h (Joint.joint_OT_mapping_linear Ex.M Ex.M 0 (1 / 1000) false 5 10
              (1 / 1000) (1 / 1000) false)
  = ([EvCall (Dist Ex.M Ex.M);
      EvCall (Emd (Joint.unif 2) (Joint.unif 2) M);
      EvCall (Solve (madd (Joint.xstxs Ex.M false)
                          (smul (Fin (1 / 1000)) (Joint.I Ex.M false)))
                    (madd (mdot (transpose Ex.M) xst)
                          (smul (Fin (1 / 1000)) (Joint.I0 Ex.M false))))],
     Err ZeroDivisionError).
Proof.
  intros M xst.
  apply (proj1 (joint_mu_zero Ex.h Ex.M Ex.M (1 / 1000) String.EmptyString 1
                  false 5 10 (1 / 1000) (1 / 1000) false ltac:(lia))
           Ex.T Ex.T Ex.T); reflexivity.
Defined.

(** ** The entries of the L1-L2 gradient *)

Lemma finite_vec_reals (v : vec) :
  Forall finite v -> exists xs, v = map Fin xs.
Proof.
  induction 1 as [ | x v Hx Hv [xs ->]].
  - exists []. reflexivity.
  - destruct x as [a | s | ]; try contradiction.
    exists (a :: xs). reflexivity.
Qed.

Lemma fold_fadd_reals (ys : list R) (a : R) :
  fold_left fadd (map Fin ys) (Fin a) = Fin (fold_left Rplus ys a).
Proof.
  revert a. induction ys as [ | y ys IH]; intros a; simpl.
  - reflexivity.
  - apply IH.
Qed.

Lemma fold_Rplus_ge (ys : list R) (a : R) :
  Forall (fun y => 0 <= y)%R ys ->
  (a <= fold_left Rplus ys a)%R
  /\ forall y, In y ys -> (a + y <= fold_left Rplus ys a)%R.
Proof.
  intros H. revert a. induction H as [ | z ys Hz Hys IH]; intros a; simpl.
  - split; [ lra | tauto ].
  - destruct (IH (a + z)%R) as [H1 H2]. split; [ lra | ].
    intros y [-> | Hy]; [ exact H1 | ].
    specialize (H2 y Hy). lra.
Qed.

Lemma norm_reals (xs : list R) :
  let S := fold_left Rplus (map (fun x => x * x)%R xs) 0%R in
  norm (map Fin xs) = Fin (sqrt S)
  /\ forall x, In x xs -> (x * x <= S)%R.
Proof.
  intros S.
  assert (Hnn : Forall (fun y => 0 <= y)%R (map (fun x => x * x)%R xs)).
  { apply Forall_forall. intros y Hy. apply in_map_iff in Hy.
    destruct Hy as [x [<- _]]. nra. }
  destruct (fold_Rplus_ge _ 0%R Hnn) as [H0 H1]. fold S in H0, H1. split.
  - unfold norm, fsum. rewrite map_map.
    change (map (fun x : R => fmul (Fin x) (Fin x)) xs)
      with (map (fun x : R => Fin (x * x)) xs).
    rewrite <- (map_map (fun x => x * x)%R Fin). unfold zero.
    rewrite fold_fadd_reals. fold S. simpl.
    destruct (Rlt_dec S 0); [ lra | reflexivity ].
  - intros x Hx. specialize (H1 (x * x)%R (in_map _ _ _ Hx)). lra.
Qed.

(** X6: on a rectangular coupling with finite entries and one row per label,
    the gradient of the L1-L2 penalty is defined and each of its entries is a
    finite number: a block of norm zero is left at zero and puts no NaN in
    the gradient. Where the coupling is zero, so is the gradient. *)
Theorem l1l2_gradient_finite (labels_a : list Z) (G : mat) :
  length labels_a = nrows G ->
  wf (ncols G) G ->
  Forall (Forall finite) G ->
  exists W,
    L1l2.df labels_a G = Ok W
    /\ forall r j, r < nrows G -> j < ncols G ->
         exists x, entry W r j = Fin x
                   /\ (entry G r j = zero -> x = 0%R).
Proof.
  intros Hlab Hwf Hfin. exists (Words.df_of labels_a G).
  split; [ apply df_words; exact Hlab | ].
  intros r j Hr Hj. rewrite entry_df_of by assumption.
  assert (Hentry : forall r', r' < nrows G -> finite (entry G r' j)).
  { intros r' Hr'. unfold entry.
    assert (Hrow : In (nth r' G []) G) by (apply nth_In; exact Hr').
    rewrite Forall_forall in Hfin. specialize (Hfin _ Hrow).
    rewrite Forall_forall in Hfin. apply Hfin. apply nth_In.
    rewrite (wf_nth (ncols G) G r' Hwf Hr'). exact Hj. }
  unfold Words.df_entry.
  set (c := nth r labels_a 0%Z).
  assert (Hblock : Forall finite (Words.block labels_a G c j)).
  { unfold Words.block. apply Forall_map, Forall_forall. intros r' Hr'.
    apply Hentry. apply where_eq_lt in Hr'. lia. }
  destruct (finite_vec_reals _ Hblock) as [xs Exs].
  destruct (norm_reals xs) as [Hn _]. rewrite Exs, Hn.
  simpl is_zero.
  destruct (Req_dec_T (sqrt _) 0) as [E0 | Hne].
  - exists 0%R. split; reflexivity.
  - specialize (Hentry r Hr).
    destruct (entry G r j) as [g | s | ]; try contradiction.
    simpl. destruct (Req_dec_T (sqrt _) 0) as [E0 | _]; [ contradiction | ].
    eexists. split; [ reflexivity | ].
    intros Hz. injection Hz as ->. unfold Rdiv. ring.
Qed.

Lemma Ex_T_finite : Forall (Forall finite) Ex.T.
Proof. repeat constructor. Qed.

Lemma l1l2_gradient_finite_witness :
  exists W,
    L1l2.df Ex.labels Ex.T = Ok W
    /\ forall r j, r < nrows Ex.T -> j < ncols Ex.T ->
         exists x, entry W r j = Fin x
                   /\ (entry Ex.T r j = zero -> x = 0%R).
Proof.
  apply l1l2_gradient_finite.
  - reflexivity.
  - repeat constructor.
  - exact Ex_T_finite.
Defined.

(** ** Labels that do not match the rows *)

Section UpdateWAny.

Variables (labels : list Z) (M transp : mat).
Hypothesis Hrows : nrows transp = nrows M.
Hypothesis Hwf : wf (ncols M) transp.

Let lab (r : nat) : Z := nth r labels 0%Z.
Let row_of (c : Z) : vec :=
  map (fun j => Words.majorizer (Words.class_mass labels transp c j))
      (seq 0 (ncols M)).
Let g (done : list Z) (r : nat) : vec :=
  if (r <? length labels) && existsb (Z.eqb (lab r)) done
  then row_of (lab r) else repeat one (ncols M).
Let in_range (c : Z) : bool :=
  forallb (fun r => r <? nrows M) (where_eq labels c).

Lemma where_eq_lab_any (r : nat) (c : Z) :
  In r (where_eq labels c) <-> r < length labels /\ lab r = c.
Proof.
  rewrite In_where_eq. unfold lab. split.
  - intros E. split.
    + apply nth_error_Some. congruence.
    + apply nth_error_nth. exact E.
  - intros [Hr E]. rewrite <- E. apply nth_error_nth'. exact Hr.
Qed.

Lemma length_g_any (done : list Z) (r : nat) : length (g done r) = ncols M.
Proof.
  unfold g, row_of. destruct (_ && _).
  - rewrite length_map, length_seq. reflexivity.
  - apply repeat_length.
Qed.

Lemma in_range_lt (c : Z) (r : nat) :
  in_range c = true -> In r (where_eq labels c) -> r < nrows M.
Proof.
  unfold in_range. rewrite forallb_forall. intros H Hin.
  apply Nat.ltb_lt. apply H. exact Hin.
Qed.

Lemma class_majs_any (c : Z) :
  in_range c = true -> where_eq labels c <> [] ->
  Lpl1.majorize
    (sum_axis0 (ncols transp) (map (fun i => nth i transp []) (where_eq labels c)))
  = row_of c.
Proof.
  intros Hin Hne.
  assert (Hnt : ncols transp = ncols M).
  { apply wf_ncols; [ exact Hwf | ].
    destruct (where_eq labels c) as [ | r rs] eqn:E; [ congruence | ].
    assert (Hr : r < nrows M)
      by (apply (in_range_lt c); [ exact Hin | rewrite E; simpl; auto ]).
    intros ->. unfold nrows in *. simpl in Hrows. lia. }
  rewrite Hnt, sum_axis0_columns.
  - unfold Lpl1.majorize, row_of. rewrite map_map. apply map_ext. intros j.
    unfold Words.majorizer, Words.class_mass, Words.block, Lpl1.p, Lpl1.epsilon.
    rewrite map_map. reflexivity.
  - unfold wf. rewrite Forall_forall. intros r Hr.
    apply in_map_iff in Hr. destruct Hr as [i [<- Hi]].
    apply wf_nth; [ exact Hwf | ].
    pose proof (in_range_lt c i Hin Hi). unfold nrows in *. lia.
Qed.

Lemma class_step_any (idx : list (list nat)) (k : nat) (c : Z) (done : list Z) :
  In c labels ->
  nth_error idx k = Some (where_eq labels c) ->
  Lpl1.class_step transp idx (map (g done) (seq 0 (nrows M))) k
  = if in_range c then Ok (map (g (done ++ [c])) (seq 0 (nrows M)))
    else Err IndexError.
Proof.
  intros Hc Hk. unfold Lpl1.class_step. rewrite Hk.
  assert (Hne : where_eq labels c <> []).
  { apply In_nth_error in Hc. destruct Hc as [r Hr].
    apply In_where_eq in Hr. intros E. rewrite E in Hr. destruct Hr. }
  destruct (in_range c) eqn:Ein.
  - rewrite take_rows_ok.
    2:{ intros i Hi. pose proof (in_range_lt c i Ein Hi). unfold nrows in *. lia. }
    cbv beta iota delta [rbind].
    rewrite assign_rows_ok.
    + rewrite length_map, length_seq. f_equal. apply map_ext_in.
      intros r Hr. apply in_seq in Hr.
      assert (Hg : g (done ++ [c]) r =
                   if (r <? length labels) && (lab r =? c)%Z
                   then row_of c else g done r).
      { unfold g. rewrite existsb_app. simpl. rewrite orb_false_r.
        destruct (r <? length labels); simpl; [ | reflexivity ].
        destruct (Z.eqb_spec (lab r) c) as [-> | Hn].
        - rewrite orb_true_r. reflexivity.
        - rewrite orb_false_r. reflexivity. }
      rewrite Hg. destruct (existsb (Nat.eqb r) (where_eq labels c)) eqn:E.
      * apply existsb_eqb_In in E.
        apply where_eq_lab_any in E. destruct E as [E1 E2].
        apply Nat.ltb_lt in E1. rewrite E1, E2, Z.eqb_refl. simpl.
        apply class_majs_any; assumption.
      * rewrite nth_map_seq by lia.
        destruct (Nat.ltb_spec r (length labels)) as [Hl | Hl]; simpl;
          [ | reflexivity ].
        destruct (Z.eqb_spec (lab r) c) as [Ec | Hn]; [ | reflexivity ].
        assert (Hin : In r (where_eq labels c))
          by (apply where_eq_lab_any; split; assumption).
        apply existsb_eqb_In in Hin. congruence.
    + intros i Hi. rewrite length_map, length_seq.
      apply (in_range_lt c); assumption.
    + rewrite class_majs_any by assumption. unfold row_of.
      rewrite length_map, length_seq.
      destruct (where_eq labels c) as [ | r rs] eqn:E; [ congruence | ].
      assert (Hr : r < nrows M)
        by (apply (in_range_lt c); [ exact Ein | rewrite E; simpl; auto ]).
      destruct (nrows M) as [ | m] eqn:En; [ lia | ].
      simpl. rewrite length_g_any. reflexivity.
  - unfold in_range in Ein.
    assert (Hex : exists r, In r (where_eq labels c) /\ nrows M <= r).
    { clear - Ein. induction (where_eq labels c) as [ | r rs IH]; simpl in Ein.
      - discriminate.
      - destruct (Nat.ltb_spec r (nrows M)) as [Hlt | Hge].
        + simpl in Ein. destruct (IH Ein) as [r' [H1 H2]].
          exists r'. split; [ right; exact H1 | exact H2 ].
        + exists r. split; [ left; reflexivity | exact Hge ]. }
    destruct Hex as [r [Hin Hge]].
    rewrite (take_rows_err transp _ r Hin) by (unfold nrows in *; lia).
    reflexivity.
Qed.

Lemma class_loop_any (cs done : list Z) (pre : list (list nat)) :
  (forall c, In c cs -> In c labels) ->
  length pre = length done ->
  Lpl1.class_loop transp (pre ++ map (where_eq labels) cs)
    (map (g done) (seq 0 (nrows M))) (seq (length done) (length cs))
  = if forallb in_range cs then Ok (map (g (done ++ cs)) (seq 0 (nrows M)))
    else Err IndexError.
Proof.
  revert done pre. induction cs as [ | c cs IH]; intros done pre Hcs Hpre; simpl.
  - rewrite app_nil_r. reflexivity.
  - rewrite (class_step_any _ _ c).
    2:{ apply Hcs. simpl. auto. }
    2:{ rewrite nth_error_app2 by lia.
        rewrite Hpre, Nat.sub_diag. reflexivity. }
    destruct (in_range c); simpl; [ | reflexivity ].
    specialize (IH (done ++ [c])%list (pre ++ [where_eq labels c])%list).
    rewrite <- !app_assoc in IH. simpl in IH.
    rewrite !length_app in IH. simpl in IH.
    replace (length done + 1) with (S (length done)) in IH by lia.
    apply IH; [ | lia ].
    intros c' Hc'. apply Hcs. simpl. auto.
Qed.

Lemma update_W_any :
  Lpl1.update_W labels M transp
  = if length labels <=? nrows M
    then Ok (map (fun r => if r <? length labels
                           then row_of (lab r) else repeat one (ncols M))
                 (seq 0 (nrows M)))
    else Err IndexError.
Proof.
  unfold Lpl1.update_W, Lpl1.indices_labels, ones, full.
  rewrite (repeat_map_seq (repeat one (ncols M)) (nrows M)).
  replace (map (fun _ : nat => repeat one (ncols M)) (seq 0 (nrows M)))
    with (map (g []) (seq 0 (nrows M))).
  2:{ apply map_ext. intros r. unfold g. simpl. rewrite andb_false_r. reflexivity. }
  pose proof (class_loop_any (unique labels) [] []
                (fun c Hc => proj1 (In_unique c labels) Hc) eq_refl) as H.
  simpl in H. rewrite H. clear H.
  destruct (Nat.leb_spec (length labels) (nrows M)) as [Hle | Hgt].
  - assert (Hall : forallb in_range (unique labels) = true).
    { apply forallb_forall. intros c _. unfold in_range.
      apply forallb_forall. intros r Hr. apply Nat.ltb_lt.
      apply where_eq_lt in Hr. lia. }
    rewrite Hall. f_equal. apply map_ext_in. intros r Hr. unfold g.
    destruct (Nat.ltb_spec r (length labels)) as [Hl | Hl]; simpl; [ | reflexivity ].
    assert (Hin : existsb (Z.eqb (lab r)) (unique labels) = true).
    { apply existsb_exists. exists (lab r). split; [ | apply Z.eqb_refl ].
      apply In_unique. apply nth_In. exact Hl. }
    rewrite Hin. reflexivity.
  - assert (Hnot : forallb in_range (unique labels) = false).
    { apply not_true_is_false. intros Hall. rewrite forallb_forall in Hall.
      assert (Hc : In (lab (nrows M)) (unique labels))
        by (apply In_unique, nth_In; exact Hgt).
      specialize (Hall _ Hc).
      assert (Hin : In (nrows M) (where_eq labels (lab (nrows M))))
        by (apply where_eq_lab_any; split; [ exact Hgt | reflexivity ]).
      pose proof (in_range_lt _ _ Hall Hin). lia. }
    rewrite Hnot. reflexivity.
Qed.

End UpdateWAny.

(** X2: with more labels than [M] has rows, and an entropic solver answering
    with arrays of the shape of [M], [sinkhorn_lpl1_mm] raises [IndexError],
    and does so only after its first solve, when it slices the coupling by
    class. *)
Theorem lpl1_mm_too_many_labels (h : oracle) (a : vec) (labels_a : list Z)
    (b : vec) (M : mat) (reg eta : R) (nin : Z) (thr : R) (numItermax : Z)
    (verbose log : bool) :
  answers_sinkhorn h (nrows M) (ncols M) ->
  nrows M < length labels_a ->
  (1 <= numItermax)%Z ->
  run h (Lpl1.sinkhorn_lpl1_mm a labels_a b M reg eta nin thr numItermax verbose log)
  = ([EvCall (Sinkhorn a b (madd M (smul (Fin eta) (zeros (nrows M) (ncols M))))
                reg nin thr)],
     Err IndexError).
Proof.
  intros Hans Hgt Hge. rewrite run_lpl1_mm.
  destruct (Z.to_nat numItermax) as [ | n] eqn:En; [ lia | ].
  cbn [Lpl1.outer_loop bind call run].
  destruct (Hans a b (madd M (smul (Fin eta) (zeros (nrows M) (ncols M)))) reg nin thr)
    as [g [Eg [Hr Hw]]].
  rewrite Eg, (update_W_any labels_a M g Hr Hw).
  destruct (Nat.leb_spec (length labels_a) (nrows M)); [ lia | ].
  reflexivity.
Qed.

Lemma lpl1_mm_too_many_labels_witness :
  run Ex.h (Lpl1.sinkhorn_lpl1_mm Ex.a [0%Z; 1%Z; 1%Z] Ex.b Ex.M 1 (1 / 10) 200
              (1 / 1000) 3 false false)
  = ([EvCall (Sinkhorn Ex.a Ex.b
                (madd Ex.M (smul (Fin (1 / 10)) (zeros (nrows Ex.M) (ncols Ex.M))))
                1 200 (1 / 1000))],
     Err IndexError).
Proof.
  apply lpl1_mm_too_many_labels.
  - exact Ex_h_answers.
  - simpl. lia.
  - lia.
Defined.

(** X3: with fewer labels than rows, the weights are recomputed without any
    error: a row that has a label carries the majorizer of its class's column
    masses, and every row past the labels keeps the weight 1 of
    [np.ones(M.shape)]. *)
Theorem lpl1_mm_unlabelled_rows (labels_a : list Z) (M transp : mat) :
  nrows transp = nrows M ->
  wf (ncols M) transp ->
  length labels_a <= nrows M ->
  exists W,
    Lpl1.update_W labels_a M transp = Ok W
    /\ nrows W = nrows M
    /\ (forall r, r < length labels_a ->
          nth r W []
          = map (fun j => Words.majorizer
                            (Words.class_mass labels_a transp (nth r labels_a 0%Z) j))
                (seq 0 (ncols M)))
    /\ (forall r, length labels_a <= r < nrows M ->
          nth r W [] = repeat one (ncols M)).
Proof.
  intros Hr Hw Hle. rewrite (update_W_any labels_a M transp Hr Hw).
  destruct (Nat.leb_spec (length labels_a) (nrows M)); [ | lia ].
  eexists. split; [ reflexivity | ]. split; [ | split ].
  - unfold nrows. rewrite length_map, length_seq. reflexivity.
  - intros r Hlt. rewrite (@nth_map_seq vec _ (nrows M) r []) by lia.
    destruct (Nat.ltb_spec r (length labels_a)); [ reflexivity | lia ].
  - intros r [H1 H2]. rewrite (@nth_map_seq vec _ (nrows M) r []) by lia.
    destruct (Nat.ltb_spec r (length labels_a)); [ lia | reflexivity ].
Qed.

Lemma lpl1_mm_unlabelled_rows_witness :
  exists W,
    Lpl1.update_W [4%Z] Ex.M Ex.T = Ok W
    /\ nrows W = nrows Ex.M
    /\ (forall r, r < length [4%Z] ->
          nth r W []
          = map (fun j => Words.majorizer
                            (Words.class_mass [4%Z] Ex.T (nth r [4%Z] 0%Z) j))
                (seq 0 (ncols Ex.M)))
    /\ (forall r, length [4%Z] <= r < nrows Ex.M ->
          nth r W [] = repeat one (ncols Ex.M)).
Proof.
  apply lpl1_mm_unlabelled_rows.
  - reflexivity.
  - repeat constructor.
  - simpl. lia.
Defined.

(** * The estimator classes *)

(** ** What the estimators can return *)

Lemma bcd_returns_as_asked (solve_G : mat -> mat -> prog mat)
    (solve_L : mat -> prog mat) (loss : mat -> mat -> fl) (numItermax : Z)
    (stopThr : R) (log : bool) (h : oracle) (G0 : mat) :
  returns_as_asked log
    (snd (run h (Joint.bcd solve_G solve_L loss numItermax stopThr log
                   (Z.to_nat numItermax) G0))).
Proof.
  pose proof (bcd_never_cut solve_G solve_L loss numItermax stopThr log h G0) as Hn.
  revert Hn. unfold Joint.bcd. rewrite run_bind.
  destruct (run h (solve_L G0)) as [t0 [L0 | e]]; simpl; [ | tauto ].
  rewrite run_bind.
  destruct (run h (Joint.bcd_while _ _ _ _ _ _ _)) as [t1 [[s1 | ] | e]]; simpl;
    try tauto.
  intros _. unfold Joint.bcd_return. destruct log; reflexivity.
Qed.

Lemma linear_returns_as_asked (h : oracle) (xs xt : mat) (mu eta : R) (bias : bool)
    (numItermax nin : Z) (thr stopThr : R) (log : bool) :
  returns_as_asked log
    (snd (run h (Joint.joint_OT_mapping_linear xs xt mu eta bias numItermax nin
                   thr stopThr log))).
Proof.
  unfold Joint.joint_OT_mapping_linear, Joint.joint_OT_mapping_linear_fuel.
  cbn [bind call run].
  destruct (on_call h (Dist xs xt)) as [D | e]; [ | exact Logic.I ].
  destruct (on_call h (Emd _ _ _)) as [G | e]; [ | exact Logic.I ].
  match goal with
  | |- context [run h (Joint.bcd ?sg ?sl ?lo _ _ _ _ _)] =>
      pose proof (bcd_returns_as_asked sg sl lo numItermax stopThr log h G) as Hr
  end.
  destruct (run h (Joint.bcd _ _ _ _ _ _ _ _)) as [t r]. exact Hr.
Qed.

Lemma kernel_returns_as_asked (h : oracle) (xs xt : mat) (mu eta : R)
    (kerneltype : String.string) (sigma : R) (bias : bool)
    (numItermax nin : Z) (thr stopThr : R) (log : bool) :
  returns_as_asked log
    (snd (run h (Joint.joint_OT_mapping_kernel xs xt mu eta kerneltype sigma bias
                   numItermax nin thr stopThr log))).
Proof.
  unfold Joint.joint_OT_mapping_kernel, Joint.joint_OT_mapping_kernel_fuel.
  cbn [bind call run].
  destruct (on_call h (Kernel xs xs kerneltype sigma)) as [K | e]; [ | exact Logic.I ].
  destruct (on_call h (Dist xs xt)) as [D | e]; [ | exact Logic.I ].
  destruct (on_call h (Emd _ _ _)) as [G | e]; [ | exact Logic.I ].
  match goal with
  | |- context [run h (Joint.bcd ?sg ?sl ?lo _ _ _ _ _)] =>
      pose proof (bcd_returns_as_asked sg sl lo numItermax stopThr log h G) as Hr
  end.
  destruct (run h (Joint.bcd _ _ _ _ _ _ _ _)) as [t r]. exact Hr.
Qed.

Lemma unpack_with_log {O : Type} (h : oracle)
    (est : prog (option Joint.mapping_ret)) (o1 : O) (fitted : mat -> mat -> O) :
  returns_as_asked true (snd (run h est)) ->
  exists e,
    Mapping.unpack h est o1 fitted = Some (fst (run h est), (o1, Err e))
    /\ (forall ret, snd (run h est) = Ok (Some ret) -> e = ValueError).
Proof.
  unfold Mapping.unpack. destruct (run h est) as [t [[[G L | G L lg] | ] | e]]; simpl.
  - discriminate.
  - intros _. exists ValueError. split; reflexivity.
  - contradiction.
  - intros _. exists e. split; [ reflexivity | discriminate ].
Qed.

(** ** [fit] and [predict] of the mapping classes *)

(** X7: a [fit] of [OTDA_mapping_linear] or [OTDA_mapping_kernel] that passes
    [log=True] on never succeeds: the estimator returns a triple, unpacking it
    into [self.G, self.L] raises [ValueError], and the object is left with the
    new samples and the new [bias] but with the mapping it had before, so a
    fitted linear object goes on predicting with its old [L] under the new
    [bias], on samples that have as many columns, the column of ones
    included, as [L] has rows, and an unfitted one stays unfitted. *)
Theorem mapping_fit_with_log (h : oracle) (xs xt : mat) (mu eta : R) (bias : bool)
    (kerneltype : String.string) (sigma : R) (kw : Mapping.kwargs) :
  Mapping.kw_log kw = Some true ->
  let ws := Joint.unif (nrows xs) in
  let wt := Joint.unif (nrows xt) in
  (forall o, exists e o',
     Mapping.Linear.fit h o xs xt mu eta bias kw
     = Some (trace h (Mapping.call_linear xs xt mu eta bias kw), (o', Err e))
     /\ (forall ret, outcome h (Mapping.call_linear xs xt mu eta bias kw)
                     = Ok (Some ret) -> e = ValueError)
     /\ o' = match o with
             | Mapping.Linear.Unfitted _ _ _ _ _ =>
                 Mapping.Linear.Unfitted (Some xs) (Some xt) bias (Some ws) (Some wt)
             | Mapping.Linear.Fitted _ _ G L _ _ _ =>
                 Mapping.Linear.Fitted xs xt G L bias ws wt
             end
     /\ forall x,
          match o with
          | Mapping.Linear.Unfitted _ _ _ _ _ =>
              Mapping.Linear.predict o' x = None
          | Mapping.Linear.Fitted _ _ _ L _ _ _ =>
              x <> [] -> L <> [] ->
              wf (nrows L) (if bias then hstack_ones x else x) ->
              Mapping.Linear.predict o' x
              = Some (mdot (if bias then hstack_ones x else x) L)
          end)
  /\ (forall o, exists e o',
        Mapping.Kernel.fit h o xs xt mu eta bias kerneltype sigma kw
        = Some (trace h (Mapping.call_kernel xs xt mu eta bias kw), (o', Err e))
        /\ (forall ret, outcome h (Mapping.call_kernel xs xt mu eta bias kw)
                        = Ok (Some ret) -> e = ValueError)
        /\ o' = match o with
                | Mapping.Kernel.Unfitted _ _ _ _ _ _ _ _ =>
                    Mapping.Kernel.Unfitted (Some xs) (Some xt) bias (Some ws)
                      (Some wt) (Some kerneltype) (Some sigma) (Some kw)
                | Mapping.Kernel.Fitted _ _ G L _ _ _ _ _ _ =>
                    Mapping.Kernel.Fitted xs xt G L bias ws wt kerneltype sigma kw
                end).
Proof.
  intros Hlog ws wt. split.
  - intros o.
    match goal with
    | |- context [Mapping.Linear.fit h o xs xt mu eta bias kw] =>
        unfold Mapping.Linear.fit
    end.
    fold ws wt.
    match goal with
    | |- context [Mapping.unpack h ?est ?o1 ?f] =>
        destruct (unpack_with_log h est o1 f) as [e [He1 He2]]
    end.
    { unfold Mapping.call_linear. rewrite Hlog. simpl Mapping.given at 5.
      apply linear_returns_as_asked. }
    exists e. eexists. split; [ exact He1 | ]. split; [ exact He2 | ].
    split; [ reflexivity | ]. intros x.
    destruct o; [ reflexivity | intros _ _ _; reflexivity ].
  - intros o.
    match goal with
    | |- context [Mapping.Kernel.fit h o xs xt mu eta bias kerneltype sigma kw] =>
        unfold Mapping.Kernel.fit
    end.
    fold ws wt.
    match goal with
    | |- context [Mapping.unpack h ?est ?o1 ?f] =>
        destruct (unpack_with_log h est o1 f) as [e [He1 He2]]
    end.
    { unfold Mapping.call_kernel. rewrite Hlog. simpl Mapping.given at 5.
      apply kernel_returns_as_asked. }
    exists e. eexists. split; [ exact He1 | ]. split; [ exact He2 | ].
    reflexivity.
Qed.

Lemma mapping_fit_with_log_witness :
  let kw := Mapping.Kwargs (Some 0%Z) None None None (Some true) in
  let o := Mapping.Linear.Fitted Ex.M Ex.M Ex.T Ex.T true
             (Joint.unif 2) (Joint.unif 2) in
  (exists e o',
     Mapping.Linear.fit Ex.h Mapping.Linear.init Ex.M Ex.M 1 1 true kw
     = Some (trace Ex.h (Mapping.call_linear Ex.M Ex.M 1 1 true kw), (o', Err e))
     /\ (forall ret, outcome Ex.h (Mapping.call_linear Ex.M Ex.M 1 1 true kw)
                     = Ok (Some ret) -> e = ValueError)
     /\ o' = Mapping.Linear.Unfitted (Some Ex.M) (Some Ex.M) true
               (Some (Joint.unif (nrows Ex.M))) (Some (Joint.unif (nrows Ex.M)))
     /\ forall x, Mapping.Linear.predict o' x = None)
  /\ (exists e o',
        Mapping.Linear.fit Ex.h o Ex.M Ex.M 1 1 false kw
        = Some (trace Ex.h (Mapping.call_linear Ex.M Ex.M 1 1 false kw),
                (o', Err e))
        /\ o' = Mapping.Linear.Fitted Ex.M Ex.M Ex.T Ex.T false
                  (Joint.unif 2) (Joint.unif 2)
        /\ Mapping.Linear.predict o' Ex.M = Some (mdot Ex.M Ex.T)).
Proof.
  intros kw o. split.
  - exact (proj1 (mapping_fit_with_log Ex.h Ex.M Ex.M 1 1 true String.EmptyString
                    1 kw eq_refl) Mapping.Linear.init).
  - destruct (proj1 (mapping_fit_with_log Ex.h Ex.M Ex.M 1 1 false
                       String.EmptyString 1 kw eq_refl) o)
      as [e [o' [Hfit [_ [Ho Hp]]]]].
    exists e, o'. split; [ exact Hfit | ]. split; [ exact Ho | ].
    apply (Hp Ex.M).
    + discriminate.
    + discriminate.
    + repeat constructor.
Defined.

Lemma run_call_head {A : Type} (h : oracle) (c : mcall) (k : mat -> prog A)
    (t : list event) (r : result A) :
  run h (CallM c k) = (t, r) -> exists t', t = EvCall c :: t'.
Proof.
  simpl. destruct (on_call h c) as [G | e].
  - destruct (run h (k G)) as [t1 r1]. intros E. injection E as <- _.
    eexists. reflexivity.
  - intros E. injection E as <- _. eexists. reflexivity.
Qed.

(** X8: a [fit] of [OTDA_mapping_kernel] that succeeds has trained with the
    Gaussian kernel of width 1, whatever [kerneltype] and [sigma] it was given:
    its first call is [kernel(xs, xs)] with these defaults; the [predict] of
    the fitted object then evaluates the kernel it was given, with the width
    it was given, against the training samples. *)
Theorem kernel_fit_ignores_kernel (h : oracle) (o o' : Mapping.Kernel.obj)
    (xs xt : mat) (mu eta : R) (bias : bool) (kerneltype : String.string)
    (sigma : R) (kw : Mapping.kwargs) (t : list event) :
  Mapping.Kernel.fit h o xs xt mu eta bias kerneltype sigma kw
  = Some (t, (o', Ok tt)) ->
  (exists t', t = EvCall (Kernel xs xs Names.gaussian 1) :: t')
  /\ exists L,
       forall x,
         Mapping.Kernel.predict o' x
         = bind (call (Kernel x xs kerneltype sigma))
                (fun K => Ret (Some (mdot (if bias then hstack_ones K else K) L))).
Proof.
  unfold Mapping.Kernel.fit, Mapping.unpack.
  destruct (run h (Mapping.call_kernel xs xt mu eta bias kw))
    as [t0 [[[G L | G L lg] | ] | e]] eqn:Er; try discriminate.
  intros E. injection E as <- <-. split.
  - assert (Hk : exists k, Mapping.call_kernel xs xt mu eta bias kw
                           = CallM (Kernel xs xs Names.gaussian 1) k)
      by (eexists; reflexivity).
    destruct Hk as [k Hk]. rewrite Hk in Er.
    eapply run_call_head. exact Er.
  - exists L. intros x. reflexivity.
Qed.

Lemma Ex_kernel_fit (kerneltype : String.string) (sigma : R) :
  let kw := Mapping.Kwargs (Some 0%Z) None None None None in
  exists t,
    Mapping.Kernel.fit Ex.h Mapping.Kernel.init Ex.M Ex.M 1 1 false kerneltype
      sigma kw
    = Some (t, (Mapping.Kernel.Fitted Ex.M Ex.M Ex.T Ex.T false
                  (Joint.unif 2) (Joint.unif 2) kerneltype sigma kw,
                Ok tt)).
Proof.
  intros kw. unfold Mapping.Kernel.fit, Mapping.unpack, Mapping.call_kernel,
    Joint.joint_OT_mapping_kernel, Joint.joint_OT_mapping_kernel_fuel.
  cbn [bind call run Ex.h on_call Mapping.given Mapping.kw_numItermax
       Mapping.kw_numInnerItermax Mapping.kw_stopInnerThr Mapping.kw_stopThr
       Mapping.kw_log kw].
  erewrite run_bcd_no_rounds; [ | lia | ].
  2:{ unfold Joint.ksolve_L, Joint.solve_L_nobias.
      cbn [call run Ex.h on_call]. reflexivity. }
  eexists. reflexivity.
Qed.

Lemma kernel_fit_ignores_kernel_witness :
  exists t o',
    Mapping.Kernel.fit Ex.h Mapping.Kernel.init Ex.M Ex.M 1 1 false
      String.EmptyString 5 (Mapping.Kwargs (Some 0%Z) None None None None)
    = Some (t, (o', Ok tt))
    /\ (exists t', t = EvCall (Kernel Ex.M Ex.M Names.gaussian 1) :: t')
    /\ exists L,
         forall x,
           Mapping.Kernel.predict o' x
           = bind (call (Kernel x Ex.M String.EmptyString 5))
                  (fun K => Ret (Some (mdot K L))).
Proof.
  destruct (Ex_kernel_fit String.EmptyString 5) as [t Et].
  exists t. eexists. split; [ exact Et | ].
  exact (kernel_fit_ignores_kernel Ex.h _ _ Ex.M Ex.M 1 1 false String.EmptyString 5
           _ t Et).
Defined.

(** ** The affine mapping *)

Lemma fmul_one_l (y : fl) : fmul one y = y.
Proof.
  destruct y as [b | s | ]; simpl; try reflexivity.
  - f_equal. ring.
  - unfold sign_of. destruct (Req_dec_T 1 0) as [E | _]; [ lra | ].
    destruct (Rlt_dec 1 0) as [Hlt | _]; [ lra | ].
    rewrite xorb_false_r. reflexivity.
Qed.

Lemma zip_with_app (f : fl -> fl -> fl) (u v u' v' : vec) :
  length u = length v ->
  zip_with f (u ++ u') (v ++ v') = (zip_with f u v ++ zip_with f u' v')%list.
Proof.
  revert v. induction u as [ | x u IH]; intros [ | y v] Hlen; simpl in *;
    try discriminate.
  - reflexivity.
  - f_equal. apply IH. lia.
Qed.

Lemma dot_snoc (r col : vec) (c : fl) :
  length r = length col ->
  dot (r ++ [one]) (col ++ [c]) = fadd (dot r col) c.
Proof.
  intros Hlen. unfold dot, fsum. rewrite zip_with_app by exact Hlen.
  rewrite fold_left_app. cbn [fold_left zip_with]. rewrite fmul_one_l.
  reflexivity.
Qed.

(** X9: with [bias], the [predict] of a fitted [OTDA_mapping_linear] is the
    affine map given by [L]: for samples with as many features as [L] has rows
    but the last, every row of the result is the sample times those rows plus
    the last row of [L]. *)
Theorem linear_predict_affine (xs xt G A : mat) (c ws wt : vec) (x : mat) (m : nat) :
  wf (length A) x ->
  wf m A ->
  length c = m ->
  exists Y,
    Mapping.Linear.predict
      (Mapping.Linear.Fitted xs xt G (A ++ [c]) true ws wt) x = Some Y
    /\ nrows Y = nrows x
    /\ forall k j, k < nrows x -> j < m ->
         entry Y k j = fadd (dot (nth k x []) (col A j)) (nth j c NaN).
Proof.
  intros Hx HA Hc. eexists. split; [ reflexivity | ]. split.
  - unfold mdot, hstack_ones, nrows. rewrite !length_map. reflexivity.
  - intros k j Hk Hj.
    assert (Hm : ncols (A ++ [c]) = m).
    { apply wf_ncols.
      - unfold wf. apply Forall_app. split; [ exact HA | ].
        constructor; [ exact Hc | constructor ].
      - destruct A; discriminate. }
    unfold entry, mdot. rewrite Hm.
    rewrite (nth_indep _ []
               (map (fun j0 => dot [] (col (A ++ [c]) j0)) (seq 0 m)))
      by (unfold hstack_ones; rewrite !length_map; exact Hk).
    rewrite (map_nth (fun r => map (fun j0 => dot r (col (A ++ [c]) j0)) (seq 0 m))
               (hstack_ones x) [] k).
    rewrite nth_map_seq by exact Hj.
    unfold hstack_ones.
    rewrite (nth_indep _ [] ([] ++ [one])) by (rewrite length_map; exact Hk).
    rewrite (map_nth (fun r => r ++ [one])%list x [] k).
    unfold col at 1. rewrite map_app. simpl map.
    fold (col A j). apply dot_snoc.
    unfold col. rewrite length_map. apply wf_nth; assumption.
Qed.

Lemma linear_predict_affine_witness :
  exists Y,
    Mapping.Linear.predict
      (Mapping.Linear.Fitted Ex.M Ex.M Ex.T (Ex.T ++ [[Fin 3; Fin 4]]) true
         Ex.a Ex.a) Ex.M = Some Y
    /\ nrows Y = nrows Ex.M
    /\ forall k j, k < nrows Ex.M -> j < 2 ->
         entry Y k j
         = fadd (dot (nth k Ex.M []) (col Ex.T j)) (nth j [Fin 3; Fin 4] NaN).
Proof.
  apply linear_predict_affine; repeat constructor.
Defined.

(** * The transport classes *)

(** ** Recognising the training samples *)

Lemma vec_equal_nan (u v : vec) : In NaN u -> Transport.vec_equal u v = false.
Proof.
  revert v. induction u as [ | x u IH]; intros v Hin; [ destruct Hin | ].
  destruct v as [ | y v]; [ reflexivity | ]. simpl.
  destruct Hin as [-> | Hin].
  - reflexivity.
  - rewrite (IH v Hin). apply andb_false_r.
Qed.

Lemma array_equal_nan (A B : mat) :
  In NaN (concat A) -> Transport.array_equal A B = false.
Proof.
  revert B. induction A as [ | r A IH]; intros B Hin; [ destruct Hin | ].
  destruct B as [ | s B]; [ reflexivity | ]. simpl in *.
  apply in_app_or in Hin. destruct Hin as [Hin | Hin].
  - rewrite (vec_equal_nan r s Hin). reflexivity.
  - rewrite (IH B Hin). apply andb_false_r.
Qed.

Lemma feq_refl (x : fl) : x <> NaN -> Transport.feq x x = true.
Proof.
  destruct x as [a | s | ]; simpl; intros H.
  - destruct (Req_dec_T a a); [ reflexivity | congruence ].
  - apply Bool.eqb_reflx.
  - congruence.
Qed.

Lemma vec_equal_refl (u : vec) : ~ In NaN u -> Transport.vec_equal u u = true.
Proof.
  induction u as [ | x u IH]; intros H; simpl.
  - reflexivity.
  - rewrite feq_refl by (intros E; apply H; left; auto).
    rewrite IH by (intros E; apply H; right; exact E). reflexivity.
Qed.

Lemma array_equal_refl (A : mat) :
  ~ In NaN (concat A) -> Transport.array_equal A A = true.
Proof.
  induction A as [ | r A IH]; intros H; simpl in *.
  - reflexivity.
  - rewrite vec_equal_refl by (intros E; apply H, in_or_app; left; exact E).
    rewrite IH by (intros E; apply H, in_or_app; right; exact E). reflexivity.
Qed.

(** X10: training samples that hold a NaN are never recognised again:
    [transform] returns whatever samples it is given unchanged, the training
    samples themselves included, and so does [inverse_transform] when the NaN
    is among the target samples. *)
Theorem transform_nan_training (o : Transport.obj) (X Z : mat) :
  In NaN (concat X) ->
  (Transport.Xs o = Some X -> Transport.transform o Z = Transport.POk Z)
  /\ (Transport.Xt o = Some X ->
      Transport.inverse_transform o Z = Transport.POk Z).
Proof.
  intros Hnan. split; intros E.
  - unfold Transport.transform. rewrite E. simpl.
    rewrite (array_equal_nan X Z Hnan). reflexivity.
  - unfold Transport.inverse_transform. rewrite E. simpl.
    rewrite (array_equal_nan X Z Hnan). reflexivity.
Qed.

Lemma transform_nan_training_witness :
  let o := Transport.Obj (Fin 10) String.EmptyString (fun X => Joint.unif (nrows X))
             None None None (Some [[Fin 1; NaN]]) (Some Ex.M) (Some Ex.T) in
  Transport.transform o [[Fin 1; NaN]] = Transport.POk [[Fin 1; NaN]].
Proof.
  intros o.
  apply (proj1 (transform_nan_training o [[Fin 1; NaN]] [[Fin 1; NaN]]
                  ltac:(simpl; auto))).
  reflexivity.
Defined.

(** ** The barycentric mapping *)

Lemma div_rows_map (f : vec -> fl) (C : mat) :
  Transport.div_rows C (map f C)
  = map (fun r => map (fun g => fdiv g (f r)) r) C.
Proof.
  induction C as [ | r C IH]; simpl; [ reflexivity | ]. rewrite IH. reflexivity.
Qed.

Lemma bary_rows (C : mat) :
  Transport.bary C (map fsum C)
  = map (fun r => map (fun g => if Transport.is_finite (fdiv g (fsum r))
                                then fdiv g (fsum r) else zero) r) C.
Proof.
  unfold Transport.bary, Transport.zero_fill. rewrite div_rows_map, map_map.
  apply map_ext. intros r. rewrite map_map. reflexivity.
Qed.

Lemma fold_fadd_not_finite (l : vec) (acc : fl) :
  ~ finite acc -> ~ finite (fold_left fadd l acc).
Proof.
  revert acc. induction l as [ | x l IH]; intros acc Hacc; simpl.
  - exact Hacc.
  - apply IH. destruct acc as [a | s | ]; simpl in *; try tauto;
      destruct x as [b | t | ]; simpl; try tauto.
    destruct (Bool.eqb s t); simpl; tauto.
Qed.

Lemma fsum_not_finite (row : vec) :
  Exists (fun x => ~ finite x) row -> ~ finite (fsum row).
Proof.
  unfold fsum. generalize zero.
  induction row as [ | x row IH]; intros acc H.
  - inversion H.
  - simpl. inversion H as [? ? Hx | ? ? Hrow]; subst.
    + apply fold_fadd_not_finite.
      destruct x as [b | t | ]; simpl in Hx; try tauto;
        destruct acc as [a | s | ]; simpl; try tauto.
      destruct (Bool.eqb s t); simpl; tauto.
    + apply IH. exact Hrow.
Qed.

Lemma fold_fadd_zeros (row : vec) (a : R) :
  Forall (fun x => x = zero) row -> fold_left fadd row (Fin a) = Fin a.
Proof.
  intros H. revert a. induction H as [ | x row -> _ IH]; intros a; simpl.
  - reflexivity.
  - replace (a + 0)%R with a by lra. apply IH.
Qed.

(** X11: the weights of the barycentric mapping, row by row. They are all
    finite, and a row of weights has the length of the row of the coupling.
    A row of the coupling that is zero everywhere, or that holds an infinite
    entry or a NaN, gets the weight zero everywhere. *)
Theorem barycentric_weights (C : mat) :
  let W := Transport.bary C (map fsum C) in
  nrows W = nrows C
  /\ Forall (Forall finite) W
  /\ forall k row, nth_error C k = Some row ->
       length (nth k W []) = length row
       /\ (Forall (fun x => x = zero) row \/ Exists (fun x => ~ finite x) row ->
           nth k W [] = map (fun _ => zero) row).
Proof.
  intros W. unfold W. rewrite bary_rows. split; [ | split ].
  - unfold nrows. apply length_map.
  - apply Forall_forall. intros r' Hr'. apply in_map_iff in Hr'.
    destruct Hr' as [r [<- _]]. apply Forall_forall. intros x Hx.
    apply in_map_iff in Hx. destruct Hx as [g [<- _]].
    destruct (fdiv g (fsum r)); simpl; exact I.
  - intros k row Hk.
    assert (Hrow : forall d, nth k (map (fun r => map (fun g =>
                     if Transport.is_finite (fdiv g (fsum r))
                     then fdiv g (fsum r) else zero) r) C) d
                   = map (fun g => if Transport.is_finite (fdiv g (fsum row))
                                   then fdiv g (fsum row) else zero) row).
    { intros d. apply nth_error_nth. rewrite nth_error_map, Hk. reflexivity. }
    rewrite Hrow. split; [ apply length_map | ].
    intros [Hz | Hinf].
    + assert (Es : fsum row = Fin 0)
        by (unfold fsum, zero; apply fold_fadd_zeros; exact Hz).
      rewrite Es. apply map_ext_in. intros g Hg.
      rewrite Forall_forall in Hz. rewrite (Hz g Hg). unfold zero. simpl.
      destruct (Req_dec_T 0 0) as [_ | Hne]; [ | contradiction ].
      unfold sign_of. destruct (Req_dec_T 0 0) as [_ | Hne];
        [ reflexivity | contradiction ].
    + pose proof (fsum_not_finite row Hinf) as Hs.
      apply map_ext. intros g.
      destruct (fsum row) as [a | s | ]; simpl in Hs; [ tauto | | ];
        destruct g as [b | t | ]; reflexivity.
Qed.

Lemma barycentric_weights_witness :
  let C := [[Fin 0; Fin 0]; [Fin 1; Inf false]] in
  nth 0 (Transport.bary C (map fsum C)) [] = [zero; zero]
  /\ nth 1 (Transport.bary C (map fsum C)) [] = [zero; zero].
Proof.
  intros C. split.
  - refine (proj2 (proj2 (proj2 (barycentric_weights C)) 0 [Fin 0; Fin 0]
                     eq_refl) _).
    left. repeat constructor.
  - refine (proj2 (proj2 (proj2 (barycentric_weights C)) 1 [Fin 1; Inf false]
                     eq_refl) _).
    right. apply Exists_cons_tl, Exists_cons_hd. simpl. tauto.
Defined.

(** ** The two directions of the mapping *)

Lemma column_sums (C : mat) :
  wf (ncols C) C -> sum_axis0 (ncols C) C = map fsum (transpose C).
Proof.
  intros Hwf. rewrite (sum_axis0_columns (ncols C) C Hwf).
  unfold transpose, col. rewrite map_map. reflexivity.
Qed.

(** X12: on a coupling with at least one row, all of the same length,
    [inverse_transform] is [transform] on the object seen from the target
    side: the source and target samples exchanged and the coupling
    transposed. It raises [AttributeError] where that [transform] does. *)
Theorem inverse_transform_swap (o : Transport.obj) (Z : mat) :
  (forall C, Transport.Coupling_ o = Some C -> C <> [] /\ wf (ncols C) C) ->
  Transport.inverse_transform o Z = Transport.transform (Transport.swap o) Z.
Proof.
  intros H. unfold Transport.inverse_transform, Transport.transform.
  cbn [Transport.swap Transport.Xs Transport.Xt Transport.Coupling_].
  destruct (Transport.Xt o) as [X | ]; [ | reflexivity ].
  cbn [Transport.attr]. destruct (Transport.array_equal X Z); [ | reflexivity ].
  destruct (Transport.Coupling_ o) as [C | ] eqn:EC; [ | reflexivity ].
  cbn [option_map Transport.attr].
  rewrite (column_sums C (proj2 (H C eq_refl))). reflexivity.
Qed.

Lemma inverse_transform_swap_witness :
  let o := Transport.Obj (Fin 10) String.EmptyString (fun X => Joint.unif (nrows X))
             None None None (Some TransportEx.X) (Some TransportEx.X) (Some Ex.T) in
  Transport.inverse_transform o TransportEx.X
  = Transport.transform (Transport.swap o) TransportEx.X.
Proof.
  intros o. apply (inverse_transform_swap o TransportEx.X).
  intros C E. injection E as <-. split; [ discriminate | ].
  repeat constructor.
Defined.

(** ** The masking of the cost *)

Lemma In_where_if_from (i k : nat) (p : Z -> bool) (labels : list Z) :
  In k (Transport.where_if_from i p labels) <->
  i <= k /\ exists a, nth_error labels (k - i) = Some a /\ p a = true.
Proof.
  revert i. induction labels as [ | x t IH]; intros i; simpl.
  - split; [ tauto | ]. intros [_ [a [H _]]]. destruct (k - i); discriminate.
  - destruct (p x) eqn:Ep; simpl; rewrite IH.
    + split.
      * intros [<- | [Hle [a [Ha Hp]]]].
        -- split; [ lia | ]. exists x. rewrite Nat.sub_diag. auto.
        -- split; [ lia | ]. exists a.
           replace (k - i) with (S (k - S i)) by lia. auto.
      * intros [Hle [a [Ha Hp]]].
        destruct (Nat.eq_dec i k) as [E | N]; [ left; exact E | right ].
        split; [ lia | ]. exists a.
        replace (k - i) with (S (k - S i)) in Ha by lia. auto.
    + split.
      * intros [Hle [a [Ha Hp]]]. split; [ lia | ]. exists a.
        replace (k - i) with (S (k - S i)) by lia. auto.
      * intros [Hle [a [Ha Hp]]]. destruct (Nat.eq_dec i k) as [E | N].
        -- subst. rewrite Nat.sub_diag in Ha. simpl in Ha. congruence.
        -- split; [ lia | ]. exists a.
           replace (k - i) with (S (k - S i)) in Ha by lia. auto.
Qed.

Lemma In_idx_s (k : nat) (ys : list Z) (c : Z) :
  In k (Transport.idx_s ys c) <->
  exists a, nth_error ys k = Some a /\ a <> c /\ a <> (-1)%Z.
Proof.
  unfold Transport.idx_s, Transport.where_if.
  rewrite In_where_if_from, Nat.sub_0_r. split.
  - intros [_ [a [Ha Hp]]]. exists a. apply andb_true_iff in Hp.
    destruct Hp as [H1 H2]. apply negb_true_iff in H1, H2.
    apply Z.eqb_neq in H1, H2. auto.
  - intros [a [Ha [H1 H2]]]. split; [ lia | ]. exists a. split; [ exact Ha | ].
    apply Z.eqb_neq in H1, H2. rewrite H1, H2. reflexivity.
Qed.

Lemma masked_classes (ys yt : list Z) (r j : nat) :
  existsb (fun c => existsb (Nat.eqb j) (where_eq yt c)
                    && existsb (Nat.eqb r) (Transport.idx_s ys c)) (unique ys)
  = Transport.masked ys yt r j.
Proof.
  apply eq_true_iff_eq. rewrite existsb_exists. split.
  - intros [c [Hc H]]. apply andb_true_iff in H. destruct H as [Hj Hr].
    apply existsb_eqb_In in Hj, Hr. apply In_where_eq in Hj.
    apply In_idx_s in Hr. destruct Hr as [a [Ha [H1 H2]]].
    apply (proj1 (In_unique c ys)) in Hc. unfold Transport.masked. rewrite Ha, Hj.
    apply Z.eqb_neq in H1, H2. rewrite H1, H2. simpl.
    apply existsb_exists. exists c. split; [ exact Hc | apply Z.eqb_refl ].
  - unfold Transport.masked.
    destruct (nth_error ys r) as [a | ] eqn:Ea; [ | discriminate ].
    destruct (nth_error yt j) as [b | ] eqn:Eb; [ | discriminate ].
    intros H. apply andb_true_iff in H. destruct H as [H Hin].
    apply andb_true_iff in H. destruct H as [H1 H2].
    apply negb_true_iff in H1, H2. apply Z.eqb_neq in H1, H2.
    apply existsb_exists in Hin. destruct Hin as [c [Hc E]].
    apply Z.eqb_eq in E. subst c.
    exists b. split; [ apply (proj2 (In_unique b ys)); exact Hc | ].
    apply andb_true_iff. split; apply existsb_eqb_In.
    + apply In_where_eq. exact Eb.
    + apply In_idx_s. exists a. auto.
Qed.

Section Masking.

Variables n nc : nat.
Hypothesis Hn : 0 < n.

Let mk (g : nat -> nat -> fl) : mat :=
  map (fun r => map (fun j => g r j) (seq 0 nc)) (seq 0 n).

Lemma nrows_mk (g : nat -> nat -> fl) : nrows (mk g) = n.
Proof. unfold mk, nrows. rewrite length_map, length_seq. reflexivity. Qed.

Lemma ncols_mk (g : nat -> nat -> fl) : ncols (mk g) = nc.
Proof.
  unfold mk. destruct n as [ | n']; [ lia | ].
  simpl. rewrite length_map, length_seq. reflexivity.
Qed.

Lemma fold_set_entry_mk (x : fl) (j : nat) (rs : list nat)
    (g : nat -> nat -> fl) :
  j < nc -> (forall r, In r rs -> r < n) ->
  fold_left (fun C' r => L1l2.set_entry C' r j x) rs (mk g)
  = mk (fun r j' => if (j' =? j) && existsb (Nat.eqb r) rs then x else g r j').
Proof.
  intros Hj. revert g. induction rs as [ | r rs IH]; intros g Hrs.
  - cbn [fold_left]. apply mk_ext. intros r j' _ _.
    simpl. rewrite andb_false_r. reflexivity.
  - cbn [fold_left]. unfold mk at 1.
    rewrite set_entry_mk by (auto; apply Hrs; simpl; auto).
    fold (mk (fun r' j0 => if (r' =? r) && (j0 =? j) then x else g r' j0)).
    rewrite IH by (intros; apply Hrs; simpl; auto).
    apply mk_ext. intros r' j' Hr' Hj'. simpl.
    destruct (Nat.eqb_spec j' j) as [-> | Hne]; simpl.
    + destruct (Nat.eqb_spec r' r) as [-> | Hne']; simpl.
      * destruct (existsb _ rs); reflexivity.
      * reflexivity.
    + rewrite andb_false_r. reflexivity.
Qed.

Lemma set_col_rows_mk (x : fl) (j : nat) (rs : list nat)
    (g : nat -> nat -> fl) :
  j < nc -> (forall r, In r rs -> r < n) ->
  Transport.set_col_rows (mk g) rs j x
  = Ok (mk (fun r j' =>
              if (j' =? j) && existsb (Nat.eqb r) rs then x else g r j')).
Proof.
  intros Hj Hrs. unfold Transport.set_col_rows.
  rewrite ncols_mk, nrows_mk.
  assert (E1 : (j <? nc) = true) by (apply Nat.ltb_lt; exact Hj).
  assert (E2 : forallb (fun r => r <? n) rs = true).
  { apply forallb_forall. intros r Hr. apply Nat.ltb_lt. auto. }
  rewrite E1, E2. cbn [andb]. f_equal. apply fold_set_entry_mk; assumption.
Qed.

Lemma mask_cols_mk (x : fl) (rs js : list nat) (g : nat -> nat -> fl) :
  (forall j, In j js -> j < nc) -> (forall r, In r rs -> r < n) ->
  Transport.mask_cols (mk g) rs js x
  = (mk (fun r j => if existsb (Nat.eqb j) js && existsb (Nat.eqb r) rs
                    then x else g r j), Ok tt).
Proof.
  intros Hjs Hrs. revert g Hjs. induction js as [ | j js IH]; intros g Hjs.
  - cbn [Transport.mask_cols]. apply (f_equal (fun C : mat => (C, Ok tt))).
    apply mk_ext. intros; reflexivity.
  - cbn [Transport.mask_cols].
    rewrite set_col_rows_mk by (auto; apply Hjs; simpl; auto).
    rewrite IH by (intros; apply Hjs; simpl; auto).
    apply (f_equal (fun C : mat => (C, Ok tt))).
    apply mk_ext. intros r j' _ _. simpl.
    destruct (Nat.eqb_spec j' j) as [-> | Hne]; simpl.
    + destruct (existsb (Nat.eqb j) js); simpl;
        destruct (existsb (Nat.eqb r) rs); reflexivity.
    + reflexivity.
Qed.

Variables ys yt : list Z.
Hypothesis Hys : length ys <= n.
Hypothesis Hyt : length yt <= nc.

Lemma mask_classes_mk (x : fl) (cs : list Z) (g : nat -> nat -> fl) :
  Transport.mask_classes ys yt (mk g) cs x
  = (mk (fun r j =>
           if existsb (fun c => existsb (Nat.eqb j) (where_eq yt c)
                                && existsb (Nat.eqb r) (Transport.idx_s ys c)) cs
           then x else g r j), Ok tt).
Proof.
  revert g. induction cs as [ | c cs IH]; intros g.
  - cbn [Transport.mask_classes]. apply (f_equal (fun C : mat => (C, Ok tt))).
    apply mk_ext. intros; reflexivity.
  - cbn [Transport.mask_classes]. rewrite mask_cols_mk.
    + rewrite IH. apply (f_equal (fun C : mat => (C, Ok tt))).
      apply mk_ext. intros r j _ _. simpl.
      destruct (existsb (Nat.eqb j) (where_eq yt c)
                && existsb (Nat.eqb r) (Transport.idx_s ys c)); simpl.
      * destruct (existsb _ cs); reflexivity.
      * reflexivity.
    + intros j Hj. apply where_eq_lt in Hj. lia.
    + intros r Hr. apply In_idx_s in Hr. destruct Hr as [a [Ha _]].
      assert (r < length ys) by (apply nth_error_Some; congruence). lia.
Qed.

End Masking.

Lemma grid_of_wf (C : mat) :
  wf (ncols C) C ->
  C = map (fun r => map (fun j => entry C r j) (seq 0 (ncols C)))
          (seq 0 (nrows C)).
Proof.
  intros Hwf.
  transitivity (map (fun r => nth r C []) (seq 0 (length C))).
  - symmetry. apply map_nth_seq_id.
  - apply map_ext_in. intros r Hr. apply in_seq in Hr. unfold entry.
    unfold nrows in Hr.
    rewrite <- (wf_nth (ncols C) C r Hwf) by lia.
    symmetry. apply map_nth_seq_id.
Qed.

Lemma entry_grid (g : nat -> nat -> fl) (n nc r j : nat) :
  r < n -> j < nc ->
  entry (map (fun r => map (fun j => g r j) (seq 0 nc)) (seq 0 n)) r j = g r j.
Proof.
  intros Hr Hj. unfold entry.
  rewrite (@nth_map_seq vec _ n r []) by exact Hr.
  apply nth_map_seq. exact Hj.
Qed.

Lemma mask_classes_entries (C : mat) (ys yt : list Z) (x : fl) :
  C <> [] -> wf (ncols C) C ->
  length ys <= nrows C -> length yt <= ncols C ->
  exists C',
    Transport.mask_classes ys yt C (unique ys) x = (C', Ok tt)
    /\ nrows C' = nrows C /\ ncols C' = ncols C /\ wf (ncols C) C'
    /\ forall r j, r < nrows C -> j < ncols C ->
         entry C' r j = if Transport.masked ys yt r j then x else entry C r j.
Proof.
  intros Hne Hwf Hys Hyt.
  assert (Hn : 0 < nrows C) by (destruct C; [ congruence | simpl; lia ]).
  pose proof (mask_classes_mk (nrows C) (ncols C) Hn ys yt Hys Hyt x (unique ys)
                (entry C)) as H.
  cbv beta in H. rewrite <- (grid_of_wf C Hwf) in H.
  eexists. split; [ exact H | ]. split; [ | split; [ | split ] ].
  - apply nrows_mk.
  - apply (ncols_mk _ _ Hn).
  - apply Forall_forall. intros row Hrow. apply in_map_iff in Hrow.
    destruct Hrow as [r [<- _]]. rewrite length_map, length_seq. reflexivity.
  - intros r j Hr Hj. rewrite entry_grid by assumption.
    rewrite masked_classes. reflexivity.
Qed.

Lemma np_max_nonempty (C : mat) (m : fl) : Transport.np_max C = Ok m -> C <> [].
Proof. intros H E. subst C. discriminate H. Qed.

(** The labelled fit on a rectangular cost that the labels fit into. *)
Lemma fit_labelled (e : Transport.env) (o : Transport.obj) (Xs Xt : mat)
    (ys yt : list Z) (C : mat) (m : fl) :
  Transport.on_dist e Xs Xt (Transport.metric o) = Ok C ->
  wf (ncols C) C ->
  length ys <= nrows C -> length yt <= ncols C ->
  Transport.np_max C = Ok m ->
  let lm := if Transport.feq (Transport.limit_max o) (Inf false)
            then Transport.limit_max o
            else fmul (Transport.limit_max o) m in
  exists C',
    Transport.fit e o Xs (Some ys) Xt (Some yt)
    = ([Transport.EvDist Xs Xt (Transport.metric o)],
       (Transport.Obj lm (Transport.metric o)
          (Transport.distribution_estimation o) (Some C')
          (Some (Transport.distribution_estimation o Xs))
          (Some (Transport.distribution_estimation o Xt))
          (Some Xs) (Some Xt) (Transport.Coupling_ o),
        Transport.POk tt))
    /\ nrows C' = nrows C /\ ncols C' = ncols C /\ wf (ncols C) C'
    /\ forall r j, r < nrows C -> j < ncols C ->
         entry C' r j
         = if Transport.masked ys yt r j then lm else entry C r j.
Proof.
  intros Hd Hwf Hys Hyt Hm lm.
  destruct (mask_classes_entries C ys yt lm (np_max_nonempty C m Hm) Hwf Hys Hyt)
    as [C' [HC' Hrest]].
  exists C'. split; [ | exact Hrest ].
  unfold Transport.fit. rewrite Hd. unfold Transport.mask_cost.
  cbn [Transport.set_Cost Transport.limit_max].
  destruct (Transport.feq (Transport.limit_max o) (Inf false)) eqn:Einf;
    cbn [negb]; [ | rewrite Hm; cbv beta iota delta [rbind] ];
    fold lm; rewrite HC'; reflexivity.
Qed.

(** X14: the labelled fit on a rectangular cost with at least one entry,
    whose rows and columns are at least as many as the labels given. The fit
    calls [dist] once and succeeds; [limit_max] is multiplied by the largest
    cost unless it is [+inf]; the entry of the stored cost for source sample
    [r] and target sample [j] is the new [limit_max] when both carry a label,
    the labels differ, the source label is not [-1] and the target label is
    one of the source labels, and it is the entry [dist] gave otherwise. *)
Theorem fit_masks_cost (e : Transport.env) (o : Transport.obj) (Xs Xt : mat)
    (ys yt : list Z) (C : mat) (m : fl) :
  Transport.on_dist e Xs Xt (Transport.metric o) = Ok C ->
  wf (ncols C) C ->
  length ys <= nrows C -> length yt <= ncols C ->
  Transport.np_max C = Ok m ->
  let lm := if Transport.feq (Transport.limit_max o) (Inf false)
            then Transport.limit_max o
            else fmul (Transport.limit_max o) m in
  exists C',
    Transport.fit e o Xs (Some ys) Xt (Some yt)
    = ([Transport.EvDist Xs Xt (Transport.metric o)],
       (Transport.Obj lm (Transport.metric o)
          (Transport.distribution_estimation o) (Some C')
          (Some (Transport.distribution_estimation o Xs))
          (Some (Transport.distribution_estimation o Xt))
          (Some Xs) (Some Xt) (Transport.Coupling_ o),
        Transport.POk tt))
    /\ nrows C' = nrows C /\ ncols C' = ncols C /\ wf (ncols C) C'
    /\ forall r j, r < nrows C -> j < ncols C ->
         entry C' r j
         = if Transport.masked ys yt r j then lm else entry C r j.
Proof. exact (fit_labelled e o Xs Xt ys yt C m). Qed.

Lemma fmax_reals (a b : R) :
  Transport.fmax (Fin a) (Fin b) = Fin (Rmax a b).
Proof.
  unfold Transport.fmax, flt, Rmax.
  destruct (Rlt_dec a b) as [H | H]; destruct (Rle_dec a b) as [H' | H'];
    try reflexivity; try lra.
  f_equal. lra.
Qed.

Lemma Ex_M_max : Transport.np_max Ex.M = Ok (Fin 1).
Proof.
  unfold Transport.np_max, Ex.M. cbn [concat app fold_left].
  rewrite !fmax_reals. do 2 f_equal.
  rewrite (Rmax_right 0 1) by lra. rewrite (Rmax_left 1 1) by lra.
  apply Rmax_left. lra.
Qed.

Lemma fit_masks_cost_witness :
  exists C',
    Transport.fit TransportEx.e TransportEx.o TransportEx.X (Some Ex.labels)
      TransportEx.X (Some Ex.labels)
    = ([Transport.EvDist TransportEx.X TransportEx.X String.EmptyString],
       (Transport.Obj (fmul (Fin 10) (Fin 1)) String.EmptyString
          (fun X => Joint.unif (nrows X)) (Some C')
          (Some (Joint.unif 2)) (Some (Joint.unif 2))
          (Some TransportEx.X) (Some TransportEx.X) None,
        Transport.POk tt))
    /\ nrows C' = 2 /\ ncols C' = 2 /\ wf 2 C'
    /\ forall r j, r < 2 -> j < 2 ->
         entry C' r j
         = if Transport.masked Ex.labels Ex.labels r j
           then fmul (Fin 10) (Fin 1) else entry Ex.M r j.
Proof.
  apply (fit_masks_cost TransportEx.e TransportEx.o TransportEx.X TransportEx.X
           Ex.labels Ex.labels Ex.M (Fin 1)).
  - reflexivity.
  - repeat constructor.
  - simpl. lia.
  - simpl. lia.
  - exact Ex_M_max.
Defined.

(** X15: target samples labelled [-1] in a labelled fit. As soon as one
    source sample is labelled [-1], the cost between a source sample with
    another label and a target sample labelled [-1] is set to [limit_max];
    when no source sample is labelled [-1], the costs of that target sample
    are the ones [dist] gave. *)
Theorem fit_unlabelled_target (e : Transport.env) (o : Transport.obj)
    (Xs Xt : mat) (ys yt : list Z) (C : mat) (m : fl) (r j : nat) (a : Z) :
  Transport.on_dist e Xs Xt (Transport.metric o) = Ok C ->
  wf (ncols C) C ->
  length ys <= nrows C -> length yt <= ncols C ->
  Transport.np_max C = Ok m ->
  nth_error ys r = Some a -> nth_error yt j = Some (-1)%Z ->
  let o' := fst (snd (Transport.fit e o Xs (Some ys) Xt (Some yt))) in
  exists C',
    Transport.Cost o' = Some C'
    /\ (In (-1)%Z ys -> a <> (-1)%Z ->
        entry C' r j = Transport.limit_max o')
    /\ (~ In (-1)%Z ys -> entry C' r j = entry C r j).
Proof.
  intros Hd Hwf Hys Hyt Hm Ha Hb o'.
  destruct (fit_labelled e o Xs Xt ys yt C m Hd Hwf Hys Hyt Hm)
    as [C' [Hfit [_ [_ [_ Hent]]]]].
  unfold o'. rewrite Hfit. cbn [fst snd Transport.Cost Transport.limit_max].
  exists C'. split; [ reflexivity | ].
  assert (Hr : r < nrows C).
  { assert (r < length ys) by (apply nth_error_Some; congruence). lia. }
  assert (Hj : j < ncols C).
  { assert (j < length yt) by (apply nth_error_Some; congruence). lia. }
  rewrite (Hent r j Hr Hj). unfold Transport.masked. rewrite Ha, Hb. split.
  - intros Hin Hne.
    assert (E : existsb (Z.eqb (-1)) ys = true).
    { apply existsb_exists. exists (-1)%Z. split; [ exact Hin | reflexivity ]. }
    apply Z.eqb_neq in Hne. rewrite E, Hne. reflexivity.
  - intros Hnin.
    assert (E : existsb (Z.eqb (-1)) ys = false).
    { apply not_true_is_false. intros H. apply existsb_exists in H.
      destruct H as [c [Hc Hcc]]. apply Z.eqb_eq in Hcc. subst c. auto. }
    rewrite E, andb_false_r. reflexivity.
Qed.

Lemma fit_unlabelled_target_witness :
  let o' := fst (snd (Transport.fit TransportEx.e TransportEx.o TransportEx.X
                        (Some [0%Z; (-1)%Z]) TransportEx.X
                        (Some [0%Z; (-1)%Z]))) in
  exists C',
    Transport.Cost o' = Some C'
    /\ (In (-1)%Z [0%Z; (-1)%Z] -> 0%Z <> (-1)%Z ->
        entry C' 0 1 = Transport.limit_max o')
    /\ (~ In (-1)%Z [0%Z; (-1)%Z] -> entry C' 0 1 = entry Ex.M 0 1).
Proof.
  apply (fit_unlabelled_target TransportEx.e TransportEx.o TransportEx.X
           TransportEx.X [0%Z; (-1)%Z] [0%Z; (-1)%Z] Ex.M (Fin 1) 0 1 0%Z).
  - reflexivity.
  - repeat constructor.
  - simpl. lia.
  - simpl. lia.
  - exact Ex_M_max.
  - reflexivity.
  - reflexivity.
Defined.

(** X16: every labelled fit rescales [limit_max] again. After one fit a
    finite [limit_max] is the one given times the largest cost, after a
    second fit of the same object on the same samples it is that times the
    largest cost once more; [+inf] is left as it is. *)
Theorem fit_twice_limit_max (e : Transport.env) (o : Transport.obj)
    (Xs Xt : mat) (ys yt : list Z) (C : mat) (l m : R) :
  Transport.on_dist e Xs Xt (Transport.metric o) = Ok C ->
  wf (ncols C) C ->
  length ys <= nrows C -> length yt <= ncols C ->
  Transport.np_max C = Ok (Fin m) ->
  let fit1 := Transport.fit e o Xs (Some ys) Xt (Some yt) in
  let o1 := fst (snd fit1) in
  let fit2 := Transport.fit e o1 Xs (Some ys) Xt (Some yt) in
  let o2 := fst (snd fit2) in
  snd (snd fit1) = Transport.POk tt /\ snd (snd fit2) = Transport.POk tt
  /\ (Transport.limit_max o = Fin l ->
      Transport.limit_max o1 = Fin (l * m)
      /\ Transport.limit_max o2 = Fin (l * m * m))
  /\ (Transport.limit_max o = Inf false ->
      Transport.limit_max o1 = Inf false /\ Transport.limit_max o2 = Inf false).
Proof.
  intros Hd Hwf Hys Hyt Hm fit1 o1 fit2 o2.
  destruct (fit_labelled e o Xs Xt ys yt C (Fin m) Hd Hwf Hys Hyt Hm)
    as [C1 [Hfit1 _]].
  assert (E1 : o1 = fst (snd fit1)) by reflexivity.
  unfold fit1 in E1. rewrite Hfit1 in E1. cbn [fst snd] in E1.
  assert (Hd1 : Transport.on_dist e Xs Xt (Transport.metric o1) = Ok C).
  { rewrite E1. exact Hd. }
  destruct (fit_labelled e o1 Xs Xt ys yt C (Fin m) Hd1 Hwf Hys Hyt Hm)
    as [C2 [Hfit2 _]].
  assert (E2 : o2 = fst (snd fit2)) by reflexivity.
  unfold fit2 in E2. rewrite Hfit2 in E2. cbn [fst snd] in E2.
  split; [ unfold fit1; rewrite Hfit1; reflexivity | ].
  split; [ unfold fit2; rewrite Hfit2; reflexivity | ].
  split.
  - intros Hl.
    assert (L1 : Transport.limit_max o1 = Fin (l * m)).
    { rewrite E1. cbn [Transport.limit_max]. rewrite Hl. reflexivity. }
    split; [ exact L1 | ].
    rewrite E2. cbn [Transport.limit_max]. rewrite L1. reflexivity.
  - intros Hl.
    assert (L1 : Transport.limit_max o1 = Inf false).
    { rewrite E1. cbn [Transport.limit_max]. rewrite Hl. reflexivity. }
    split; [ exact L1 | ].
    rewrite E2. cbn [Transport.limit_max]. rewrite L1. reflexivity.
Qed.

Lemma fit_twice_limit_max_witness :
  let fit1 := Transport.fit TransportEx.e TransportEx.o TransportEx.X
                (Some Ex.labels) TransportEx.X (Some Ex.labels) in
  let o1 := fst (snd fit1) in
  let fit2 := Transport.fit TransportEx.e o1 TransportEx.X
                (Some Ex.labels) TransportEx.X (Some Ex.labels) in
  let o2 := fst (snd fit2) in
  Transport.limit_max o1 = Fin (10 * 1)
  /\ Transport.limit_max o2 = Fin (10 * 1 * 1).
Proof.
  refine (proj1 (proj2 (proj2
    (fit_twice_limit_max TransportEx.e TransportEx.o TransportEx.X
       TransportEx.X Ex.labels Ex.labels Ex.M 10 1 eq_refl _ _ _ Ex_M_max)))
    eq_refl).
  - repeat constructor.
  - simpl. lia.
  - simpl. lia.
Defined.

(** ** Fitting and transporting in one call *)

Lemma fit_ok_samples (e : Transport.env) (o : Transport.obj) (Xs Xt : mat)
    (ys yt : option (list Z)) (t : list Transport.tevent) (o' : Transport.obj)
    (u : unit) :
  Transport.fit e o Xs ys Xt yt = (t, (o', Transport.POk u)) ->
  Transport.Xs o' = Some Xs /\ Transport.Xt o' = Some Xt
  /\ Transport.mu_s o' = Some (Transport.distribution_estimation o' Xs)
  /\ Transport.mu_t o' = Some (Transport.distribution_estimation o' Xt)
  /\ Transport.Coupling_ o' = Transport.Coupling_ o
  /\ exists C, Transport.Cost o' = Some C.
Proof.
  unfold Transport.fit.
  destruct (Transport.on_dist e Xs Xt (Transport.metric o)) as [C | x];
    [ | discriminate ].
  destruct ys as [ys | ]; [ destruct yt as [yt | ] | ].
  - unfold Transport.mask_cost.
    destruct (if negb _ then _ else _) as [lm | x]; [ | discriminate ].
    destruct (Transport.mask_classes _ _ _ _ _) as [C' [[] | x]];
      [ | discriminate ].
    intros H. inversion H; subst. cbn. eauto 10.
  - intros H. inversion H; subst. cbn. eauto 10.
  - intros H. inversion H; subst. cbn. eauto 10.
Qed.

(** X13: [fit_transform] of an [EMDTransport] whose fit succeeds leaves the
    object as [fit] does and makes no further call. It returns the
    barycentric mapping of the source samples under the coupling [emd] gave,
    unless the source samples hold a NaN: then it returns them as they
    are. *)
Theorem emd_fit_transform_result (e : Transport.env) (o : Transport.obj)
    (Xs Xt : mat) (ys yt : option (list Z)) (t : list Transport.tevent)
    (o' : Transport.obj) :
  Transport.emd_fit e o Xs ys Xt yt = (t, (o', Transport.POk tt)) ->
  exists G,
    Transport.Coupling_ o' = Some G
    /\ (~ In NaN (concat Xs) ->
        Transport.emd_fit_transform e o Xs ys Xt yt
        = (t, (o', Transport.POk (mdot (Transport.bary G (map fsum G)) Xt))))
    /\ (In NaN (concat Xs) ->
        Transport.emd_fit_transform e o Xs ys Xt yt
        = (t, (o', Transport.POk Xs))).
Proof.
  intros Hfit. unfold Transport.emd_fit_transform. rewrite Hfit.
  unfold Transport.emd_fit in Hfit.
  destruct (Transport.fit e o Xs ys Xt yt) as [t0 [o0 [[] | x]]] eqn:E0;
    [ | discriminate ].
  destruct (fit_ok_samples e o Xs Xt ys yt t0 o0 tt E0)
    as [HXs [HXt [Hms [Hmt [_ [C HC]]]]]].
  rewrite Hms, Hmt, HC in Hfit.
  destruct (on_call (Transport.core e) _) as [G | x]; [ | discriminate ].
  inversion Hfit; subst. exists G. split; [ reflexivity | ].
  unfold Transport.transform.
  cbn [Transport.set_Coupling Transport.Xs Transport.Xt Transport.Coupling_
       Transport.attr].
  rewrite HXs, HXt. cbn [Transport.attr]. split; intros H.
  - rewrite (array_equal_refl Xs H). reflexivity.
  - rewrite (array_equal_nan Xs Xs H). reflexivity.
Qed.

Lemma emd_fit_transform_result_witness :
  exists G,
    Transport.Coupling_
      (fst (snd (Transport.emd_fit TransportEx.e TransportEx.o TransportEx.X
                   None TransportEx.X None))) = Some G
    /\ (~ In NaN (concat TransportEx.X) ->
        Transport.emd_fit_transform TransportEx.e TransportEx.o TransportEx.X
          None TransportEx.X None
        = (fst (Transport.emd_fit TransportEx.e TransportEx.o TransportEx.X
                  None TransportEx.X None),
           (fst (snd (Transport.emd_fit TransportEx.e TransportEx.o
                        TransportEx.X None TransportEx.X None)),
            Transport.POk (mdot (Transport.bary G (map fsum G)) TransportEx.X))))
    /\ (In NaN (concat TransportEx.X) ->
        Transport.emd_fit_transform TransportEx.e TransportEx.o TransportEx.X
          None TransportEx.X None
        = (fst (Transport.emd_fit TransportEx.e TransportEx.o TransportEx.X
                  None TransportEx.X None),
           (fst (snd (Transport.emd_fit TransportEx.e TransportEx.o
                        TransportEx.X None TransportEx.X None)),
            Transport.POk TransportEx.X))).
Proof.
  apply (emd_fit_transform_result TransportEx.e TransportEx.o TransportEx.X
           TransportEx.X None None).
  reflexivity.
Defined.

(** X17: a fit of an [EMDTransport] that fails in [emd] has already stored
    the new samples, marginals and cost, and leaves the coupling of the
    object as it was. On an object fitted before, whose coupling has as many
    columns as there are new target samples, [transform] of the new source
    samples then uses the coupling of the earlier fit; on a new object it
    raises [AttributeError]. *)
Theorem emd_fit_failure (e : Transport.env) (o o0 : Transport.obj)
    (Xs Xt : mat) (ys yt : option (list Z)) (t : list Transport.tevent)
    (M : mat) (x : exn) :
  Transport.fit e o Xs ys Xt yt = (t, (o0, Transport.POk tt)) ->
  Transport.Cost o0 = Some M ->
  on_call (Transport.core e)
    (Emd (Transport.distribution_estimation o0 Xs)
         (Transport.distribution_estimation o0 Xt) M) = Err x ->
  ~ In NaN (concat Xs) ->
  Xt <> [] ->
  (forall G, Transport.Coupling_ o = Some G -> G <> [] /\ wf (nrows Xt) G) ->
  Transport.emd_fit e o Xs ys Xt yt
  = ((t ++ [Transport.EvCore
              (EvCall (Emd (Transport.distribution_estimation o0 Xs)
                           (Transport.distribution_estimation o0 Xt) M))])%list,
     (o0, Transport.PErr (Transport.Builtin x)))
  /\ Transport.Xs o0 = Some Xs /\ Transport.Xt o0 = Some Xt
  /\ Transport.Coupling_ o0 = Transport.Coupling_ o
  /\ Transport.transform o0 Xs
     = match Transport.Coupling_ o with
       | Some G => Transport.POk (mdot (Transport.bary G (map fsum G)) Xt)
       | None => Transport.PErr Transport.AttributeError
       end.
Proof.
  intros Hfit HM Hemd Hnan _ _.
  destruct (fit_ok_samples e o Xs Xt ys yt t o0 tt Hfit)
    as [HXs [HXt [Hms [Hmt [HG _]]]]].
  split; [ | split; [ exact HXs | split; [ exact HXt | split; [ exact HG | ] ] ] ].
  - unfold Transport.emd_fit. rewrite Hfit, Hms, Hmt, HM, Hemd. reflexivity.
  - unfold Transport.transform. rewrite HXs, HXt, HG. cbn [Transport.attr].
    rewrite (array_equal_refl Xs Hnan).
    destruct (Transport.Coupling_ o); reflexivity.
Qed.

Lemma emd_fit_failure_witness :
  Transport.transform
    (fst (snd (Transport.fit TransportEx.e_fail TransportEx.fitted
                 TransportEx.X None TransportEx.X None))) TransportEx.X
  = Transport.POk (mdot (Transport.bary Ex.T (map fsum Ex.T)) TransportEx.X).
Proof.
  refine (proj2 (proj2 (proj2 (proj2
    (emd_fit_failure TransportEx.e_fail TransportEx.fitted _ TransportEx.X
       TransportEx.X None None _ Ex.M (CollaboratorError 0)
       eq_refl eq_refl eq_refl _ _ _))))).
  - simpl. intros [H | [H | []]]; discriminate.
  - discriminate.
  - intros G E. injection E as <-. split; [ discriminate | repeat constructor ].
Defined.

(** ** [SinkhornLpl1Transport] *)

Lemma mm_rounds_calls (h : oracle) (a : vec) (labels_a : list Z) (b : vec)
    (M : mat) (reg eta : R) (nin : Z) (thr : R) (n : nat) (W : mat)
    (last : option mat) :
  Forall (fun ev => exists a b C reg n thr,
            ev = EvCall (Sinkhorn a b C reg n thr))
    (fst (Words.mm_rounds h a labels_a b M reg eta nin thr n W last)).
Proof.
  revert W last. induction n as [ | n IH]; intros W last; simpl.
  - constructor.
  - destruct (on_call h _) as [g | x].
    + specialize (IH (Words.W_of labels_a (ncols M) g) (Some g)).
      destruct (Words.mm_rounds _ _ _ _ _ _ _ _ _ _ _ _) as [t' r'].
      simpl in *. constructor; [ | exact IH ].
      repeat eexists.
    + simpl. constructor; [ repeat eexists | constructor ].
Qed.

(** X18: the fit of a [SinkhornLpl1Transport] once the fit of the base class
    has succeeded, with a label for every source sample and an entropic
    solver that answers with arrays of the shape of the cost. The solver is
    called [max_iter] times and nothing else is. With [max_iter] at least 1
    the fit succeeds and stores an array as the coupling, whatever [log] is;
    with [max_iter] at most 0 it raises [UnboundLocalError], and the object
    keeps the samples and the cost of this fit with the coupling it had. *)
Theorem lpl1_transport_fit (e : Transport.env)
    (p : SinkhornLpl1Transport.params) (o o0 : Transport.obj) (Xs Xt : mat)
    (ys : list Z) (yt : option (list Z)) (t : list Transport.tevent) (M : mat) :
  Transport.fit e o Xs (Some ys) Xt yt = (t, (o0, Transport.POk tt)) ->
  Transport.Cost o0 = Some M ->
  length ys = nrows M ->
  answers_sinkhorn (Transport.core e) (nrows M) (ncols M) ->
  exists tr o' res,
    SinkhornLpl1Transport.fit e p o Xs ys Xt yt
    = Some ((t ++ map Transport.EvCore tr)%list, (o', res))
    /\ length tr = Z.to_nat (SinkhornLpl1Transport.max_iter p)
    /\ Forall (fun ev => exists a b C reg n thr,
                 ev = EvCall (Sinkhorn a b C reg n thr)) tr
    /\ ((1 <= SinkhornLpl1Transport.max_iter p)%Z ->
        res = Transport.POk tt
        /\ exists G, o' = Transport.set_Coupling o0 G)
    /\ ((SinkhornLpl1Transport.max_iter p <= 0)%Z ->
        res = Transport.PErr (Transport.Builtin UnboundLocalError)
        /\ o' = o0 /\ Transport.Coupling_ o' = Transport.Coupling_ o).
Proof.
  intros Hfit HM Hlab Hans.
  destruct (fit_ok_samples e o Xs Xt (Some ys) yt t o0 tt Hfit)
    as [HXs [HXt [Hms [Hmt [HG _]]]]].
  unfold SinkhornLpl1Transport.fit. rewrite Hfit, Hms, Hmt, HM.
  rewrite run_lpl1_mm.
  rewrite (run_outer_loop (Transport.core e) _ ys _ M _ _ _ _ Hlab Hans).
  destruct (mm_rounds_total (Transport.core e)
              (Transport.distribution_estimation o0 Xs) ys
              (Transport.distribution_estimation o0 Xt) M
              (SinkhornLpl1Transport.reg_e p) (SinkhornLpl1Transport.reg_cl p)
              (SinkhornLpl1Transport.max_inner_iter p)
              (SinkhornLpl1Transport.tol p) Hlab Hans
              (Z.to_nat (SinkhornLpl1Transport.max_iter p))
              (zeros (nrows M) (ncols M)) None)
    as [r [Hr [Hlen [H0 H1]]]].
  pose proof (mm_rounds_calls (Transport.core e)
                (Transport.distribution_estimation o0 Xs) ys
                (Transport.distribution_estimation o0 Xt) M
                (SinkhornLpl1Transport.reg_e p) (SinkhornLpl1Transport.reg_cl p)
                (SinkhornLpl1Transport.max_inner_iter p)
                (SinkhornLpl1Transport.tol p)
                (Z.to_nat (SinkhornLpl1Transport.max_iter p))
                (zeros (nrows M) (ncols M)) None) as Hcalls.
  destruct (Words.mm_rounds _ _ _ _ _ _ _ _ _ _ _ _) as [tr r'].
  simpl in Hr, Hlen, Hcalls. subst r'.
  destruct r as [G | ].
  - exists tr, (Transport.set_Coupling o0 G), (Transport.POk tt).
    split; [ reflexivity | ]. split; [ exact Hlen | ].
    split; [ exact Hcalls | ]. split.
    + intros _. split; [ reflexivity | ]. exists G. reflexivity.
    + intros Hle. assert (E : Z.to_nat (SinkhornLpl1Transport.max_iter p) = 0)
        by lia.
      specialize (H0 E). discriminate.
  - exists tr, o0, (Transport.PErr (Transport.Builtin UnboundLocalError)).
    split; [ reflexivity | ]. split; [ exact Hlen | ].
    split; [ exact Hcalls | ]. split.
    + intros Hge. assert (E : 1 <= Z.to_nat (SinkhornLpl1Transport.max_iter p))
        by lia.
      destruct (H1 E) as [G HG']. discriminate.
    + intros _. split; [ reflexivity | ]. split; [ reflexivity | exact HG ].
Qed.

Lemma lpl1_transport_fit_witness :
  exists tr o' res,
    SinkhornLpl1Transport.fit TransportEx.e SinkhornLpl1TransportEx.p
      TransportEx.o TransportEx.X Ex.labels TransportEx.X None
    = Some (([Transport.EvDist TransportEx.X TransportEx.X String.EmptyString]
             ++ map Transport.EvCore tr)%list, (o', res))
    /\ length tr = 10
    /\ res = Transport.POk tt.
Proof.
  destruct (lpl1_transport_fit TransportEx.e SinkhornLpl1TransportEx.p
              TransportEx.o _ TransportEx.X TransportEx.X Ex.labels None _ Ex.M
              eq_refl eq_refl eq_refl Ex_h_answers)
    as [tr [o' [res [Hfit [Hlen [_ [Hok _]]]]]]].
  exists tr, o', res. split; [ exact Hfit | ]. split; [ exact Hlen | ].
  apply Hok. simpl. lia.
Defined.

(** ** The class [OTDA] *)

Lemma length_unif (n : nat) : length (Joint.unif n) = n.
Proof. unfold Joint.unif. apply repeat_length. Qed.

(** X19: the warning of [interp] that the model is not fitted. On an object
    that [fit] was never called on, [interp] raises [AttributeError] in both
    directions. After a first [fit] with the default weights that failed,
    [interp] returns [None] from source to target and still raises
    [AttributeError] from target to source. *)
Theorem otda_interp_not_fitted (e : Transport.env) (m : String.string)
    (xs xt : mat) (norm : option String.string) (x : exn) :
  snd (snd (OTDA.fit e (OTDA.init m) xs xt None None norm)) = Err x ->
  let o' := fst (snd (OTDA.fit e (OTDA.init m) xs xt None None norm)) in
  (forall d, OTDA.interp (OTDA.init m) d = Transport.PErr Transport.AttributeError)
  /\ (forall d, (0 < d)%Z -> OTDA.interp o' d = Transport.POk None)
  /\ (forall d, (d <= 0)%Z ->
      OTDA.interp o' d = Transport.PErr Transport.AttributeError).
Proof.
  intros Hfail o'. split.
  - intros d. unfold OTDA.init, OTDA.interp.
    destruct (0 <? d)%Z; reflexivity.
  - assert (Ho : exists M, o' = OTDA.Unfitted m (Some xs) (Some xt)
                       (Some (Joint.unif (nrows xs)))
                       (Some (Joint.unif (nrows xt))) M).
    { unfold o'. revert Hfail. unfold OTDA.fit.
      cbn [OTDA.init OTDA.set_samples OTDA.metric OTDA.set_M].
      destruct (Transport.on_dist e xs xt m) as [C | y];
        [ | intros _; eexists; reflexivity ].
      destruct (OTDA.normalizeM C norm) as [C' | y];
        [ | intros _; eexists; reflexivity ].
      destruct (on_call (Transport.core e) _) as [G | y];
        [ | intros _; eexists; reflexivity ].
      discriminate. }
    destruct Ho as [M ->]. split; intros d Hd; unfold OTDA.interp.
    + assert (E : (0 <? d)%Z = true) by (apply Z.ltb_lt; exact Hd).
      rewrite E. cbn [Transport.attr]. unfold OTDA.reshape_col.
      rewrite length_unif, Nat.eqb_refl. reflexivity.
    + assert (E : (0 <? d)%Z = false) by (apply Z.ltb_ge; exact Hd).
      rewrite E. reflexivity.
Qed.

Lemma otda_interp_not_fitted_witness :
  OTDA.interp
    (fst (snd (OTDA.fit OTDAEx.e_nodist (OTDA.init String.EmptyString)
                 TransportEx.X TransportEx.X None None None))) 1
  = Transport.POk None.
Proof.
  refine (proj1 (proj2
    (otda_interp_not_fitted OTDAEx.e_nodist String.EmptyString TransportEx.X
       TransportEx.X None (CollaboratorError 1) eq_refl)) 1%Z _).
  lia.
Defined.

Lemma fold_fmax_reals (l : list R) (a : R) :
  fold_left Transport.fmax (map Fin l) (Fin a) = Fin (fold_left Rmax l a).
Proof.
  revert a. induction l as [ | y l IH]; intros a.
  - reflexivity.
  - cbn [map fold_left]. rewrite fmax_reals. apply IH.
Qed.

Lemma fold_Rmax_bounds (l : list R) (a : R) :
  (a <= fold_left Rmax l a)%R
  /\ forall y, In y l -> (y <= fold_left Rmax l a)%R.
Proof.
  revert a. induction l as [ | z l IH]; intros a; simpl.
  - split; [ lra | tauto ].
  - destruct (IH (Rmax a z)) as [H1 H2].
    pose proof (Rmax_l a z). pose proof (Rmax_r a z).
    split; [ lra | ].
    intros y [<- | Hy]; [ lra | auto ].
Qed.

Lemma Rmax_scale (m a b : R) :
  (0 < m)%R -> Rmax (a / m) (b / m) = (Rmax a b / m)%R.
Proof.
  intros Hm. pose proof (Rinv_0_lt_compat m Hm) as Hi.
  unfold Rmax, Rdiv.
  destruct (Rle_dec (a * / m) (b * / m)) as [H | H];
    destruct (Rle_dec a b) as [H' | H']; try reflexivity.
  - assert (a * / m = b * / m)%R by nra. lra.
  - exfalso. apply H. nra.
Qed.

Lemma fold_Rmax_scale (m : R) (l : list R) (a : R) :
  (0 < m)%R ->
  fold_left Rmax (map (fun x => x / m)%R l) (a / m)%R
  = (fold_left Rmax l a / m)%R.
Proof.
  intros Hm. revert a. induction l as [ | y l IH]; intros a; simpl.
  - reflexivity.
  - rewrite Rmax_scale by exact Hm. apply IH.
Qed.

Lemma Forall_concat_rows {A : Type} (P : A -> Prop) (ls : list (list A)) :
  Forall P (concat ls) <-> Forall (Forall P) ls.
Proof.
  induction ls as [ | l ls IH]; simpl.
  - split; constructor.
  - rewrite Forall_app, IH. split.
    + intros [H1 H2]. constructor; assumption.
    + intros H. inversion H; subst. split; assumption.
Qed.

(** X20: [normalizeM] with ['max'] on a cost whose entries are finite and
    not negative, and whose largest entry is [m]. When [m] is positive every
    entry is divided by it: the entries are finite, between 0 and 1, and the
    largest is 1. When [m] is zero no exception is raised and every entry of
    the cost becomes NaN. *)
Theorem normalizeM_max (M : mat) (m : R) :
  Forall (Forall finite_nonneg) M ->
  Transport.np_max M = Ok (Fin m) ->
  exists M',
    OTDA.normalizeM M (Some NormNames.max) = Ok M'
    /\ nrows M' = nrows M
    /\ ((0 < m)%R ->
        Forall (Forall (fun y => exists x, y = Fin x /\ (0 <= x <= 1)%R)) M'
        /\ Transport.np_max M' = Ok (Fin 1))
    /\ (m = 0%R -> Forall (Forall (fun y => y = NaN)) M').
Proof.
  intros Hfin Hmax.
  exists (OTDA.div_all M (Fin m)). split; [ | split ].
  - unfold OTDA.normalizeM. cbn [String.eqb Ascii.eqb Bool.eqb NormNames.max
      NormNames.median andb]. simpl String.eqb. cbv iota.
    rewrite Hmax. reflexivity.
  - unfold OTDA.div_all, nrows. apply length_map.
  - apply Forall_concat_rows in Hfin.
    assert (Hfin' : Forall finite (concat M)).
    { eapply Forall_impl; [ | exact Hfin ]. intros y [Hy _]. exact Hy. }
    destruct (finite_vec_reals (concat M) Hfin') as [l Hl].
    assert (Hnn : forall x, In x l -> (0 <= x)%R).
    { intros x Hx. rewrite Hl in Hfin. rewrite Forall_forall in Hfin.
      destruct (Hfin (Fin x) (in_map Fin l x Hx)) as [_ H]. exact H. }
    unfold Transport.np_max in Hmax. rewrite Hl in Hmax.
    destruct l as [ | a l]; [ discriminate | ].
    cbn [map] in Hmax. rewrite fold_fmax_reals in Hmax.
    injection Hmax as Hm.
    destruct (fold_Rmax_bounds l a) as [Ha Hle]. rewrite Hm in Ha, Hle.
    assert (Hx : forall x, In x (a :: l) -> (0 <= x <= m)%R).
    { intros x Hin. split; [ apply Hnn; exact Hin | ].
      destruct Hin as [<- | Hin]; auto. }
    assert (Hc : concat (OTDA.div_all M (Fin m))
                 = map (fun y => fdiv y (Fin m)) (map Fin (a :: l))).
    { unfold OTDA.div_all. rewrite <- concat_map, Hl. reflexivity. }
    split.
    + intros Hpos. split.
      * apply Forall_concat_rows. rewrite Hc, map_map.
        apply Forall_forall. intros y Hy. apply in_map_iff in Hy.
        destruct Hy as [x [<- Hin]]. exists (x / m)%R. split.
        -- simpl. destruct (Req_dec_T m 0); [ lra | reflexivity ].
        -- destruct (Hx x Hin) as [H0 H1].
           pose proof (Rinv_0_lt_compat m Hpos) as Hi. unfold Rdiv. split.
           ++ apply Rmult_le_pos; lra.
           ++ apply Rmult_le_reg_r with (r := m); [ exact Hpos | ].
              rewrite Rmult_assoc, Rinv_l by lra. lra.
      * unfold Transport.np_max. rewrite Hc, map_map.
        assert (E : map (fun x => fdiv (Fin x) (Fin m)) (a :: l)
                    = map Fin (map (fun x => x / m)%R (a :: l))).
        { rewrite map_map. apply map_ext. intros x. simpl.
          destruct (Req_dec_T m 0); [ lra | reflexivity ]. }
        rewrite E. cbn [map]. rewrite fold_fmax_reals.
        rewrite fold_Rmax_scale by exact Hpos. rewrite Hm.
        do 2 f_equal. field. lra.
    + intros Hz. apply Forall_concat_rows. rewrite Hc, map_map.
      apply Forall_forall. intros y Hy. apply in_map_iff in Hy.
      destruct Hy as [x [<- Hin]]. destruct (Hx x Hin) as [H0 H1]. simpl.
      destruct (Req_dec_T m 0); [ | contradiction ].
      unfold sign_of. destruct (Req_dec_T x 0); [ reflexivity | lra ].
Qed.

Lemma Ex_M_finite_nonneg : Forall (Forall finite_nonneg) Ex.M.
Proof. repeat constructor; simpl; lra. Qed.

Lemma normalizeM_max_witness :
  exists M',
    OTDA.normalizeM Ex.M (Some NormNames.max) = Ok M'
    /\ nrows M' = nrows Ex.M
    /\ ((0 < 1)%R ->
        Forall (Forall (fun y => exists x, y = Fin x /\ (0 <= x <= 1)%R)) M'
        /\ Transport.np_max M' = Ok (Fin 1))
    /\ (1%R = 0%R -> Forall (Forall (fun y => y = NaN)) M').
Proof.
  apply (normalizeM_max Ex.M 1).
  - exact Ex_M_finite_nonneg.
  - exact Ex_M_max.
Defined.
